(** * The query/write coordinator of the clustered time-series database

    A shallow embedding of [coordinator.CoordinatorImpl] (package
    [coordinator]) and of [parser.GroupByClause].  Collaborating packages
    ([protocol], [parser], [common], [cluster], [engine]) appear as records
    of the fields and behaviours the coordinator reads.

    Goroutines and channels are sequentialised: a shard's
    [Query(spec, responseChan)] is the list of responses it pushes on the
    channel, a receive from an exhausted channel blocks for ever, and the
    forwarding goroutine of [getShardsAndProcessor] handles each response at
    the moment the processor sends it (the channel is unbuffered).  A Go
    panic is a result of its own: indexing out of range, a nil dereference
    and [make] of a channel with a negative buffer size end the computation
    in [Panic], which [recoverFunc] catches in [RunQuery]. *)

From stdpp Require Import gmap strings list fin_maps.
From Stdlib Require Import ZArith Lia Ascii.

Local Open Scope string_scope.
Local Open Scope list_scope.
Local Open Scope Z_scope.

(** ** package common *)

Module common.

Inductive ErrorCode := InvalidArgument | InternalError | WrongNumberOfArguments.

(** Go [error] values the coordinator builds or passes on. *)
Inductive error :=
| QueryError (code : ErrorCode) (msg : string)   (* common.NewQueryError *)
| AuthorizationError (msg : string)              (* common.NewAuthorizationError *)
| Errorf (msg : string).                         (* fmt.Errorf *)

Record User := {
  IsClusterAdmin : bool;
  IsDbAdmin : string -> bool;
  HasWriteAccess : string -> bool
}.

End common.

(** ** package protocol *)

Module protocol.

Inductive FieldValue :=
| StringValue (s : string)
| Int64Value (n : Z)
| BoolValue (b : bool)
| DoubleValue (bits : Z).

Record Point := {
  Values : list FieldValue;
  Timestamp : option Z;          (* *int64, nil when the client sent none *)
  SequenceNumber : option Z      (* *uint64 *)
}.

Record Series := {
  Name : string;
  Fields : list string;
  Points : list Point
}.

Inductive Response_Type :=
| Response_QUERY
| Response_EXPLAIN_QUERY
| Response_END_STREAM
| Response_ACCESS_DENIED
| Response_HEARTBEAT.

Record Response := {
  Type_ : Response_Type;
  RSeries : option Series;       (* response.Series *)
  MultiSeries : list Series;
  ErrorMessage : option string
}.

Inductive Request_Type := Request_WRITE | Request_QUERY | Request_DROP_DATABASE.

Record Request := {
  RType : Request_Type;
  Database : string;
  ReqSeries : Series
}.

Definition Response_Type_eqb (a b : Response_Type) : bool :=
  match a, b with
  | Response_QUERY, Response_QUERY
  | Response_EXPLAIN_QUERY, Response_EXPLAIN_QUERY
  | Response_END_STREAM, Response_END_STREAM
  | Response_ACCESS_DENIED, Response_ACCESS_DENIED
  | Response_HEARTBEAT, Response_HEARTBEAT => true
  | _, _ => false
  end.

End protocol.

(** ** package parser *)

Module parser.

Record Value := {
  Name : string;
  (* GetCompiledRegex(): the compiled regex, as its MatchString *)
  CompiledRegex : option (string -> bool)
}.

(** src/parser/group_by.go.  [Elems] is a Go slice: [None] is the nil
    slice, [Some []] an empty one that is not nil. *)
Record GroupByClause := {
  FillWithZero : bool;
  FillValue : option Value;
  Elems : option (list Value)
}.

Record TableName := { TName : Value; Alias : string }.
Record FromClause := { Names : list TableName }.
Record IntoClause := { Target : Value }.

Record SelectQuery := {
  Limit : Z;
  Explain : bool;
  groupByClause : GroupByClause;
  fromClause : FromClause;
  intoClause : option IntoClause
}.

Definition GetGroupByClause (q : SelectQuery) := groupByClause q.
Definition GetFromClause (q : SelectQuery) := fromClause q.
Definition GetIntoClause (q : SelectQuery) := intoClause q.
Definition IsContinuousQuery (q : SelectQuery) : bool :=
  bool_decide (is_Some (intoClause q)).

Record DeleteQuery := { DTable : string }.
Record DropSeriesQuery := { GetTableName : string }.
Record DropQuery := { Id : Z }.
Inductive ListType := Series | ContinuousQueries.

(** The parsed statement: a struct of optional parts, as the coordinator
    tests them. *)
Record Query := {
  QueryString : string;
  SelectQuery_ : option SelectQuery;
  DeleteQuery_ : option DeleteQuery;
  DropSeriesQuery_ : option DropSeriesQuery;
  DropQuery_ : option DropQuery;
  ListQuery_ : option ListType
}.

Definition IsListQuery (q : Query) : bool := bool_decide (is_Some (ListQuery_ q)).
Definition IsListSeriesQuery (q : Query) : bool :=
  match ListQuery_ q with Some Series => true | _ => false end.
Definition IsListContinuousQueriesQuery (q : Query) : bool :=
  match ListQuery_ q with Some ContinuousQueries => true | _ => false end.

Record QuerySpec := {
  User : common.User;
  Database : string;
  Query_ : Query;
  RunAgainstAllServersInShard : bool
}.

Definition NewQuerySpec (user : common.User) (database : string) (q : Query) : QuerySpec :=
  {| User := user; Database := database; Query_ := q;
     RunAgainstAllServersInShard := false |}.

Definition SelectQuery_of (spec : QuerySpec) : option SelectQuery :=
  SelectQuery_ (Query_ spec).

Definition IsExplainQuery (spec : QuerySpec) : bool :=
  match SelectQuery_of spec with Some q => Explain q | None => false end.

Definition setRunAgainstAllServersInShard (spec : QuerySpec) : QuerySpec :=
  {| User := User spec; Database := Database spec; Query_ := Query_ spec;
     RunAgainstAllServersInShard := true |}.

End parser.

(** ** package cluster *)

Module cluster.

(** A query processor (aggregation engine or passthrough): an object
    with private state.  [YieldSeries] gives the new state, the
    [continue] answer and the responses it sends on its response channel;
    [Close] gives the responses it sends while closing. *)
Record QueryProcessor := {
  pstate : Type;
  pcur : pstate;
  pYieldSeries : pstate -> protocol.Series -> pstate * bool * list protocol.Response;
  pClose : pstate -> list protocol.Response
}.

Definition YieldSeries (p : QueryProcessor) (s : protocol.Series)
  : QueryProcessor * bool * list protocol.Response :=
  let '(st, continue, out) := pYieldSeries p (pcur p) s in
  ({| pstate := pstate p; pcur := st;
      pYieldSeries := pYieldSeries p; pClose := pClose p |}, continue, out).

Definition Close (p : QueryProcessor) : list protocol.Response := pClose p (pcur p).

Record ShardData := {
  Id : Z;
  ShouldAggregateLocally : parser.QuerySpec -> bool;
  (* what Query(spec, responseChan) pushes on responseChan, in order *)
  Query : parser.QuerySpec -> list protocol.Response;
  QueryResponseBufferSize : parser.QuerySpec -> Z -> Z;
  Write : protocol.Request -> option common.error
}.

Record ContinuousQuery := { CqId : Z; CqQuery : string }.

Record ClusterConfiguration := {
  GetShortTermShards : list ShardData;
  GetLongTermShards : list ShardData;
  GetShards : parser.QuerySpec -> list ShardData;
  GetShardToWriteToBySeriesAndTime : string -> string -> Z -> common.error + ShardData;
  (* map[string]map[uint32]*parser.SelectQuery; the inner map in the
     order one range over it visits it *)
  ParsedContinuousQueries : option (gmap string (list parser.SelectQuery));
  GetContinuousQueries : string -> list ContinuousQuery
}.

End cluster.

(** ** package configuration, the consensus interface, package engine *)

Module configuration.
Record Configuration := {
  ConcurrentShardQueryLimit : Z;
  LevelDbPointBatchSize : Z
}.
End configuration.

Record ClusterConsensus := {
  raftCreateContinuousQuery : string -> string -> option common.error;
  raftDeleteContinuousQuery : string -> Z -> option common.error
}.

Module engine.
Record Factory := {
  NewQueryEngine : parser.SelectQuery -> common.error + cluster.QueryProcessor;
  NewPassthroughEngineWithLimit : Z -> Z -> cluster.QueryProcessor;
  NewPassthroughEngine : Z -> cluster.QueryProcessor
}.
End engine.

(** What the coordinator calls outside its own fields. *)
Record World := {
  ParseQuery : string -> common.error + list parser.Query;
  engines : engine.Factory;
  CurrentTime : Z;                                             (* common.CurrentTime() *)
  TimeNowUnix : Z;                                             (* time.Now().Unix() *)
  GetFieldIndex : protocol.Series -> string -> Z;
  GetFieldValueAsString : protocol.Point -> Z -> string
}.

Record CoordinatorImpl := {
  clusterConfiguration : cluster.ClusterConfiguration;
  raftServer : ClusterConsensus;
  config : configuration.Configuration;
  world : World
}.

(** The caller's sink: [Write] may fail, [Close] returns nothing. *)
Record SeriesWriter := {
  swWrite : protocol.Series -> option common.error
}.

Definition SHARDS_TO_QUERY_FOR_LIST_SERIES : nat := 10.

(** ** Observable effects *)

Inductive Event :=
| EvShardQuery (index : Z) (shardId : Z)            (* go shard.Query(spec, chan) *)
| EvTerminal (index : Z) (msg : option string)      (* terminal response of shard [index] read *)
| EvYieldSeries (s : protocol.Series) (continue : bool)
| EvProcessorClose
| EvSinkWrite (s : protocol.Series)
| EvSinkClose
| EvShardWrite (shardId : Z) (req : protocol.Request)
| EvInterpolate (cq : nat) (db : string) (target : string)
| EvRaftCreateContinuousQuery (db : string) (q : string)
| EvRaftDeleteContinuousQuery (db : string) (id : Z)
| EvRecovered.                                      (* recoverFunc caught a panic *)

Inductive Res (A : Type) :=
| Done (a : A)
| Panic        (* a Go panic unwinds the call *)
| Blocked.     (* the goroutine waits on a channel for ever *)
Arguments Done {A} a.
Arguments Panic {A}.
Arguments Blocked {A}.

(** A computation: the events it performs, then how it ends. *)
Definition M (A : Type) : Type := list Event * Res A.

Definition ret {A} (a : A) : M A := ([], Done a).
Definition emit (e : Event) : M unit := ([e], Done tt).
Definition panic {A} : M A := ([], Panic).
Definition blocked {A} : M A := ([], Blocked).

Definition bind {A B} (m : M A) (f : A -> M B) : M B :=
  match m with
  | (t, Done a) => let '(t', r) := f a in (t ++ t', r)
  | (t, Panic) => (t, Panic)
  | (t, Blocked) => (t, Blocked)
  end.

Arguments bind : simpl never.
Arguments ret : simpl never.
Arguments emit : simpl never.

Notation "'do' x <- m ; k" := (bind m (fun x => k))
  (at level 10, x name, m at level 100, k at level 200).
Notation "'do' ' p <- m ; k" := (bind m (fun x => match x with p => k end))
  (at level 10, p pattern, m at level 100, k at level 200).
Notation "'exec' m ; k" := (bind m (fun _ => k))
  (at level 10, m at level 100, k at level 200).

Definition trace {A} (m : M A) : list Event := fst m.
Definition result {A} (m : M A) : Res A := snd m.

(** ** The query path *)

(** [*response.Type == endStreamResponse || *response.Type == accessDeniedResponse] *)
Definition isTerminal (response : protocol.Response) : bool :=
  protocol.Response_Type_eqb (protocol.Type_ response) protocol.Response_END_STREAM
  || protocol.Response_Type_eqb (protocol.Type_ response) protocol.Response_ACCESS_DENIED.

(** [*response.Type == queryResponse && querySpec.IsExplainQuery()] *)
Definition isExplainedQueryResponse (querySpec : parser.QuerySpec)
    (response : protocol.Response) : bool :=
  protocol.Response_Type_eqb (protocol.Type_ response) protocol.Response_QUERY
  && parser.IsExplainQuery querySpec.

(** [response.Series != nil && len(response.Series.Points) > 0], with the series *)
Definition seriesWithPoints (response : protocol.Response) : option protocol.Series :=
  match protocol.RSeries response with
  | Some s => match protocol.Points s with [] => None | _ :: _ => Some s end
  | None => None
  end.

Fixpoint shouldAggregateLocally (shards : list cluster.ShardData)
    (querySpec : parser.QuerySpec) : bool :=
  match shards with
  | [] => true
  | s :: shards' =>
      if negb (cluster.ShouldAggregateLocally s querySpec) then false
      else shouldAggregateLocally shards' querySpec
  end.

Definition shouldQuerySequentially (shards : list cluster.ShardData)
    (querySpec : parser.QuerySpec) : bool :=
  negb (shouldAggregateLocally shards querySpec).

(** [getShardsAndProcessor]: the shards and the processor (nil is [None]),
    or the error of engine.NewQueryEngine.  The goroutine it starts when
    there is a processor is [forward] below. *)
Definition getShardsAndProcessor (c : CoordinatorImpl) (querySpec : parser.QuerySpec)
  : common.error + (list cluster.ShardData * option cluster.QueryProcessor) :=
  let shards := cluster.GetShards (clusterConfiguration c) querySpec in
  let aggregateLocally := shouldAggregateLocally shards querySpec in
  let made : common.error + option cluster.QueryProcessor :=
    match parser.SelectQuery_of querySpec with
    | Some selectQuery =>
        if negb aggregateLocally then
          match engine.NewQueryEngine (engines (world c)) selectQuery with
          | inl e => inl e
          | inr p => inr (Some p)
          end
        else if 0 <? parser.Limit selectQuery then
          inr (Some (engine.NewPassthroughEngineWithLimit (engines (world c)) 100
                       (parser.Limit selectQuery)))
        else if negb aggregateLocally then
          inr (Some (engine.NewPassthroughEngine (engines (world c)) 100))
        else inr None
    | None =>
        if negb aggregateLocally then
          inr (Some (engine.NewPassthroughEngine (engines (world c)) 100))
        else inr None
    end in
  match made with
  | inl e => inl e
  | inr processor => inr (shards, processor)
  end.

(** The goroutine of [getShardsAndProcessor] on the responses the
    processor sends.  [closed] says it has seen a terminal response: it
    has closed the writer and returned, so a later send finds no receiver. *)
Fixpoint forward (querySpec : parser.QuerySpec) (closed : bool)
    (out : list protocol.Response) : M bool :=
  match out with
  | [] => ret closed
  | response :: out' =>
      if closed then blocked
      else if isTerminal response then
        exec emit EvSinkClose;
        forward querySpec true out'
      else
        exec (if negb (isExplainedQueryResponse querySpec response) then
                match seriesWithPoints response with
                | Some s => emit (EvSinkWrite s)
                | None => ret tt
                end
              else ret tt);
        forward querySpec false out'
  end.

(** The local variables of [runQuerySpec] that its loops change. *)
Record FanOut := {
  responses : list (option (list protocol.Response));
  nextIndex : Z;
  shouldContinue : bool;
  err : option common.error;
  processor : option cluster.QueryProcessor;
  seriesClosed : bool
}.

(** [make(chan *protocol.Response, size)]: a run-time panic when [size] is
    negative. *)
Definition makeChan (size : Z) : M unit :=
  if size <? 0 then panic else ret tt.

Arguments makeChan : simpl never.

(** [for i := 0; i < shardConcurrentLimit && i < len(shards); i++] *)
Fixpoint queryFirstShards (c : CoordinatorImpl) (querySpec : parser.QuerySpec)
    (shardConcurrentLimit : Z) (i : nat) (rest : list cluster.ShardData)
    (responses : list (option (list protocol.Response)))
  : M (list (option (list protocol.Response))) :=
  match rest with
  | [] => ret responses
  | shard :: rest' =>
      if Z.of_nat i <? shardConcurrentLimit then
        exec makeChan (cluster.QueryResponseBufferSize shard querySpec
                         (configuration.LevelDbPointBatchSize (config c)));
        exec emit (EvShardQuery (Z.of_nat i) (cluster.Id shard));
        queryFirstShards c querySpec shardConcurrentLimit (S i) rest'
          (<[i := Some (cluster.Query shard querySpec)]> responses)
      else ret responses
  end.

(** The terminal response of the shard being read: record the first error
    message, start the next shard when [shouldContinue]. *)
Definition onTerminal (c : CoordinatorImpl) (querySpec : parser.QuerySpec)
    (shards : list cluster.ShardData) (i : nat) (st : FanOut)
    (response : protocol.Response) : M FanOut :=
  exec emit (EvTerminal (Z.of_nat i) (protocol.ErrorMessage response));
  let err' :=
    match protocol.ErrorMessage response, err st with
    | Some msg, None => Some (common.QueryError common.InvalidArgument msg)
    | _, e => e
    end in
  if (nextIndex st <? Z.of_nat (length shards)) && shouldContinue st then
    if nextIndex st <? 0 then panic   (* shards[nextIndex]: index out of range *)
    else
      match shards !! Z.to_nat (nextIndex st) with
      | None => panic
      | Some shard =>
          exec makeChan (cluster.QueryResponseBufferSize shard querySpec
                           (configuration.LevelDbPointBatchSize (config c)));
          exec emit (EvShardQuery (nextIndex st) (cluster.Id shard));
          ret {| responses := <[Z.to_nat (nextIndex st) := Some (cluster.Query shard querySpec)]>
                                (responses st);
                 nextIndex := nextIndex st + 1;
                 shouldContinue := shouldContinue st;
                 err := err';
                 processor := processor st;
                 seriesClosed := seriesClosed st |}
      end
  else
    ret {| responses := responses st; nextIndex := nextIndex st;
           shouldContinue := shouldContinue st; err := err';
           processor := processor st; seriesClosed := seriesClosed st |}.

(** The inner [for] of [runQuerySpec]: read shard [i]'s channel until its
    terminal response. *)
Fixpoint readShard (c : CoordinatorImpl) (querySpec : parser.QuerySpec)
    (shards : list cluster.ShardData) (i : nat) (st : FanOut)
    (responseChan : list protocol.Response) : M FanOut :=
  match responseChan with
  | [] => blocked
  | response :: rest =>
      if isTerminal response then onTerminal c querySpec shards i st response
      else
        match seriesWithPoints response with
        | None => readShard c querySpec shards i st rest
        | Some series =>
            match processor st with
            | Some p =>
                let '(p', continue, out) := cluster.YieldSeries p series in
                exec emit (EvYieldSeries series continue);
                do closed <- forward querySpec (seriesClosed st) out;
                readShard c querySpec shards i
                  {| responses := responses st; nextIndex := nextIndex st;
                     shouldContinue := continue; err := err st;
                     processor := Some p'; seriesClosed := closed |} rest
            | None =>
                exec (if negb (isExplainedQueryResponse querySpec response)
                      then emit (EvSinkWrite series) else ret tt);
                readShard c querySpec shards i st rest
            end
        end
  end.

(** [for i, responseChan := range responses], [n] iterations left. *)
Fixpoint readResponses (c : CoordinatorImpl) (querySpec : parser.QuerySpec)
    (shards : list cluster.ShardData) (n : nat) (i : nat) (st : FanOut) : M FanOut :=
  match n with
  | O => ret st
  | S n' =>
      match responses st !! i with
      | Some (Some responseChan) =>
          do st' <- readShard c querySpec shards i st responseChan;
          readResponses c querySpec shards n' (S i) st'
      | _ => ret st     (* responseChan == nil: break *)
      end
  end.

Definition shardConcurrentLimit (c : CoordinatorImpl) (shards : list cluster.ShardData)
    (querySpec : parser.QuerySpec) : Z :=
  if shouldQuerySequentially shards querySpec then 1
  else configuration.ConcurrentShardQueryLimit (config c).

(** [runQuerySpec] after [getShardsAndProcessor] has succeeded. *)
Definition fanOut (c : CoordinatorImpl) (querySpec : parser.QuerySpec)
    (shards : list cluster.ShardData) (processor0 : option cluster.QueryProcessor)
  : M (option common.error) :=
  let limit := shardConcurrentLimit c shards querySpec in
  do responses0 <- queryFirstShards c querySpec limit 0 shards
                     (replicate (length shards) None);
  do st <- readResponses c querySpec shards (length responses0) 0
             {| responses := responses0; nextIndex := limit; shouldContinue := false;
                err := None; processor := processor0; seriesClosed := false |};
  match processor st with
  | Some p =>
      exec emit EvProcessorClose;
      do closed <- forward querySpec (seriesClosed st) (cluster.Close p);
      if closed then ret (err st) else blocked      (* <-seriesClosed *)
  | None =>
      exec emit EvSinkClose;
      ret (err st)
  end.

Definition runQuerySpec (c : CoordinatorImpl) (querySpec : parser.QuerySpec)
  : M (option common.error) :=
  match getShardsAndProcessor c querySpec with
  | inl e => ret (Some e)
  | inr (shards, processor0) => fanOut c querySpec shards processor0
  end.

(** [shards[:SHARDS_TO_QUERY_FOR_LIST_SERIES]] when there are more *)
Definition firstShardsForListSeries (shards : list cluster.ShardData) : list cluster.ShardData :=
  if (SHARDS_TO_QUERY_FOR_LIST_SERIES <? length shards)%nat
  then take SHARDS_TO_QUERY_FOR_LIST_SERIES shards else shards.

(** [for _, series := range response.MultiSeries] of [runListSeriesQuery] *)
Fixpoint writeNewSeries (seriesYielded : gset string) (multi : list protocol.Series)
  : M (gset string) :=
  match multi with
  | [] => ret seriesYielded
  | series :: multi' =>
      if bool_decide (protocol.Name series ∈ seriesYielded) then
        writeNewSeries seriesYielded multi'
      else
        exec emit (EvSinkWrite series);
        writeNewSeries ({[protocol.Name series]} ∪ seriesYielded) multi'
  end.

(** The inner [for] of [runListSeriesQuery].  The error is assigned under
    the guard [response.ErrorMessage != nil && err != nil]. *)
Fixpoint readListSeries (i : nat) (seriesYielded : gset string) (err : option common.error)
    (responseChan : list protocol.Response) : M (gset string * option common.error) :=
  match responseChan with
  | [] => blocked
  | response :: rest =>
      if isTerminal response then
        exec emit (EvTerminal (Z.of_nat i) (protocol.ErrorMessage response));
        ret (seriesYielded,
             match protocol.ErrorMessage response, err with
             | Some msg, Some _ => Some (common.QueryError common.InvalidArgument msg)
             | _, e => e
             end)
      else
        do seriesYielded' <- writeNewSeries seriesYielded (protocol.MultiSeries response);
        readListSeries i seriesYielded' err rest
  end.

Fixpoint listSeriesFromShards (c : CoordinatorImpl) (querySpec : parser.QuerySpec)
    (i : nat) (shards : list cluster.ShardData) (seriesYielded : gset string)
    (err : option common.error) : M (option common.error) :=
  match shards with
  | [] => ret err
  | shard :: shards' =>
      exec makeChan (cluster.QueryResponseBufferSize shard querySpec
                       (configuration.LevelDbPointBatchSize (config c)));
      exec emit (EvShardQuery (Z.of_nat i) (cluster.Id shard));
      do '(seriesYielded', err') <-
         readListSeries i seriesYielded err (cluster.Query shard querySpec);
      listSeriesFromShards c querySpec (S i) shards' seriesYielded' err'
  end.

Definition runListSeriesQuery (c : CoordinatorImpl) (querySpec : parser.QuerySpec)
  : M (option common.error) :=
  let shortTermShards :=
    firstShardsForListSeries (cluster.GetShortTermShards (clusterConfiguration c)) in
  let longTermShards :=
    firstShardsForListSeries (cluster.GetLongTermShards (clusterConfiguration c)) in
  let shards := shortTermShards ++ longTermShards in
  do err <- listSeriesFromShards c querySpec 0 shards ∅ None;
  exec emit EvSinkClose;
  ret err.

Definition runDeleteQuery (c : CoordinatorImpl) (querySpec : parser.QuerySpec)
  : M (option common.error) :=
  let db := parser.Database querySpec in
  if negb (common.IsDbAdmin (parser.User querySpec) db) then
    ret (Some (common.AuthorizationError ("Insufficient permission to write to " +:+ db)))
  else runQuerySpec c (parser.setRunAgainstAllServersInShard querySpec).

Definition runDropSeriesQuery (c : CoordinatorImpl) (querySpec : parser.QuerySpec)
    (dropSeriesQuery : parser.DropSeriesQuery) : M (option common.error) :=
  let user := parser.User querySpec in
  let db := parser.Database querySpec in
  let series := parser.GetTableName dropSeriesQuery in
  if negb (common.IsClusterAdmin user) && negb (common.IsDbAdmin user db)
     && negb (common.HasWriteAccess user series) then
    ret (Some (common.AuthorizationError "Insufficient permissions to drop series"))
  else runQuerySpec c (parser.setRunAgainstAllServersInShard querySpec).

(** This should only get run for SelectQuery types *)
Definition runQuery (c : CoordinatorImpl) (query : parser.Query) (user : common.User)
    (database : string) : M (option common.error) :=
  runQuerySpec c (parser.NewQuerySpec user database query).

Definition CreateContinuousQuery (c : CoordinatorImpl) (user : common.User)
    (db : string) (query : string) : M (option common.error) :=
  if negb (common.IsClusterAdmin user) && negb (common.IsDbAdmin user db) then
    ret (Some (common.AuthorizationError
                 "Insufficient permissions to create continuous query"))
  else
    exec emit (EvRaftCreateContinuousQuery db query);
    ret (raftCreateContinuousQuery (raftServer c) db query).

Definition DeleteContinuousQuery (c : CoordinatorImpl) (user : common.User)
    (db : string) (id : Z) : M (option common.error) :=
  if negb (common.IsClusterAdmin user) && negb (common.IsDbAdmin user db) then
    ret (Some (common.AuthorizationError
                 "Insufficient permissions to delete continuous query"))
  else
    exec emit (EvRaftDeleteContinuousQuery db id);
    ret (raftDeleteContinuousQuery (raftServer c) db id).

Definition ListContinuousQueries (c : CoordinatorImpl) (user : common.User) (db : string)
  : common.error + list protocol.Series :=
  if negb (common.IsClusterAdmin user) && negb (common.IsDbAdmin user db) then
    inl (common.AuthorizationError "Insufficient permissions to list continuous queries")
  else
    let queries := cluster.GetContinuousQueries (clusterConfiguration c) db in
    let points :=
      map (fun query =>
             {| protocol.Values := [protocol.Int64Value (cluster.CqId query);
                                    protocol.StringValue (cluster.CqQuery query)];
                protocol.Timestamp := Some (TimeNowUnix (world c));
                protocol.SequenceNumber := Some 1 |}) queries in
    inr [ {| protocol.Name := "continuous queries";
             protocol.Fields := ["id"; "query"];
             protocol.Points := points |} ].

(** How one turn of the [for _, query := range q] of [RunQuery] ends. *)
Inductive Turn :=
| Continue
| Return (e : option common.error).

Fixpoint writeAll (seriesWriter : SeriesWriter) (queries : list protocol.Series) : M Turn :=
  match queries with
  | [] => ret Continue
  | q :: queries' =>
      exec emit (EvSinkWrite q);
      match swWrite seriesWriter q with
      | Some e => ret (Return (Some e))
      | None => writeAll seriesWriter queries'
      end
  end.

Definition orContinue (e : option common.error) : Turn :=
  match e with Some _ => Return e | None => Continue end.

(** The [uint32(...)] conversion of a Go int *)
Definition uint32 (n : Z) : Z := n mod 2 ^ 32.

Definition runStatement (c : CoordinatorImpl) (user : common.User) (database : string)
    (queryString : string) (seriesWriter : SeriesWriter) (query : parser.Query) : M Turn :=
  let querySpec := parser.NewQuerySpec user database query in
  match parser.DeleteQuery_ query with
  | Some _ => do e <- runDeleteQuery c querySpec; ret (orContinue e)
  | None =>
  match parser.DropQuery_ query with
  | Some dropQuery =>
      do e <- DeleteContinuousQuery c user database (uint32 (parser.Id dropQuery));
      ret (orContinue e)
  | None =>
  if parser.IsListQuery query then
    if parser.IsListSeriesQuery query then
      do _ <- runListSeriesQuery c querySpec;       (* the error is dropped *)
      ret Continue
    else if parser.IsListContinuousQueriesQuery query then
      match ListContinuousQueries c user database with
      | inl e => ret (Return (Some e))
      | inr queries => writeAll seriesWriter queries
      end
    else ret Continue
  else
  match parser.DropSeriesQuery_ query with
  | Some dropSeriesQuery =>
      do e <- runDropSeriesQuery c querySpec dropSeriesQuery; ret (orContinue e)
  | None =>
  match parser.SelectQuery_ query with
  | None => panic                                   (* selectQuery is nil *)
  | Some selectQuery =>
      if parser.IsContinuousQuery selectQuery then
        do e <- CreateContinuousQuery c user database queryString; ret (Return e)
      else
        do e <- runQuery c query user database; ret (Return e)
  end end end end.

Fixpoint runStatements (c : CoordinatorImpl) (user : common.User) (database : string)
    (queryString : string) (seriesWriter : SeriesWriter) (q : list parser.Query)
  : M (option common.error) :=
  match q with
  | [] =>
      exec emit EvSinkClose;
      ret None
  | query :: q' =>
      do turn <- runStatement c user database queryString seriesWriter query;
      match turn with
      | Return e => ret e
      | Continue => runStatements c user database queryString seriesWriter q'
      end
  end.

(** [defer recoverFunc(database, queryString)]: a panic stops at RunQuery,
    which then returns its named result [err], nil at that point. *)
Definition recoverFunc (m : M (option common.error)) : M (option common.error) :=
  match m with
  | (t, Panic) => (t ++ [EvRecovered], Done None)
  | _ => m
  end.

Definition RunQuery (c : CoordinatorImpl) (user : common.User) (database : string)
    (queryString : string) (seriesWriter : SeriesWriter) : M (option common.error) :=
  recoverFunc
    match ParseQuery (world c) queryString with
    | inl e => ret (Some e)
    | inr q => runStatements c user database queryString seriesWriter q
    end.

(** ** The write path *)

(** [*point.Timestamp]; no timestamp is nil after the fill loop of
    [CommitSeriesData]. *)
Definition GetTimestamp (p : protocol.Point) : Z :=
  match protocol.Timestamp p with Some t => t | None => 0 end.

Definition fillTimestamp (now : Z) (point : protocol.Point) : protocol.Point :=
  match protocol.Timestamp point with
  | None => {| protocol.Values := protocol.Values point;
               protocol.Timestamp := Some now;
               protocol.SequenceNumber := protocol.SequenceNumber point |}
  | Some _ => point
  end.

Fixpoint insertTimeDescending (p : protocol.Point) (sorted : list protocol.Point)
  : list protocol.Point :=
  match sorted with
  | [] => [p]
  | q :: sorted' =>
      if GetTimestamp p <? GetTimestamp q then q :: insertTimeDescending p sorted'
      else p :: q :: sorted'
  end.

(** Modelled from the spec: [Series.SortPointsTimeDescending] of package
    protocol, which is not under src/: "Sort points by timestamp descending
    (stable)". *)
Fixpoint SortPointsTimeDescending (points : list protocol.Point) : list protocol.Point :=
  match points with
  | [] => []
  | p :: points' => insertTimeDescending p (SortPointsTimeDescending points')
  end.

Definition withPoints (series : protocol.Series) (points : list protocol.Point)
  : protocol.Series :=
  {| protocol.Name := protocol.Name series;
     protocol.Fields := protocol.Fields series;
     protocol.Points := points |}.

(** [series.Points[lo:hi]] *)
Definition slice {A} (l : list A) (lo hi : nat) : list A := take (hi - lo) (drop lo l).

Definition write (db : string) (series : protocol.Series) (shard : cluster.ShardData)
  : M (option common.error) :=
  let request := {| protocol.RType := protocol.Request_WRITE;
                    protocol.Database := db;
                    protocol.ReqSeries := series |} in
  exec emit (EvShardWrite (cluster.Id shard) request);
  ret (cluster.Write shard request).

(** The local variables of [CommitSeriesData] that its sweep changes. *)
Record Sweep := {
  lastTime : Z;
  lastPointIndex : nat;
  shardToWrite : option cluster.ShardData
}.

(** [for i, point := range series.Points] of [CommitSeriesData]: [inl e]
    when the loop returns the error [e]. *)
Fixpoint sweep (c : CoordinatorImpl) (db : string) (series : protocol.Series)
    (points : list protocol.Point) (i : nat) (rest : list protocol.Point) (st : Sweep)
  : M (common.error + Sweep) :=
  match rest with
  | [] => ret (inr st)
  | point :: rest' =>
      if negb (GetTimestamp point =? lastTime st) then
        match cluster.GetShardToWriteToBySeriesAndTime (clusterConfiguration c) db
                (protocol.Name series) (GetTimestamp point) with
        | inl e => ret (inl e)
        | inr shard =>
            match shardToWrite st with
            | None =>
                sweep c db series points (S i) rest'
                  {| lastTime := GetTimestamp point;
                     lastPointIndex := lastPointIndex st;
                     shardToWrite := Some shard |}
            | Some current =>
                if negb (cluster.Id current =? cluster.Id shard) then
                  let newSeries := withPoints series (slice points (lastPointIndex st) i) in
                  do e <- write db newSeries current;
                  match e with
                  | Some e => ret (inl e)
                  | None =>
                      sweep c db series points (S i) rest'
                        {| lastTime := GetTimestamp point;
                           lastPointIndex := i;
                           shardToWrite := Some shard |}
                  end
                else
                  sweep c db series points (S i) rest'
                    {| lastTime := GetTimestamp point;
                       lastPointIndex := lastPointIndex st;
                       shardToWrite := shardToWrite st |}
            end
        end
      else sweep c db series points (S i) rest' st
  end.

(** [CommitSeriesData]: the returned error and the caller's series as the
    call leaves it (timestamps filled, points sorted in place, [Points]
    re-sliced to the last run). *)
Definition CommitSeriesData (c : CoordinatorImpl) (db : string) (series : protocol.Series)
  : M (option common.error * protocol.Series) :=
  let now := CurrentTime (world c) in
  let points := SortPointsTimeDescending (map (fillTimestamp now) (protocol.Points series)) in
  do swept <- sweep c db series points 0 points
                {| lastTime := 0; lastPointIndex := 0; shardToWrite := None |};
  match swept with
  | inl e => ret (Some e, withPoints series points)
  | inr st =>
      let series' := withPoints series (drop (lastPointIndex st) points) in
      match protocol.Points series' with
      | [] => ret (None, series')
      | first :: _ =>
          let shard :=
            match shardToWrite st with
            | Some shard => Some shard
            | None =>
                (* shardToWrite, _ = ...: the lookup's error is dropped *)
                match cluster.GetShardToWriteToBySeriesAndTime (clusterConfiguration c) db
                        (protocol.Name series) (GetTimestamp first) with
                | inr shard => Some shard
                | inl _ => None
                end
            end in
          match shard with
          | None => panic                      (* Write on a nil shard *)
          | Some shard =>
              do e <- write db series' shard;
              ret (e, series')
          end
      end
  end.

(** *** Continuous queries *)

Definition newline : ascii := Ascii.ascii_of_nat 10.

(** [strings.Replace(s, old, new, -1)] for a non-empty [old]; [skip]
    characters of a replaced occurrence are still to pass. *)
Fixpoint replaceFrom (old new : string) (skip : nat) (s : string) : string :=
  match s with
  | EmptyString => EmptyString
  | String ch s' =>
      match skip with
      | S k => replaceFrom old new k s'
      | O =>
          if String.prefix old s
          then new +:+ replaceFrom old new (String.length old - 1) s'
          else String ch (replaceFrom old new 0 s')
      end
  end.

Definition Replace (s old new : string) : string := replaceFrom old new 0 s.

(** The regular expression [\[.*?\]]: an opening bracket, the fewest
    characters other than a newline, a closing bracket.  [inside] holds the
    characters read since the opening bracket of a possible match. *)
Fixpoint bracketMatch (inside : bool) (s : string) : bool :=
  match s with
  | EmptyString => false
  | String ch s' =>
      if inside then
        if Ascii.eqb ch "]"%char then true
        else if Ascii.eqb ch newline then bracketMatch false s'
        else bracketMatch true s'
      else bracketMatch (Ascii.eqb ch "["%char) s'
  end.

Definition MatchString (s : string) : bool := bracketMatch false s.

Fixpoint bracketReplace (f : string -> string) (inside : option string) (s : string)
  : string :=
  match s with
  | EmptyString =>
      match inside with
      | None => EmptyString
      | Some acc => "[" +:+ acc
      end
  | String ch s' =>
      match inside with
      | None =>
          if Ascii.eqb ch "["%char then bracketReplace f (Some EmptyString) s'
          else String ch (bracketReplace f None s')
      | Some acc =>
          if Ascii.eqb ch "]"%char then f acc +:+ bracketReplace f None s'
          else if Ascii.eqb ch newline
          then "[" +:+ acc +:+ String ch (bracketReplace f None s')
          else bracketReplace f (Some (acc +:+ String ch EmptyString)) s'
      end
  end.

(** [r.ReplaceAllStringFunc(s, f)], [f] applied to [match[1 : len(match)-1]] *)
Definition ReplaceAllStringFunc (s : string) (f : string -> string) : string :=
  bracketReplace f None s.

Definition inRange (lo hi : ascii) (r : ascii) : bool :=
  (Ascii.N_of_ascii lo <=? Ascii.N_of_ascii r)%N && (Ascii.N_of_ascii r <=? Ascii.N_of_ascii hi)%N.

(** [replaceInvalidCharacters]: [None] is the rune -1, which strings.Map drops *)
Definition replaceInvalidCharacters (r : ascii) : option ascii :=
  if inRange "A"%char "Z"%char r || inRange "a"%char "z"%char r
     || inRange "0"%char "9"%char r then Some r
  else if Ascii.eqb r "_"%char || Ascii.eqb r "-"%char || Ascii.eqb r "."%char then Some r
  else if Ascii.eqb r " "%char then Some "_"%char
  else if Ascii.eqb r "/"%char then Some "."%char
  else None.

(** [strings.Map(replaceInvalidCharacters, s)]; every byte of a rune
    outside ASCII is dropped. *)
Fixpoint Map (mapping : ascii -> option ascii) (s : string) : string :=
  match s with
  | EmptyString => EmptyString
  | String ch s' =>
      match mapping ch with
      | Some ch' => String ch' (Map mapping s')
      | None => Map mapping s'
      end
  end.

Definition withSequenceNumber (point : protocol.Point) (n : Z) : protocol.Point :=
  {| protocol.Values := protocol.Values point;
     protocol.Timestamp := protocol.Timestamp point;
     protocol.SequenceNumber := Some n |}.

(** [sequenceMap[key] += 1] and the number read back; [None] when
    [*point.Timestamp] dereferences nil. *)
Definition nextSequenceNumber (sequenceMap : gmap (string * Z) Z) (targetName : string)
    (point : protocol.Point) : option (gmap (string * Z) Z * protocol.Point) :=
  match protocol.Timestamp point with
  | None => None
  | Some t =>
      let n := default 0 (sequenceMap !! (targetName, t)) + 1 in
      Some (<[(targetName, t) := n]> sequenceMap, withSequenceNumber point n)
  end.

(** The branch of [InterpolateValuesAndCommit] for a target with a
    [[field]] placeholder: one commit per point.  Gives the points as the
    loop leaves them. *)
Fixpoint commitEachPoint (c : CoordinatorImpl) (db : string) (series : protocol.Series)
    (targetName : string) (assignSequenceNumbers : bool)
    (sequenceMap : gmap (string * Z) Z) (points : list protocol.Point)
  : M (list protocol.Point) :=
  match points with
  | [] => ret []
  | point :: points' =>
      let targetNameWithValues :=
        ReplaceAllStringFunc targetName (fun fieldName =>
          GetFieldValueAsString (world c) point (GetFieldIndex (world c) series fieldName)) in
      let cleanedTargetName := Map replaceInvalidCharacters targetNameWithValues in
      do '(sequenceMap', point') <-
         (if assignSequenceNumbers then
            match nextSequenceNumber sequenceMap targetName point with
            | Some r => ret r
            | None => panic
            end
          else ret (sequenceMap, point));
      let newSeries := {| protocol.Name := cleanedTargetName;
                          protocol.Fields := protocol.Fields series;
                          protocol.Points := [point'] |} in
      do _ <- CommitSeriesData c db newSeries;        (* an error is only logged *)
      do done <- commitEachPoint c db series targetName assignSequenceNumbers
                   sequenceMap' points';
      ret (fillTimestamp (CurrentTime (world c)) point' :: done)
  end.

Fixpoint assignAll (sequenceMap : gmap (string * Z) Z) (targetName : string)
    (points : list protocol.Point) : option (list protocol.Point) :=
  match points with
  | [] => Some []
  | point :: points' =>
      match nextSequenceNumber sequenceMap targetName point with
      | None => None
      | Some (sequenceMap', point') =>
          match assignAll sequenceMap' targetName points' with
          | None => None
          | Some done => Some (point' :: done)
          end
      end
  end.

(** [InterpolateValuesAndCommit] always returns nil; the result is the
    caller's series as the call leaves it (its points are shared with the
    committed series). *)
Definition InterpolateValuesAndCommit (c : CoordinatorImpl) (db : string)
    (series : protocol.Series) (targetName : string) (assignSequenceNumbers : bool)
  : M protocol.Series :=
  let targetName := Replace targetName ":series_name" (protocol.Name series) in
  if MatchString targetName then
    do points <- commitEachPoint c db series targetName assignSequenceNumbers ∅
                   (protocol.Points series);
    ret (withPoints series points)
  else
    do points <-
       (if assignSequenceNumbers then
          match assignAll ∅ targetName (protocol.Points series) with
          | Some points => ret points
          | None => panic
          end
        else ret (protocol.Points series));
    let newSeries := {| protocol.Name := targetName;
                        protocol.Fields := protocol.Fields series;
                        protocol.Points := points |} in
    do _ <- CommitSeriesData c db newSeries;          (* an error is only logged *)
    ret (withPoints series
           (SortPointsTimeDescending (map (fillTimestamp (CurrentTime (world c))) points))).

(** [for _, table := range fromClause.Names] for the continuous query
    number [cq] *)
Fixpoint matchTables (c : CoordinatorImpl) (cq : nat) (db : string)
    (incomingSeriesName : string) (targetName : string)
    (tables : list parser.TableName) (series : protocol.Series) : M protocol.Series :=
  match tables with
  | [] => ret series
  | table :: tables' =>
      let tableValue := parser.TName table in
      let matches :=
        match parser.CompiledRegex tableValue with
        | Some regex => regex incomingSeriesName
        | None => bool_decide (parser.Name tableValue = incomingSeriesName)
        end in
      do series' <-
         (if matches then
            exec emit (EvInterpolate cq db targetName);
            InterpolateValuesAndCommit c db series targetName false
          else ret series);
      matchTables c cq db incomingSeriesName targetName tables' series'
  end.

(** [for _, query := range ParsedContinuousQueries[db]] *)
Fixpoint eachContinuousQuery (c : CoordinatorImpl) (cq : nat) (db : string)
    (incomingSeriesName : string) (queries : list parser.SelectQuery)
    (series : protocol.Series) : M protocol.Series :=
  match queries with
  | [] => ret series
  | query :: queries' =>
      let groupByClause := parser.GetGroupByClause query in
      match parser.Elems groupByClause with
      | Some _ => eachContinuousQuery c (S cq) db incomingSeriesName queries' series
      | None =>
          let fromClause := parser.GetFromClause query in
          match parser.GetIntoClause query with
          | None => panic                            (* intoClause.Target on nil *)
          | Some intoClause =>
              let targetName := parser.Name (parser.Target intoClause) in
              do series' <- matchTables c cq db incomingSeriesName targetName
                              (parser.Names fromClause) series;
              eachContinuousQuery c (S cq) db incomingSeriesName queries' series'
          end
      end
  end.

Definition ProcessContinuousQueries (c : CoordinatorImpl) (db : string)
    (series : protocol.Series) : M protocol.Series :=
  match cluster.ParsedContinuousQueries (clusterConfiguration c) with
  | Some parsed =>
      eachContinuousQuery c 0 db (protocol.Name series)
        (default [] (parsed !! db)) series
  | None => ret series
  end.

Definition WriteSeriesData (c : CoordinatorImpl) (user : common.User) (db : string)
    (series : protocol.Series) : M (option common.error) :=
  if negb (common.HasWriteAccess user db) then
    ret (Some (common.AuthorizationError ("Insufficient permissions to write to " +:+ db)))
  else
    match protocol.Points series with
    | [] => ret (Some (common.Errorf "Can't write series with zero points."))
    | _ :: _ =>
        do '(err, series') <- CommitSeriesData c db series;
        match err with
        | Some e => ret (Some e)
        | None =>
            do _ <- ProcessContinuousQueries c db series';
            ret None
        end
    end.

(** ** Scenarios

    Concrete coordinators, shards and queries; the end-to-end scenarios of
    the specification are built from them. *)

Module Scenario.

Definition admin : common.User :=
  {| common.IsClusterAdmin := true;
     common.IsDbAdmin := fun _ => true;
     common.HasWriteAccess := fun _ => true |}.

Definition point (t : Z) : protocol.Point :=
  {| protocol.Values := [protocol.Int64Value t];
     protocol.Timestamp := Some t;
     protocol.SequenceNumber := None |}.

Definition series (name : string) (timestamps : list Z) : protocol.Series :=
  {| protocol.Name := name;
     protocol.Fields := ["value"];
     protocol.Points := map point timestamps |}.

Definition queryResponse (s : protocol.Series) : protocol.Response :=
  {| protocol.Type_ := protocol.Response_QUERY;
     protocol.RSeries := Some s;
     protocol.MultiSeries := [s];
     protocol.ErrorMessage := None |}.

Definition endStream (msg : option string) : protocol.Response :=
  {| protocol.Type_ := protocol.Response_END_STREAM;
     protocol.RSeries := None;
     protocol.MultiSeries := [];
     protocol.ErrorMessage := msg |}.

(** A shard that answers every query with [stream] and accepts every write. *)
Definition shard (id : Z) (aggregateLocally : bool) (stream : list protocol.Response)
  : cluster.ShardData :=
  {| cluster.Id := id;
     cluster.ShouldAggregateLocally := fun _ => aggregateLocally;
     cluster.Query := fun _ => stream;
     cluster.QueryResponseBufferSize := fun _ batch => batch;
     cluster.Write := fun _ => None |}.

(** A passthrough that forwards each series at once and wants more while
    it has seen fewer than [limit] points; closing sends END_STREAM. *)
Definition passthrough (limit : Z) : cluster.QueryProcessor :=
  {| cluster.pstate := Z;
     cluster.pcur := 0;
     cluster.pYieldSeries := fun seen s =>
       let seen' := seen + Z.of_nat (length (protocol.Points s)) in
       (seen', seen' <? limit, [queryResponse s]);
     cluster.pClose := fun _ => [endStream None] |}.

Definition workingEngines : engine.Factory :=
  {| engine.NewQueryEngine := fun _ => inr (passthrough (2 ^ 62));
     engine.NewPassthroughEngineWithLimit := fun _ limit => passthrough limit;
     engine.NewPassthroughEngine := fun _ => passthrough (2 ^ 62) |}.

Definition failingEngines : engine.Factory :=
  {| engine.NewQueryEngine := fun _ =>
       inl (common.QueryError common.WrongNumberOfArguments "bad aggregate");
     engine.NewPassthroughEngineWithLimit := fun _ limit => passthrough limit;
     engine.NewPassthroughEngine := fun _ => passthrough (2 ^ 62) |}.

Definition selectQuery (limit : Z) : parser.SelectQuery :=
  {| parser.Limit := limit;
     parser.Explain := false;
     parser.groupByClause :=
       {| parser.FillWithZero := false; parser.FillValue := None; parser.Elems := None |};
     parser.fromClause :=
       {| parser.Names :=
            [ {| parser.TName := {| parser.Name := "s"; parser.CompiledRegex := None |};
                 parser.Alias := "" |} ] |};
     parser.intoClause := None |}.

Definition emptyQuery (text : string) : parser.Query :=
  {| parser.QueryString := text;
     parser.SelectQuery_ := None; parser.DeleteQuery_ := None;
     parser.DropSeriesQuery_ := None; parser.DropQuery_ := None;
     parser.ListQuery_ := None |}.

Definition select (limit : Z) : parser.Query :=
  {| parser.QueryString := "select x from s";
     parser.SelectQuery_ := Some (selectQuery limit); parser.DeleteQuery_ := None;
     parser.DropSeriesQuery_ := None; parser.DropQuery_ := None;
     parser.ListQuery_ := None |}.

Definition delete : parser.Query :=
  {| parser.QueryString := "delete from s";
     parser.SelectQuery_ := None;
     parser.DeleteQuery_ := Some {| parser.DTable := "s" |};
     parser.DropSeriesQuery_ := None; parser.DropQuery_ := None;
     parser.ListQuery_ := None |}.

Definition listSeries : parser.Query :=
  {| parser.QueryString := "list series";
     parser.SelectQuery_ := None; parser.DeleteQuery_ := None;
     parser.DropSeriesQuery_ := None; parser.DropQuery_ := None;
     parser.ListQuery_ := Some parser.Series |}.

(** The parser of the scenarios knows four statements. *)
Definition parse (queryString : string) : common.error + list parser.Query :=
  if String.eqb queryString "select x from s" then inr [select 0]
  else if String.eqb queryString "select x from s limit 5" then inr [select 5]
  else if String.eqb queryString "delete from s" then inr [delete]
  else if String.eqb queryString "list series" then inr [listSeries]
  else inl (common.QueryError common.InvalidArgument "syntax error").

Definition theWorld (factory : engine.Factory) : World :=
  {| ParseQuery := parse;
     engines := factory;
     CurrentTime := 1000;
     TimeNowUnix := 1;
     GetFieldIndex := fun _ _ => 0;
     GetFieldValueAsString := fun _ _ => "v" |}.

Definition raft : ClusterConsensus :=
  {| raftCreateContinuousQuery := fun _ _ => None;
     raftDeleteContinuousQuery := fun _ _ => None |}.

(** Timestamps below 100 belong to shard 1, the others to shard 2. *)
Definition shardFor (db name : string) (t : Z) : common.error + cluster.ShardData :=
  if t <? 100 then inr (shard 1 true []) else inr (shard 2 true []).

Definition coordinator (factory : engine.Factory) (limit : Z)
    (shards : list cluster.ShardData)
    (parsed : option (gmap string (list parser.SelectQuery))) : CoordinatorImpl :=
  {| clusterConfiguration :=
       {| cluster.GetShortTermShards := shards;
          cluster.GetLongTermShards := [];
          cluster.GetShards := fun _ => shards;
          cluster.GetShardToWriteToBySeriesAndTime := shardFor;
          cluster.ParsedContinuousQueries := parsed;
          cluster.GetContinuousQueries := fun _ => [] |};
     raftServer := raft;
     config := {| configuration.ConcurrentShardQueryLimit := limit;
                  configuration.LevelDbPointBatchSize := 100 |};
     world := theWorld factory |}.

Definition sink : SeriesWriter := {| swWrite := fun _ => None |}.

Definition spec (q : parser.Query) : parser.QuerySpec := parser.NewQuerySpec admin "db" q.

(** Shards [A, B, C] of scenario S1, each with one series. *)
Definition shardA (aggregateLocally : bool) : cluster.ShardData :=
  shard 1 aggregateLocally [queryResponse (series "a" [1; 2]); endStream None].
Definition shardB (aggregateLocally : bool) (msg : option string) : cluster.ShardData :=
  shard 2 aggregateLocally [queryResponse (series "b" [3; 4; 5]); endStream msg].
Definition shardC (aggregateLocally : bool) (msg : option string) : cluster.ShardData :=
  shard 3 aggregateLocally [queryResponse (series "c" [6]); endStream msg].

(** S1: shards [A, B, C] all aggregate locally. *)
Definition localShards : list cluster.ShardData :=
  [shardA true; shardB true None; shardC true None].

Definition S1 (limit : Z) : CoordinatorImpl :=
  coordinator workingEngines limit localShards None.

(** Raw points come back from shard A; B and C end with error messages. *)
Definition rawShards : list cluster.ShardData :=
  [shardA false; shardB true (Some "boom"); shardC true (Some "bam")].

Definition S5 : CoordinatorImpl := coordinator workingEngines 2 rawShards None.

(** The engine cannot be built for the query. *)
Definition noEngine : CoordinatorImpl := coordinator failingEngines 2 rawShards None.

(** S4: two continuous queries on "db"; the first has a GROUP BY. *)
Definition continuousQuery (elems : option (list parser.Value)) (target : string)
  : parser.SelectQuery :=
  {| parser.Limit := 0;
     parser.Explain := false;
     parser.groupByClause :=
       {| parser.FillWithZero := false; parser.FillValue := None;
          parser.Elems := elems |};
     parser.fromClause :=
       {| parser.Names :=
            [ {| parser.TName := {| parser.Name := "cpu"; parser.CompiledRegex := None |};
                 parser.Alias := "" |} ] |};
     parser.intoClause :=
       Some {| parser.Target := {| parser.Name := target; parser.CompiledRegex := None |} |} |}.

Definition timeFunction : parser.Value :=
  {| parser.Name := "time"; parser.CompiledRegex := None |}.

Definition grouped : parser.SelectQuery :=
  continuousQuery (Some [timeFunction]) "hourly.:series_name".

Definition plain : parser.SelectQuery := continuousQuery None "copy.:series_name".

Definition continuousQueries : gmap string (list parser.SelectQuery) :=
  {[ "db" := [grouped; plain] ]}.

Definition S4 : CoordinatorImpl :=
  coordinator workingEngines 2 localShards (Some continuousQueries).

(** S3: a write that spans two time partitions. *)
Definition S3series : protocol.Series := series "cpu" [1; 2; 300].

End Scenario.

(** ** What a trace shows *)

(** How many times the sink's [Close()] ran. *)
Fixpoint closes (t : list Event) : nat :=
  match t with
  | [] => 0%nat
  | EvSinkClose :: t' => S (closes t')
  | _ :: t' => closes t'
  end.

Definition isShardQuery (e : Event) : bool :=
  match e with EvShardQuery _ _ => true | _ => false end.

Definition isTerminalRead (e : Event) : bool :=
  match e with EvTerminal _ _ => true | _ => false end.


(** Shard queries started and not yet read to their terminal response. *)
Fixpoint running (t : list Event) : Z :=
  match t with
  | [] => 0
  | EvShardQuery _ _ :: t' => running t' + 1
  | EvTerminal _ _ :: t' => running t' - 1
  | _ :: t' => running t'
  end.

(** The error message of the first terminal response that carries one. *)
Fixpoint firstErrorMessage (t : list Event) : option string :=
  match t with
  | [] => None
  | EvTerminal _ (Some msg) :: _ => Some msg
  | _ :: t' => firstErrorMessage t'
  end.

(** The points of the write requests handed to shards, in order. *)
Fixpoint writtenPoints (t : list Event) : list protocol.Point :=
  match t with
  | [] => []
  | EvShardWrite _ req :: t' => protocol.Points (protocol.ReqSeries req) ++ writtenPoints t'
  | _ :: t' => writtenPoints t'
  end.

(** The continuous queries (by position) that were interpolated and committed. *)
Fixpoint interpolated (t : list Event) : list nat :=
  match t with
  | [] => []
  | EvInterpolate cq _ _ :: t' => cq :: interpolated t'
  | _ :: t' => interpolated t'
  end.

(** ** Properties of traces and of loop states *)

(** Every event of a trace satisfies [P], however the computation ends. *)
Definition always {A} (P : Event -> Prop) (m : M A) : Prop := Forall P (trace m).

Definition isShardWrite (e : Event) : Prop :=
  match e with EvShardWrite _ _ => True | _ => False end.

(** The positions of the interpolated queries all satisfy [ok]. *)
Definition interpolates (ok : nat -> Prop) (e : Event) : Prop :=
  match e with EvInterpolate cq _ _ => ok cq | _ => True end.

(** Events that neither start a shard query nor end one. *)
Definition quiet (e : Event) : Prop :=
  match e with EvShardQuery _ _ | EvTerminal _ _ => False | _ => True end.

Definition b2n (b : bool) : nat := if b then 1%nat else 0%nat.

Definition orElse (e1 e2 : option common.error) : option common.error :=
  match e1 with Some e => Some e | None => e2 end.

Definition invalidArgument (msg : option string) : option common.error :=
  match msg with
  | Some m => Some (common.QueryError common.InvalidArgument m)
  | None => None
  end.

Definition hasProcessor (st : FanOut) : bool :=
  match processor st with Some _ => true | None => false end.

(** What one loop of [runQuerySpec] that returned has done to the state. *)
Record steps (st : FanOut) (t : list Event) (st' : FanOut) : Prop := {
  steps_processor : hasProcessor st' = hasProcessor st;
  steps_closes : (closes t + b2n (seriesClosed st))%nat = b2n (seriesClosed st');
  steps_idle : hasProcessor st = false -> seriesClosed st' = seriesClosed st;
  steps_err : err st' = orElse (err st) (invalidArgument (firstErrorMessage t))
}.






(** Starting with [cur] queries running, no prefix of [t] has more than [k]. *)
Definition bounded (k cur : Z) (t : list Event) : Prop :=
  forall n, cur + running (take n t) <= k.





(** ** More of what a trace shows *)

(** The shards whose terminal response was read, in the order of reading. *)
Fixpoint terminalsRead (t : list Event) : list Z :=
  match t with
  | [] => []
  | EvTerminal i _ :: t' => i :: terminalsRead t'
  | _ :: t' => terminalsRead t'
  end.

(** The ids of the shards that were queried, in the order of starting. *)
Fixpoint queriedShards (t : list Event) : list Z :=
  match t with
  | [] => []
  | EvShardQuery _ id :: t' => id :: queriedShards t'
  | _ :: t' => queriedShards t'
  end.

(** The names of the series written to the sink, in order. *)
Fixpoint sinkNames (t : list Event) : list string :=
  match t with
  | [] => []
  | EvSinkWrite s :: t' => protocol.Name s :: sinkNames t'
  | _ :: t' => sinkNames t'
  end.

(** A series handed to the sink or to the processor has points. *)
Definition carriesPoints (e : Event) : Prop :=
  match e with
  | EvSinkWrite s | EvYieldSeries s _ => protocol.Points s <> []
  | _ => True
  end.

(** The write requests handed to shards: the shard and the points of each. *)
Fixpoint requests (t : list Event) : list (Z * list protocol.Point) :=
  match t with
  | [] => []
  | EvShardWrite id req :: t' =>
      (id, protocol.Points (protocol.ReqSeries req)) :: requests t'
  | _ :: t' => requests t'
  end.

(** The continuous query with this id is dropped by one of the
    statements: the id is that of a DROP CONTINUOUS QUERY statement,
    converted to uint32. *)
Definition droppedBy (statements : list parser.Query) (id : Z) : Prop :=
  exists query dropQuery,
    query ∈ statements
    /\ parser.DropQuery_ query = Some dropQuery
    /\ id = uint32 (parser.Id dropQuery).

(** What a RunQuery call may do before recoverFunc when it runs
    [statements]: query shards, feed the processor and the sink, and, for an
    administrator of the database, ask consensus to create a continuous query
    from the whole query string or to delete the one that a statement
    drops. *)
Definition statementEvent (statements : list parser.Query) (user : common.User)
    (database queryString : string) (e : Event) : Prop :=
  match e with
  | EvShardQuery _ _ | EvTerminal _ _ | EvYieldSeries _ _ | EvProcessorClose
  | EvSinkWrite _ | EvSinkClose => True
  | EvRaftCreateContinuousQuery db q =>
      db = database /\ q = queryString
      /\ (common.IsClusterAdmin user || common.IsDbAdmin user database = true)
  | EvRaftDeleteContinuousQuery db id =>
      db = database /\ droppedBy statements id
      /\ (common.IsClusterAdmin user || common.IsDbAdmin user database = true)
  | EvShardWrite _ _ | EvInterpolate _ _ _ | EvRecovered => False
  end.

(** The statements of the query string, none when it does not parse. *)
Definition parsed (c : CoordinatorImpl) (queryString : string) : list parser.Query :=
  match ParseQuery (world c) queryString with
  | inr q => q
  | inl _ => []
  end.

Definition isConsensusCall (e : Event) : bool :=
  match e with
  | EvRaftCreateContinuousQuery _ _ | EvRaftDeleteContinuousQuery _ _ => true
  | _ => false
  end.

(** More scenarios. *)
Module Fixture.

(** A parser that hands back a statement none of whose parts is set. *)
Definition brokenParser : World :=
  {| ParseQuery := fun text => inr [Scenario.emptyQuery text];
     engines := Scenario.workingEngines;
     CurrentTime := 1000;
     TimeNowUnix := 1;
     GetFieldIndex := fun _ _ => 0;
     GetFieldValueAsString := fun _ _ => "v" |}.

Definition broken : CoordinatorImpl :=
  {| clusterConfiguration := clusterConfiguration (Scenario.S1 2);
     raftServer := Scenario.raft;
     config := config (Scenario.S1 2);
     world := brokenParser |}.

Definition dropQuery (id : Z) : parser.Query :=
  {| parser.QueryString := "drop continuous query";
     parser.SelectQuery_ := None; parser.DeleteQuery_ := None;
     parser.DropSeriesQuery_ := None;
     parser.DropQuery_ := Some {| parser.Id := id |};
     parser.ListQuery_ := None |}.

(** A parser for "drop continuous query 4294967297". *)
Definition dropParser : World :=
  {| ParseQuery := fun text => inr [dropQuery 4294967297];
     engines := Scenario.workingEngines;
     CurrentTime := 1000;
     TimeNowUnix := 1;
     GetFieldIndex := fun _ _ => 0;
     GetFieldValueAsString := fun _ _ => "v" |}.

Definition dropping : CoordinatorImpl :=
  {| clusterConfiguration := clusterConfiguration (Scenario.S1 2);
     raftServer := Scenario.raft;
     config := config (Scenario.S1 2);
     world := dropParser |}.

(** A user without any privilege. *)
Definition guest : common.User :=
  {| common.IsClusterAdmin := false;
     common.IsDbAdmin := fun _ => false;
     common.HasWriteAccess := fun _ => false |}.

End Fixture.

(** The events of querying shards and feeding the processor and the sink. *)
Definition isQueryEvent (e : Event) : Prop :=
  match e with
  | EvShardQuery _ _ | EvTerminal _ _ | EvYieldSeries _ _ | EvProcessorClose
  | EvSinkWrite _ | EvSinkClose => True
  | _ => False
  end.

Definition notSinkClose (e : Event) : Prop :=
  match e with EvSinkClose => False | _ => True end.

(** ** Properties of the requests of a write *)

(** The catalog gives, for the time [t], a shard with the id [id]. *)
Definition catalogShard (c : CoordinatorImpl) (db name : string) (id : Z) (t : Z) : Prop :=
  exists shard,
    cluster.GetShardToWriteToBySeriesAndTime (clusterConfiguration c) db name t = inr shard
    /\ cluster.Id shard = id.

(** Every point of the request whose timestamp is not 0 is on the shard
    the catalog gives for its timestamp. *)
Definition wellRouted (c : CoordinatorImpl) (db name : string)
    (request : Z * list protocol.Point) : Prop :=
  Forall (fun p => GetTimestamp p <> 0 -> catalogShard c db name request.1 (GetTimestamp p))
    request.2.

(** Each run of points is strictly later in time than all the runs after it. *)
Fixpoint separated (runs : list (list protocol.Point)) : Prop :=
  match runs with
  | [] => True
  | run :: runs' =>
      (forall p q, p ∈ run -> q ∈ concat runs' -> GetTimestamp q < GetTimestamp p)
      /\ separated runs'
  end.

Fixpoint descendingTime (points : list protocol.Point) : Prop :=
  match points with
  | [] => True
  | p :: points' =>
      Forall (fun q => GetTimestamp q <= GetTimestamp p) points' /\ descendingTime points'
  end.

(** What the sweep of [CommitSeriesData] keeps true, on reaching index [i]. *)
Record sweeping (c : CoordinatorImpl) (db name : string) (points : list protocol.Point)
    (i : nat) (st : Sweep) : Prop := {
  sweeping_start : (lastPointIndex st <= i)%nat;
  sweeping_time :
    forall p, (0 < i)%nat -> points !! (i - 1)%nat = Some p -> lastTime st = GetTimestamp p;
  sweeping_shard :
    match shardToWrite st with
    | Some current =>
        (lastPointIndex st < i)%nat
        /\ catalogShard c db name (cluster.Id current) (lastTime st)
        /\ wellRouted c db name
             (cluster.Id current, slice points (lastPointIndex st) i)
    | None =>
        lastPointIndex st = 0%nat /\ lastTime st = 0
        /\ Forall (fun p => GetTimestamp p = 0) (take i points)
    end
}.

(** ** Names *)

Fixpoint allChars (ok : ascii -> bool) (s : string) : bool :=
  match s with
  | EmptyString => true
  | String r s' => ok r && allChars ok s'
  end.

(** The classes of [VALID_NAMES], ^[a-zA-Z0-9_][a-zA-Z0-9\._-]*$ *)
Definition isNameStart (r : ascii) : bool :=
  inRange "a"%char "z"%char r || inRange "A"%char "Z"%char r
  || inRange "0"%char "9"%char r || Ascii.eqb r "_"%char.

Definition isNameChar (r : ascii) : bool :=
  inRange "a"%char "z"%char r || inRange "A"%char "Z"%char r
  || inRange "0"%char "9"%char r
  || Ascii.eqb r "."%char || Ascii.eqb r "_"%char || Ascii.eqb r "-"%char.

(** [isValidName]: [VALID_NAMES.MatchString(name)]; the expression is
    anchored at both ends, so it matches the whole name or nothing. *)
Definition isValidName (name : string) : bool :=
  match name with
  | EmptyString => false
  | String r rest => isNameStart r && allChars isNameChar rest
  end.

(** ** src/parser/group_by.go *)

(** What [GetGroupByTime] asks of a [*Value] beyond its name, and
    [time.ParseDuration] (the duration in nanoseconds). *)
Record ValueMethods := {
  IsFunctionCall : parser.Value -> bool;
  ValueElems : parser.Value -> list parser.Value;
  ParseDuration : string -> common.error + Z
}.

(** [for _, groupBy := range self.Elems] of [GetGroupByTime] *)
Fixpoint groupByTime (vm : ValueMethods) (elems : list parser.Value)
  : common.error + option Z :=
  match elems with
  | [] => inr None
  | groupBy :: elems' =>
      if IsFunctionCall vm groupBy then
        match ValueElems vm groupBy with
        | [argument] =>
            let arg := parser.Name argument in
            match ParseDuration vm arg with
            | inl _ =>
                inl (common.QueryError common.InvalidArgument
                       ("invalid argument " +:+ arg +:+ " to the time function"))
            | inr duration => inr (Some duration)
            end
        | _ =>
            inl (common.QueryError common.WrongNumberOfArguments
                   "time function only accepts one argument")
        end
      else groupByTime vm elems'
  end.

Definition GetGroupByTime (vm : ValueMethods) (self : parser.GroupByClause)
  : common.error + option Z :=
  groupByTime vm (default [] (parser.Elems self)).

Module Fixture2.

Definition placeholderQuery : parser.SelectQuery :=
  Scenario.continuousQuery None "events.[host]".

Definition call (name : string) : parser.Value :=
  {| parser.Name := name; parser.CompiledRegex := None |}.

(** Values named "time" are function calls with the one argument "1h",
    values named "count" are function calls without arguments. *)
Definition values : ValueMethods :=
  {| IsFunctionCall := fun v => String.eqb (parser.Name v) "time"
                                || String.eqb (parser.Name v) "count";
     ValueElems := fun v => if String.eqb (parser.Name v) "time" then [call "1h"] else [];
     ParseDuration := fun s =>
       if String.eqb s "1h" then inr 3600000000000
       else inl (common.Errorf "time: invalid duration") |}.

End Fixture2.

(** ** Administration *)

Module admin.

(** cluster.CommonUser, cluster.ClusterAdmin, cluster.Matcher, cluster.DbUser *)
Record CommonUser := {
  Name : string;
  Hash : string;
  IsUserDeleted : bool;
  CacheKey : string
}.

Record ClusterAdmin := { AdminUser : CommonUser }.

Record Matcher := { IsRegex : bool; Pattern : string }.

Record DbUser := {
  User : CommonUser;
  Db : string;
  WriteTo : list Matcher;
  ReadFrom : list Matcher;
  IsAdmin : bool
}.

(** The methods of the cluster configuration that the administrative
    operations call. *)
Record Catalog := {
  CreateCheckpoint : option common.error;
  GetAllShards : list cluster.ShardData;
  GetClusterAdmin : string -> option ClusterAdmin;
  GetDbUser : string -> string -> option DbUser
}.

(** The methods of the consensus server that they call.  [IsRaftServer]
    says that the server is a [*RaftServer], which the type assertions of
    the log lines need. *)
Record Consensus := {
  CreateDatabase : string -> Z -> option common.error;
  DropDatabase : string -> option common.error;
  SaveClusterAdminUser : ClusterAdmin -> option common.error;
  SaveDbUser : DbUser -> option common.error;
  IsRaftServer : bool
}.

Record Coordinator := {
  catalog : Catalog;
  consensus : Consensus;
  HashPassword : string -> common.error + string       (* cluster.HashPassword *)
}.

(** The calls of the administrative operations on their collaborators. *)
Inductive Call :=
| RaftCreateDatabase (db : string) (replicationFactor : Z)
| Checkpoint
| RaftDropDatabase (db : string)
| ShardDropDatabase (shardId : Z) (db : string) (force : bool)
| RaftSaveClusterAdminUser (user : ClusterAdmin)
| RaftSaveDbUser (user : DbUser).

End admin.

Definition CreateDatabase (a : admin.Coordinator) (user : common.User) (db : string)
    (replicationFactor : Z) : list admin.Call * option common.error :=
  if negb (common.IsClusterAdmin user) then
    ([], Some (common.AuthorizationError "Insufficient permissions to create database"))
  else if negb (isValidName db) then
    ([], Some (common.Errorf (db +:+ " isn't a valid db name")))
  else
    ([admin.RaftCreateDatabase db replicationFactor],
     admin.CreateDatabase (admin.consensus a) db replicationFactor).

(** The shards drop the database in goroutines of their own and DropDatabase
    waits for all of them; the calls are listed in the order of the catalog. *)
Definition DropDatabase (a : admin.Coordinator) (user : common.User) (db : string)
  : list admin.Call * option common.error :=
  if negb (common.IsClusterAdmin user) then
    ([], Some (common.AuthorizationError "Insufficient permissions to drop database"))
  else
    match admin.CreateCheckpoint (admin.catalog a) with
    | Some e => ([admin.Checkpoint], Some e)
    | None =>
        match admin.DropDatabase (admin.consensus a) db with
        | Some e => ([admin.Checkpoint; admin.RaftDropDatabase db], Some e)
        | None =>
            (admin.Checkpoint :: admin.RaftDropDatabase db
             :: map (fun shard => admin.ShardDropDatabase (cluster.Id shard) db true)
                  (admin.GetAllShards (admin.catalog a)),
             None)
        end
    end.

Definition withDeleted (user : admin.CommonUser) : admin.CommonUser :=
  {| admin.Name := admin.Name user; admin.Hash := admin.Hash user;
     admin.IsUserDeleted := true; admin.CacheKey := admin.CacheKey user |}.

Definition CreateClusterAdminUser (a : admin.Coordinator) (requester : common.User)
    (username password : string) : list admin.Call * option common.error :=
  if negb (common.IsClusterAdmin requester) then
    ([], Some (common.AuthorizationError "Insufficient permissions"))
  else if negb (isValidName username) then
    ([], Some (common.Errorf (username +:+ " isn't a valid username")))
  else
    match admin.HashPassword a password with
    | inl e => ([], Some e)
    | inr hash =>
        match admin.GetClusterAdmin (admin.catalog a) username with
        | Some _ => ([], Some (common.Errorf ("User " +:+ username +:+ " already exists")))
        | None =>
            let user :=
              {| admin.AdminUser :=
                   {| admin.Name := username; admin.Hash := hash;
                      admin.IsUserDeleted := false; admin.CacheKey := username |} |} in
            ([admin.RaftSaveClusterAdminUser user],
             admin.SaveClusterAdminUser (admin.consensus a) user)
        end
    end.

Definition DeleteClusterAdminUser (a : admin.Coordinator) (requester : common.User)
    (username : string) : list admin.Call * option common.error :=
  if negb (common.IsClusterAdmin requester) then
    ([], Some (common.AuthorizationError "Insufficient permissions"))
  else
    match admin.GetClusterAdmin (admin.catalog a) username with
    | None => ([], Some (common.Errorf ("User " +:+ username +:+ " doesn't exists")))
    | Some user =>
        let user' := {| admin.AdminUser := withDeleted (admin.AdminUser user) |} in
        ([admin.RaftSaveClusterAdminUser user'],
         admin.SaveClusterAdminUser (admin.consensus a) user')
    end.

(** [CreateDbUser]; [Panic] when the log line asserts a consensus server
    that is not a [*RaftServer]. *)
Definition CreateDbUser (a : admin.Coordinator) (requester : common.User)
    (db username password : string) : list admin.Call * Res (option common.error) :=
  if negb (common.IsClusterAdmin requester) && negb (common.IsDbAdmin requester db) then
    ([], Done (Some (common.AuthorizationError "Insufficient permissions")))
  else if String.eqb username "" then
    ([], Done (Some (common.Errorf "Username cannot be empty")))
  else if negb (isValidName username) then
    ([], Done (Some (common.Errorf (username +:+ " isn't a valid username"))))
  else
    match admin.HashPassword a password with
    | inl e => ([], Done (Some e))
    | inr hash =>
        (* ignore the error since the db may exist *)
        let created := (CreateDatabase a requester db 1).1 in
        match admin.GetDbUser (admin.catalog a) db username with
        | Some _ =>
            (created, Done (Some (common.Errorf ("User " +:+ username +:+ " already exists"))))
        | None =>
            if negb (admin.IsRaftServer (admin.consensus a)) then (created, Panic)
            else
              let matchers := [ {| admin.IsRegex := true; admin.Pattern := ".*" |} ] in
              let user :=
                {| admin.User :=
                     {| admin.Name := username; admin.Hash := hash;
                        admin.IsUserDeleted := false;
                        admin.CacheKey := db +:+ "%" +:+ username |};
                   admin.Db := db;
                   admin.WriteTo := matchers;
                   admin.ReadFrom := matchers;
                   admin.IsAdmin := false |} in
              (created ++ [admin.RaftSaveDbUser user],
               Done (admin.SaveDbUser (admin.consensus a) user))
        end
    end.

Definition DeleteDbUser (a : admin.Coordinator) (requester : common.User)
    (db username : string) : list admin.Call * option common.error :=
  if negb (common.IsClusterAdmin requester) && negb (common.IsDbAdmin requester db) then
    ([], Some (common.AuthorizationError "Insufficient permissions"))
  else
    match admin.GetDbUser (admin.catalog a) db username with
    | None => ([], Some (common.Errorf ("User " +:+ username +:+ " doesn't exist")))
    | Some user =>
        let user' :=
          {| admin.User := withDeleted (admin.User user);
             admin.Db := admin.Db user;
             admin.WriteTo := admin.WriteTo user;
             admin.ReadFrom := admin.ReadFrom user;
             admin.IsAdmin := admin.IsAdmin user |} in
        ([admin.RaftSaveDbUser user'], admin.SaveDbUser (admin.consensus a) user')
    end.

Definition SetDbAdmin (a : admin.Coordinator) (requester : common.User)
    (db username : string) (isAdmin : bool) : list admin.Call * option common.error :=
  if negb (common.IsClusterAdmin requester) && negb (common.IsDbAdmin requester db) then
    ([], Some (common.AuthorizationError "Insufficient permissions"))
  else
    match admin.GetDbUser (admin.catalog a) db username with
    | None => ([], Some (common.Errorf ("Invalid username " +:+ username)))
    | Some user =>
        let user' :=
          {| admin.User := admin.User user;
             admin.Db := admin.Db user;
             admin.WriteTo := admin.WriteTo user;
             admin.ReadFrom := admin.ReadFrom user;
             admin.IsAdmin := isAdmin |} in
        (* the result of SaveDbUser is dropped *)
        ([admin.RaftSaveDbUser user'], None)
    end.

Module Office.

Definition shards : list cluster.ShardData :=
  [Scenario.shard 1 true []; Scenario.shard 2 true []; Scenario.shard 3 true []].

Definition paul : admin.DbUser :=
  {| admin.User := {| admin.Name := "paul"; admin.Hash := "h(secret)";
                      admin.IsUserDeleted := false; admin.CacheKey := "db%paul" |};
     admin.Db := "db";
     admin.WriteTo := [ {| admin.IsRegex := true; admin.Pattern := ".*" |} ];
     admin.ReadFrom := [ {| admin.IsRegex := true; admin.Pattern := ".*" |} ];
     admin.IsAdmin := false |}.

(** Consensus fails every save. *)
Definition failing : admin.Consensus :=
  {| admin.CreateDatabase := fun _ _ => None;
     admin.DropDatabase := fun _ => None;
     admin.SaveClusterAdminUser := fun _ => Some (common.Errorf "no leader");
     admin.SaveDbUser := fun _ => Some (common.Errorf "no leader");
     admin.IsRaftServer := true |}.

Definition working : admin.Consensus :=
  {| admin.CreateDatabase := fun _ _ => None;
     admin.DropDatabase := fun _ => None;
     admin.SaveClusterAdminUser := fun _ => None;
     admin.SaveDbUser := fun _ => None;
     admin.IsRaftServer := true |}.

Definition catalog : admin.Catalog :=
  {| admin.CreateCheckpoint := None;
     admin.GetAllShards := shards;
     admin.GetClusterAdmin := fun _ => None;
     admin.GetDbUser := fun db name =>
       if String.eqb db "db" && String.eqb name "paul" then Some paul else None |}.

Definition coordinator (consensus : admin.Consensus) : admin.Coordinator :=
  {| admin.catalog := catalog;
     admin.consensus := consensus;
     admin.HashPassword := fun password => inr ("h(" +:+ password +:+ ")") |}.

(** An admin of the database "db" who is not a cluster admin. *)
Definition dbAdmin : common.User :=
  {| common.IsClusterAdmin := false;
     common.IsDbAdmin := fun db => String.eqb db "db";
     common.HasWriteAccess := fun _ => true |}.

End Office.

(** An operation was refused for want of permission, before any call. *)
Definition refused (r : list admin.Call * option common.error) : Prop :=
  r.1 = [] /\ exists msg, r.2 = Some (common.AuthorizationError msg).

Definition isShardDrop (c : admin.Call) : bool :=
  match c with admin.ShardDropDatabase _ _ _ => true | _ => false end.

(** ** The statements of a query and the sink *)

(** getShardsAndProcessor succeeds for the query spec. *)
Definition planned (c : CoordinatorImpl) (querySpec : parser.QuerySpec) : bool :=
  match getShardsAndProcessor c querySpec with
  | inr _ => true
  | inl _ => false
  end.

(** The statements whose run reaches a Close of the sink: LIST SERIES, at
    the end of runListSeriesQuery, and the statements that get past
    getShardsAndProcessor in runQuerySpec, which are a DELETE or a DROP SERIES
    that the user may run and a SELECT that is not a continuous query. *)
Definition closesSink (c : CoordinatorImpl) (user : common.User) (database : string)
    (query : parser.Query) : bool :=
  let querySpec := parser.NewQuerySpec user database query in
  match parser.DeleteQuery_ query, parser.DropQuery_ query with
  | Some _, _ =>
      common.IsDbAdmin user database
      && planned c (parser.setRunAgainstAllServersInShard querySpec)
  | None, Some _ => false
  | None, None =>
      if parser.IsListQuery query then parser.IsListSeriesQuery query
      else
        match parser.DropSeriesQuery_ query, parser.SelectQuery_ query with
        | Some dropSeriesQuery, _ =>
            (common.IsClusterAdmin user || common.IsDbAdmin user database
             || common.HasWriteAccess user (parser.GetTableName dropSeriesQuery))
            && planned c (parser.setRunAgainstAllServersInShard querySpec)
        | None, Some selectQuery =>
            negb (parser.IsContinuousQuery selectQuery) && planned c querySpec
        | None, None => false
        end
  end.

(** The statements that the loop of RunQuery runs, which are those up to
    the first one that makes RunQuery return, and whether the loop runs past
    the last statement. *)
Fixpoint statementsRun (c : CoordinatorImpl) (user : common.User) (database : string)
    (queryString : string) (seriesWriter : SeriesWriter) (q : list parser.Query)
  : list parser.Query * bool :=
  match q with
  | [] => ([], true)
  | query :: q' =>
      match result (runStatement c user database queryString seriesWriter query) with
      | Done Continue =>
          let '(ran, past) := statementsRun c user database queryString seriesWriter q' in
          (query :: ran, past)
      | _ => ([query], false)
      end
  end.

Module Statements.

Definition listContinuousQueries : parser.Query :=
  {| parser.QueryString := "list continuous queries";
     parser.SelectQuery_ := None; parser.DeleteQuery_ := None;
     parser.DropSeriesQuery_ := None; parser.DropQuery_ := None;
     parser.ListQuery_ := Some parser.ContinuousQueries |}.

(** A continuous query: a SELECT with an INTO clause. *)
Definition selectInto : parser.Query :=
  {| parser.QueryString := "select x from cpu into copy.:series_name";
     parser.SelectQuery_ := Some Scenario.plain; parser.DeleteQuery_ := None;
     parser.DropSeriesQuery_ := None; parser.DropQuery_ := None;
     parser.ListQuery_ := None |}.

(** A shard that gives a negative size for the buffer of its response
    channel. *)
Definition cramped : cluster.ShardData :=
  {| cluster.Id := 9;
     cluster.ShouldAggregateLocally := fun _ => true;
     cluster.Query := fun _ => [Scenario.endStream None];
     cluster.QueryResponseBufferSize := fun _ _ => -1;
     cluster.Write := fun _ => None |}.

(** A coordinator over [shards] whose parser reads every query string as
    the statements [q]. *)
Definition serving (q : list parser.Query) (shards : list cluster.ShardData)
  : CoordinatorImpl :=
  {| clusterConfiguration :=
       clusterConfiguration (Scenario.coordinator Scenario.workingEngines 2 shards None);
     raftServer := Scenario.raft;
     config := config (Scenario.S1 2);
     world := {| ParseQuery := fun _ => inr q;
                 engines := Scenario.workingEngines;
                 CurrentTime := 1000;
                 TimeNowUnix := 1;
                 GetFieldIndex := fun _ _ => 0;
                 GetFieldValueAsString := fun _ _ => "v" |} |}.

End Statements.

(** ** The monad *)

Lemma bind_ret_l {A B} (a : A) (f : A -> M B) : bind (ret a) f = f a.
Proof. unfold bind, ret. destruct (f a). reflexivity. Qed.

Lemma bind_emit {B} (e : Event) (f : unit -> M B) :
  bind (emit e) f = (e :: trace (f tt), result (f tt)).
Proof. unfold bind, emit. destruct (f tt). reflexivity. Qed.

Lemma bind_Done_inv {A B} (m : M A) (f : A -> M B) t b :
  bind m f = (t, Done b) ->
  exists t1 a t2, m = (t1, Done a) /\ f a = (t2, Done b) /\ t = t1 ++ t2.
Proof.
  unfold bind. destruct m as [t1 [a| |]]; try discriminate.
  destruct (f a) as [t2 r] eqn:Hf. intros [= <- ->]. eauto 6.
Qed.

Lemma bind_makeChan {B} size (f : unit -> M B) :
  bind (makeChan size) f = if size <? 0 then panic else f tt.
Proof. unfold makeChan. destruct (size <? 0); [reflexivity | apply bind_ret_l]. Qed.

Lemma ret_Done_inv {A} (a b : A) t : ret a = (t, Done b) -> t = [] /\ a = b.
Proof. unfold ret. intros [= <- <-]. auto. Qed.

Lemma emit_Done_inv e t u : emit e = (t, Done u) -> t = [e].
Proof. unfold emit. intros [= <- _]. auto. Qed.

(** Take a returning computation apart, bind by bind. *)
Ltac inv_bind H :=
  let t1 := fresh "t" in
  let x := fresh "x" in
  let t2 := fresh "t" in
  let H1 := fresh H in
  apply bind_Done_inv in H as (t1 & x & t2 & H1 & H & ->).

Tactic Notation "bind_inv" hyp(H) "as" ident(Hm) simple_intropattern(x) :=
  let t1 := fresh "t" in
  let t2 := fresh "t" in
  apply bind_Done_inv in H as (t1 & x & t2 & Hm & H & ->).

Ltac inv_ret H := apply ret_Done_inv in H as [-> H]; simplify_eq.
Ltac inv_emit H := apply emit_Done_inv in H as ->.

Lemma trace_bind {A B} (m : M A) (f : A -> M B) :
  trace (bind m f) =
  trace m ++ match result m with Done a => trace (f a) | _ => [] end.
Proof.
  unfold bind. destruct m as [t [a| |]]; simpl; try (rewrite app_nil_r; reflexivity).
  destruct (f a); reflexivity.
Qed.

Lemma result_bind {A B} (m : M A) (f : A -> M B) :
  result (bind m f) =
  match result m with Done a => result (f a) | Panic => Panic | Blocked => Blocked end.
Proof.
  unfold bind. destruct m as [t [a| |]]; simpl; try reflexivity.
  destruct (f a); reflexivity.
Qed.

Lemma closes_app t1 t2 : closes (t1 ++ t2) = (closes t1 + closes t2)%nat.
Proof. induction t1 as [|[] t1 IH]; simpl; lia. Qed.

Lemma running_app t1 t2 : running (t1 ++ t2) = running t1 + running t2.
Proof. induction t1 as [|[] t1 IH]; simpl; lia. Qed.

Lemma firstErrorMessage_app t1 t2 :
  firstErrorMessage (t1 ++ t2) =
  match firstErrorMessage t1 with Some m => Some m | None => firstErrorMessage t2 end.
Proof. induction t1 as [|[ | ? [?|] | | | | | | | | | ] t1 IH]; simpl; auto. Qed.

Lemma writtenPoints_app t1 t2 : writtenPoints (t1 ++ t2) = writtenPoints t1 ++ writtenPoints t2.
Proof. induction t1 as [|[] t1 IH]; simpl; rewrite ?IH, ?app_assoc; auto. Qed.

Lemma interpolated_app t1 t2 : interpolated (t1 ++ t2) = interpolated t1 ++ interpolated t2.
Proof. induction t1 as [|[] t1 IH]; simpl; rewrite ?IH; auto. Qed.


(** ** The aggregation planner *)

Lemma shouldAggregateLocally_Forall shards querySpec :
  shouldAggregateLocally shards querySpec = true <->
  Forall (fun s => cluster.ShouldAggregateLocally s querySpec = true) shards.
Proof.
  induction shards as [|s shards IH]; simpl.
  - split; auto.
  - destruct (cluster.ShouldAggregateLocally s querySpec) eqn:E; simpl.
    + rewrite IH. split; [intros; constructor; auto | inversion 1; auto].
    + split; [discriminate | inversion 1; congruence].
Qed.


(** The planner gives the shards of the catalog whenever it succeeds. *)
Lemma getShardsAndProcessor_shards c querySpec shards processor0 :
  getShardsAndProcessor c querySpec = inr (shards, processor0) ->
  shards = cluster.GetShards (clusterConfiguration c) querySpec.
Proof.
  unfold getShardsAndProcessor.
  repeat match goal with
         | |- context [match ?x with _ => _ end] => destruct x
         end; congruence.
Qed.

(** C2, as stated, fails.  In scenario S1 every shard aggregates locally,
    and a SELECT with LIMIT 5 still gets a processor. *)
Lemma getShardsAndProcessor_limit_counterexample :
  Forall (fun s => cluster.ShouldAggregateLocally s (Scenario.spec (Scenario.select 5)) = true)
    (cluster.GetShards (clusterConfiguration (Scenario.S1 2)) (Scenario.spec (Scenario.select 5)))
  /\ getShardsAndProcessor (Scenario.S1 2) (Scenario.spec (Scenario.select 5))
     = inr (Scenario.localShards, Some (Scenario.passthrough 5)).
Proof. split; [repeat constructor | reflexivity]. Qed.

(** C2, amended.  When every selected shard reports
    ShouldAggregateLocally(spec) == true, getShardsAndProcessor returns a
    nil processor unless the query is a SELECT with a positive LIMIT; for
    such a SELECT it returns the limit-aware passthrough with batch 100. *)
Theorem getShardsAndProcessor_local_aggregation c querySpec :
  Forall (fun s => cluster.ShouldAggregateLocally s querySpec = true)
    (cluster.GetShards (clusterConfiguration c) querySpec) ->
  getShardsAndProcessor c querySpec =
  inr (cluster.GetShards (clusterConfiguration c) querySpec,
       match parser.SelectQuery_of querySpec with
       | Some selectQuery =>
           if 0 <? parser.Limit selectQuery
           then Some (engine.NewPassthroughEngineWithLimit (engines (world c)) 100
                        (parser.Limit selectQuery))
           else None
       | None => None
       end).
Proof.
  intros Hall. apply shouldAggregateLocally_Forall in Hall.
  unfold getShardsAndProcessor. rewrite Hall. simpl.
  destruct (parser.SelectQuery_of querySpec) as [q|]; [|reflexivity].
  destruct (0 <? parser.Limit q); reflexivity.
Qed.

Lemma getShardsAndProcessor_local_aggregation_witness :
  Forall (fun s => cluster.ShouldAggregateLocally s (Scenario.spec (Scenario.select 0)) = true)
    (cluster.GetShards (clusterConfiguration (Scenario.S1 2)) (Scenario.spec (Scenario.select 0)))
  /\ getShardsAndProcessor (Scenario.S1 2) (Scenario.spec (Scenario.select 0))
     = inr (Scenario.localShards, None).
Proof.
  split; [repeat constructor |].
  apply (getShardsAndProcessor_local_aggregation (Scenario.S1 2)
           (Scenario.spec (Scenario.select 0))).
  repeat constructor.
Defined.

(** C6, as stated, fails.  A DELETE, with the spec as runDeleteQuery
    hands it to runQuerySpec, over shards of which one does not aggregate
    locally gets the plain passthrough. *)
Lemma getShardsAndProcessor_delete_counterexample :
  parser.SelectQuery_of
    (parser.setRunAgainstAllServersInShard (Scenario.spec Scenario.delete)) = None
  /\ getShardsAndProcessor Scenario.S5
       (parser.setRunAgainstAllServersInShard (Scenario.spec Scenario.delete))
     = inr (Scenario.rawShards, Some (Scenario.passthrough (2 ^ 62))).
Proof. split; reflexivity. Qed.

(** C6, amended.  For a query spec that is not a SELECT,
    getShardsAndProcessor returns a nil processor exactly when every
    selected shard aggregates locally; when some shard does not, it returns
    the plain passthrough engine with batch 100. *)
Theorem getShardsAndProcessor_not_select c querySpec :
  parser.SelectQuery_of querySpec = None ->
  getShardsAndProcessor c querySpec =
  inr (cluster.GetShards (clusterConfiguration c) querySpec,
       if shouldAggregateLocally (cluster.GetShards (clusterConfiguration c) querySpec) querySpec
       then None
       else Some (engine.NewPassthroughEngine (engines (world c)) 100)).
Proof.
  intros Hsel. unfold getShardsAndProcessor. rewrite Hsel.
  destruct (shouldAggregateLocally _ _); reflexivity.
Qed.

Lemma getShardsAndProcessor_not_select_witness :
  parser.SelectQuery_of
    (parser.setRunAgainstAllServersInShard (Scenario.spec Scenario.delete)) = None
  /\ getShardsAndProcessor (Scenario.S1 2)
       (parser.setRunAgainstAllServersInShard (Scenario.spec Scenario.delete))
     = inr (Scenario.localShards, None).
Proof.
  split; [reflexivity |].
  apply (getShardsAndProcessor_not_select (Scenario.S1 2)
           (parser.setRunAgainstAllServersInShard (Scenario.spec Scenario.delete))).
  reflexivity.
Defined.

(** ** Writing a series *)

(** C10.  WriteSeriesData on a series without points, by a user with
    write access, returns the error "Can't write series with zero points.";
    it hands no request to a shard and runs no continuous query: it does
    nothing observable at all. *)
Theorem WriteSeriesData_zero_points c user db series :
  common.HasWriteAccess user db = true ->
  protocol.Points series = [] ->
  WriteSeriesData c user db series
  = ([], Done (Some (common.Errorf "Can't write series with zero points."))).
Proof.
  intros Hacc Hpts. unfold WriteSeriesData. rewrite Hacc, Hpts. reflexivity.
Qed.

Lemma WriteSeriesData_zero_points_witness :
  common.HasWriteAccess Scenario.admin "db" = true
  /\ protocol.Points (Scenario.series "cpu" []) = []
  /\ WriteSeriesData (Scenario.S1 2) Scenario.admin "db" (Scenario.series "cpu" [])
     = ([], Done (Some (common.Errorf "Can't write series with zero points."))).
Proof.
  split; [reflexivity | split; [reflexivity |]].
  apply (WriteSeriesData_zero_points (Scenario.S1 2) Scenario.admin "db"
           (Scenario.series "cpu" [])); reflexivity.
Defined.

(** ** Listing series *)

Lemma readListSeries_error_stays_nil i seriesYielded responseChan :
  forall t seriesYielded' err',
    readListSeries i seriesYielded None responseChan = (t, Done (seriesYielded', err')) ->
    err' = None.
Proof.
  revert seriesYielded. induction responseChan as [|response rest IH];
    intros seriesYielded t seriesYielded' err'; simpl.
  - discriminate.
  - destruct (isTerminal response); intros H; inv_bind H.
    + inv_ret H. destruct (protocol.ErrorMessage response); congruence.
    + eauto.
Qed.

Lemma listSeriesFromShards_error_stays_nil c querySpec shards :
  forall i seriesYielded t err',
    listSeriesFromShards c querySpec i shards seriesYielded None = (t, Done err') ->
    err' = None.
Proof.
  induction shards as [|shard shards IH]; intros i seriesYielded t err'; simpl; intros H.
  - inv_ret H. reflexivity.
  - rewrite bind_makeChan in H. cbv beta in H. destruct (_ <? 0); [discriminate|].
    inv_bind H. inv_bind H. destruct x0 as [y e].
    apply readListSeries_error_stays_nil in H1 as ->. eauto.
Qed.

(** Whatever the shards answer, a list-series call that returns, returns nil. *)
Lemma runListSeriesQuery_returns_nil c querySpec t r :
  runListSeriesQuery c querySpec = (t, Done r) -> r = None.
Proof.
  unfold runListSeriesQuery. intros H. inv_bind H. inv_bind H. inv_ret H.
  eapply listSeriesFromShards_error_stays_nil; eauto.
Qed.

(** C7, on the code.  Shard B ends its stream with the error message
    "boom" and shard C with "bam"; runListSeriesQuery reads both terminal
    responses and returns nil, where the claim has InvalidArgument("boom"). *)
Theorem runListSeriesQuery_drops_shard_error :
  runListSeriesQuery Scenario.S5 (Scenario.spec Scenario.listSeries)
  = ([ EvShardQuery 0 1; EvSinkWrite (Scenario.series "a" [1; 2]); EvTerminal 0 None;
       EvShardQuery 1 2; EvSinkWrite (Scenario.series "b" [3; 4; 5]);
       EvTerminal 1 (Some "boom");
       EvShardQuery 2 3; EvSinkWrite (Scenario.series "c" [6]);
       EvTerminal 2 (Some "bam");
       EvSinkClose ],
     Done None).
Proof. vm_compute. reflexivity. Qed.

(** ** Scheduling the shards *)

(** C3, on the code.  Scenario S1 with a concurrency limit of 1: no
    processor is installed, shard A is read to its END_STREAM, and neither B
    nor C is ever queried; the call closes the sink and returns nil. *)
Theorem runQuerySpec_without_processor_schedules_no_shard :
  getShardsAndProcessor (Scenario.S1 1) (Scenario.spec (Scenario.select 0))
  = inr (Scenario.localShards, None)
  /\ runQuerySpec (Scenario.S1 1) (Scenario.spec (Scenario.select 0))
     = ([ EvShardQuery 0 1; EvSinkWrite (Scenario.series "a" [1; 2]); EvTerminal 0 None;
          EvSinkClose ],
        Done None).
Proof. split; vm_compute; reflexivity. Qed.

(** ** Continuous queries with a GROUP BY *)

Lemma always_ret {A} P (a : A) : always P (ret a).
Proof. constructor. Qed.

Lemma always_panic {A} P : always P (@panic A).
Proof. constructor. Qed.

Lemma always_makeChan P size : always P (makeChan size).
Proof. unfold makeChan. destruct (size <? 0); constructor. Qed.

Lemma always_emit P e : P e -> always P (emit e).
Proof. intros. repeat constructor; auto. Qed.

Lemma always_bind {A B} P (m : M A) (f : A -> M B) :
  always P m -> (forall a, always P (f a)) -> always P (bind m f).
Proof.
  unfold always. intros Hm Hf. rewrite trace_bind. apply Forall_app. split; auto.
  destruct (result m); auto.
Qed.

Lemma always_impl {A} (P Q : Event -> Prop) (m : M A) :
  (forall e, P e -> Q e) -> always P m -> always Q m.
Proof. unfold always. intros. eapply Forall_impl; eauto. Qed.

Lemma isShardWrite_interpolates ok e : isShardWrite e -> interpolates ok e.
Proof. destruct e; simpl; tauto. Qed.

Lemma interpolated_always ok t :
  Forall (interpolates ok) t -> forall cq, cq ∈ interpolated t -> ok cq.
Proof.
  induction 1 as [|e t He _ IH]; simpl; intros cq Hin.
  - inversion Hin.
  - destruct e; auto. apply elem_of_cons in Hin as [->|Hin]; auto.
Qed.

Ltac always_step :=
  first [ apply always_ret | apply always_panic | apply always_makeChan
        | apply always_emit; simpl; tauto
        | apply always_bind; [| intros ?] ].

Lemma write_always db series shard : always isShardWrite (write db series shard).
Proof. unfold write. repeat always_step. Qed.

Lemma sweep_always c db series points rest :
  forall i st, always isShardWrite (sweep c db series points i rest st).
Proof.
  induction rest as [|point rest IH]; intros i st; simpl.
  - always_step.
  - destruct (negb _); [|apply IH].
    destruct (cluster.GetShardToWriteToBySeriesAndTime _ _ _ _); [always_step|].
    destruct (shardToWrite st); [|apply IH].
    destruct (negb _); [|apply IH].
    apply always_bind; [apply write_always|].
    intros [e|]; [always_step | apply IH].
Qed.

Lemma CommitSeriesData_always c db series :
  always isShardWrite (CommitSeriesData c db series).
Proof.
  unfold CommitSeriesData. apply always_bind; [apply sweep_always|].
  intros [e|st]; [always_step|]. simpl.
  destruct (drop _ _); [always_step|].
  destruct (match shardToWrite st with Some _ => _ | None => _ end); [|always_step].
  apply always_bind; [apply write_always | intros; always_step].
Qed.

Lemma commitEachPoint_always c db series targetName assign points :
  forall sequenceMap,
    always isShardWrite (commitEachPoint c db series targetName assign sequenceMap points).
Proof.
  induction points as [|point points IH]; intros sequenceMap; simpl.
  - always_step.
  - apply always_bind.
    + destruct assign; [|always_step].
      destruct (nextSequenceNumber _ _ _); always_step.
    + intros [sequenceMap' point'].
      apply always_bind; [apply CommitSeriesData_always|]. intros _.
      apply always_bind; [apply IH | intros; always_step].
Qed.

Lemma InterpolateValuesAndCommit_always c db series targetName assign :
  always isShardWrite (InterpolateValuesAndCommit c db series targetName assign).
Proof.
  unfold InterpolateValuesAndCommit. destruct (MatchString _).
  - apply always_bind; [apply commitEachPoint_always | intros; always_step].
  - apply always_bind.
    + destruct assign; [|always_step]. destruct (assignAll _ _ _); always_step.
    + intros points.
      apply always_bind; [apply CommitSeriesData_always | intros; always_step].
Qed.

Lemma matchTables_always c cq db name targetName tables :
  forall series,
    always (interpolates (fun k => k = cq))
      (matchTables c cq db name targetName tables series).
Proof.
  induction tables as [|table tables IH]; intros series; simpl.
  - always_step.
  - apply always_bind; [|intros; apply IH].
    destruct (match parser.CompiledRegex _ with Some _ => _ | None => _ end);
      [|always_step].
    apply always_bind; [apply always_emit; reflexivity | intros _].
    eapply always_impl; [|apply InterpolateValuesAndCommit_always].
    apply isShardWrite_interpolates.
Qed.

(** A continuous query with a GROUP BY is passed over. *)
Lemma eachContinuousQuery_skip c cq db name query queries series elems :
  parser.Elems (parser.GetGroupByClause query) = Some elems ->
  eachContinuousQuery c cq db name (query :: queries) series
  = eachContinuousQuery c (S cq) db name queries series.
Proof. intros H. simpl. rewrite H. reflexivity. Qed.

Lemma eachContinuousQuery_always c db name queries :
  forall cq series,
    always (interpolates (fun k =>
              exists query, queries !! (k - cq)%nat = Some query
                            /\ (cq <= k)%nat
                            /\ parser.Elems (parser.GetGroupByClause query) = None))
      (eachContinuousQuery c cq db name queries series).
Proof.
  induction queries as [|query queries IH]; intros cq series; simpl.
  - always_step.
  - assert (Hrest : forall series',
      always (interpolates (fun k =>
                exists q, (query :: queries) !! (k - cq)%nat = Some q
                          /\ (cq <= k)%nat
                          /\ parser.Elems (parser.GetGroupByClause q) = None))
        (eachContinuousQuery c (S cq) db name queries series')).
    { intros series'. eapply always_impl; [|apply IH].
      intros [] He; simpl in *; auto. destruct He as (q & Hq & Hle & Hel).
      exists q. replace (cq0 - cq)%nat with (S (cq0 - S cq)) by lia.
      repeat split; auto. lia. }
    destruct (parser.Elems (parser.GetGroupByClause query)) eqn:Hel; [apply Hrest|].
    destruct (parser.GetIntoClause query); [|always_step].
    apply always_bind; [|intros; apply Hrest].
    eapply always_impl; [|apply matchTables_always].
    intros [] He; simpl in *; auto. subst. exists query.
    rewrite Nat.sub_diag. auto.
Qed.

(** C9.  A continuous query registered for the database whose GROUP BY
    clause has a non-nil element list is never interpolated and committed by
    ProcessContinuousQueries, whatever the incoming series: its position
    [k] in the database's queries is not among the interpolated ones. *)
Theorem ProcessContinuousQueries_skips_group_by c db series parsed queries k query elems :
  cluster.ParsedContinuousQueries (clusterConfiguration c) = Some parsed ->
  parsed !! db = Some queries ->
  queries !! k = Some query ->
  parser.Elems (parser.GetGroupByClause query) = Some elems ->
  k ∉ interpolated (trace (ProcessContinuousQueries c db series)).
Proof.
  intros Hparsed Hdb Hk Helems Hin.
  unfold ProcessContinuousQueries in Hin. rewrite Hparsed, Hdb in Hin. simpl in Hin.
  eapply interpolated_always in Hin; [|apply eachContinuousQuery_always].
  simpl in Hin. destruct Hin as (q & Hq & _ & Hnone).
  rewrite Nat.sub_0_r in Hq. congruence.
Qed.

Lemma ProcessContinuousQueries_skips_group_by_witness :
  cluster.ParsedContinuousQueries (clusterConfiguration Scenario.S4)
  = Some Scenario.continuousQueries
  /\ Scenario.continuousQueries !! "db" = Some [Scenario.grouped; Scenario.plain]
  /\ [Scenario.grouped; Scenario.plain] !! 0%nat = Some Scenario.grouped
  /\ parser.Elems (parser.GetGroupByClause Scenario.grouped) = Some [Scenario.timeFunction]
  /\ 0%nat ∉ interpolated
               (trace (ProcessContinuousQueries Scenario.S4 "db" (Scenario.series "cpu" [1; 2]))).
Proof.
  split; [reflexivity | split; [vm_compute; reflexivity | split; [reflexivity |
  split; [reflexivity |]]]].
  apply (ProcessContinuousQueries_skips_group_by Scenario.S4 "db"
           (Scenario.series "cpu" [1; 2]) Scenario.continuousQueries
           [Scenario.grouped; Scenario.plain] 0%nat Scenario.grouped
           [Scenario.timeFunction]);
    [reflexivity | vm_compute; reflexivity | reflexivity | reflexivity].
Defined.

(** In S4 the query without GROUP BY is the one that runs. *)
Example ProcessContinuousQueries_S4 :
  trace (ProcessContinuousQueries Scenario.S4 "db" (Scenario.series "cpu" [2; 1]))
  = [ EvInterpolate 1 "db" "copy.:series_name";
      EvShardWrite 1
        {| protocol.RType := protocol.Request_WRITE;
           protocol.Database := "db";
           protocol.ReqSeries := Scenario.series "copy.cpu" [2; 1] |} ].
Proof. vm_compute. reflexivity. Qed.

(** ** Routing the points of a write *)

Lemma slice_app {A} (l : list A) (a b c : nat) :
  (a <= b)%nat -> (b <= c)%nat -> slice l a b ++ slice l b c = slice l a c.
Proof.
  intros Hab Hbc. unfold slice.
  replace (drop b l) with (drop (b - a) (drop a l))
    by (rewrite drop_drop; f_equal; lia).
  rewrite take_take_drop. f_equal. lia.
Qed.

Lemma slice_same {A} (l : list A) (a : nat) : slice l a a = [].
Proof. unfold slice. rewrite Nat.sub_diag. reflexivity. Qed.

Lemma insertTimeDescending_Permutation p sorted :
  insertTimeDescending p sorted ≡ₚ p :: sorted.
Proof.
  induction sorted as [|q sorted IH]; simpl; [reflexivity|].
  destruct (GetTimestamp p <? GetTimestamp q); [|reflexivity].
  rewrite IH. apply Permutation_swap.
Qed.

Lemma SortPointsTimeDescending_Permutation points :
  SortPointsTimeDescending points ≡ₚ points.
Proof.
  induction points as [|p points IH]; simpl; [reflexivity|].
  rewrite insertTimeDescending_Permutation, IH. reflexivity.
Qed.

Lemma write_Done_inv db series shard t e :
  write db series shard = (t, Done e) ->
  t = [EvShardWrite (cluster.Id shard)
         {| protocol.RType := protocol.Request_WRITE;
            protocol.Database := db;
            protocol.ReqSeries := series |}].
Proof. unfold write. intros H. inv_bind H. inv_emit H0. inv_ret H. reflexivity. Qed.

(** The flushes of the sweep are the consecutive runs between the run
    start it is entered with and the one it leaves. *)
Lemma sweep_written c db series points rest :
  forall i st t st',
    sweep c db series points i rest st = (t, Done (inr st')) ->
    (lastPointIndex st <= i)%nat ->
    (lastPointIndex st <= lastPointIndex st')%nat
    /\ (lastPointIndex st' <= i + length rest)%nat
    /\ writtenPoints t = slice points (lastPointIndex st) (lastPointIndex st').
Proof.
  induction rest as [|point rest IH]; intros i st t st' H Hle; simpl in H.
  - inv_ret H. rewrite slice_same. simpl. repeat split; auto; lia.
  - destruct (negb _).
    2:{ apply IH in H; [|lia]. simpl. intuition lia. }
    destruct (cluster.GetShardToWriteToBySeriesAndTime _ _ _ _) as [e|shard].
    { inv_ret H. }
    destruct (shardToWrite st) as [current|].
    2:{ apply IH in H; simpl in *; [|lia]. intuition lia. }
    destruct (negb _).
    2:{ apply IH in H; simpl in *; [|lia]. intuition lia. }
    inv_bind H. destruct x as [e|]; [inv_ret H|].
    apply write_Done_inv in H0 as ->.
    apply IH in H; simpl in *; [|lia]. destruct H as (H1 & H2 & ->).
    rewrite slice_app by lia. intuition lia.
Qed.

(** C8.  When CommitSeriesData returns without error, the points of the
    write requests it handed to shards, taken in order, are the points of
    the series (timestamps filled in, sorted by descending time): every point
    is in exactly one request, and the requests hold as many points as the
    series had. *)
Theorem CommitSeriesData_writes_every_point c db series t series' :
  CommitSeriesData c db series = (t, Done (None, series')) ->
  writtenPoints t
  = SortPointsTimeDescending
      (map (fillTimestamp (CurrentTime (world c))) (protocol.Points series))
  /\ writtenPoints t ≡ₚ map (fillTimestamp (CurrentTime (world c))) (protocol.Points series)
  /\ length (writtenPoints t) = length (protocol.Points series).
Proof.
  intros H.
  assert (Hall : writtenPoints t
                 = SortPointsTimeDescending
                     (map (fillTimestamp (CurrentTime (world c))) (protocol.Points series))).
  { unfold CommitSeriesData in H.
    set (points := SortPointsTimeDescending _) in *.
    inv_bind H. destruct x as [e|st]; [inv_ret H|].
    apply sweep_written in H0 as (_ & Hlen & Hw); [|simpl; lia]. simpl in *.
    unfold slice in Hw. rewrite Nat.sub_0_r, drop_0 in Hw.
    rewrite writtenPoints_app, Hw.
    destruct (drop (lastPointIndex st) points) as [|first tail] eqn:Hdrop.
    - inv_ret H. simpl. rewrite app_nil_r.
      apply take_ge. apply (f_equal length) in Hdrop.
      rewrite length_drop in Hdrop. simpl in Hdrop. lia.
    - destruct (match shardToWrite st with Some _ => _ | None => _ end) as [shard|];
        [|discriminate].
      inv_bind H. inv_ret H. apply write_Done_inv in H0 as ->. simpl.
      rewrite app_nil_r, <- Hdrop. apply take_drop. }
  split; [exact Hall|]. rewrite Hall. split.
  - apply SortPointsTimeDescending_Permutation.
  - rewrite SortPointsTimeDescending_Permutation, length_map. reflexivity.
Qed.

Lemma CommitSeriesData_writes_every_point_witness :
  CommitSeriesData (Scenario.S1 2) "db" Scenario.S3series
  = ([ EvShardWrite 2
         {| protocol.RType := protocol.Request_WRITE;
            protocol.Database := "db";
            protocol.ReqSeries := Scenario.series "cpu" [300] |};
       EvShardWrite 1
         {| protocol.RType := protocol.Request_WRITE;
            protocol.Database := "db";
            protocol.ReqSeries := Scenario.series "cpu" [2; 1] |} ],
     Done (None, Scenario.series "cpu" [2; 1]))
  /\ length (writtenPoints (trace (CommitSeriesData (Scenario.S1 2) "db" Scenario.S3series)))
     = length (protocol.Points Scenario.S3series).
Proof.
  assert (H : CommitSeriesData (Scenario.S1 2) "db" Scenario.S3series
              = (trace (CommitSeriesData (Scenario.S1 2) "db" Scenario.S3series),
                 Done (None, Scenario.series "cpu" [2; 1])))
    by (vm_compute; reflexivity).
  split; [vm_compute; reflexivity |].
  apply (CommitSeriesData_writes_every_point (Scenario.S1 2) "db" Scenario.S3series _ _ H).
Defined.

(** ** The fan-out of a query *)

Lemma quiet_running t : Forall quiet t -> running t = 0.
Proof. induction 1 as [|[] t He _ IH]; simpl in *; try tauto; lia. Qed.

Lemma quiet_firstErrorMessage t : Forall quiet t -> firstErrorMessage t = None.
Proof. induction 1 as [|[] t He _ IH]; simpl in *; try tauto; auto. Qed.


Lemma forward_quiet querySpec out : forall closed, always quiet (forward querySpec closed out).
Proof.
  induction out as [|response out IH]; intros closed; simpl.
  - always_step.
  - destruct closed; [constructor|].
    destruct (isTerminal response).
    + apply always_bind; [always_step | intros; apply IH].
    + apply always_bind; [|intros; apply IH].
      destruct (negb _); [|always_step].
      destruct (seriesWithPoints response); always_step.
Qed.

(** The forwarding goroutine closes the writer when it first sees a
    terminal response, and never again. *)
Lemma forward_closes querySpec out :
  forall closed t closed',
    forward querySpec closed out = (t, Done closed') ->
    (closes t + b2n closed)%nat = b2n closed'.
Proof.
  induction out as [|response out IH]; intros closed t closed' H; simpl in H.
  - inv_ret H. reflexivity.
  - destruct closed; [discriminate|].
    destruct (isTerminal response).
    + bind_inv H as He []. inv_emit He. apply IH in H. rewrite closes_app.
      simpl in *. lia.
    + bind_inv H as Hw []. apply IH in H. rewrite closes_app.
      assert (closes t0 = 0%nat); [|simpl in *; lia].
      destruct (negb _); [|inv_ret Hw; reflexivity].
      destruct (seriesWithPoints response); [inv_emit Hw | inv_ret Hw]; reflexivity.
Qed.

Lemma steps_refl st : steps st [] st.
Proof. split; auto. destruct (err st); reflexivity. Qed.

Lemma steps_trans st1 t1 st2 t2 st3 :
  steps st1 t1 st2 -> steps st2 t2 st3 -> steps st1 (t1 ++ t2) st3.
Proof.
  intros [P1 C1 I1 E1] [P2 C2 I2 E2]. split.
  - congruence.
  - rewrite closes_app. lia.
  - intros H. rewrite I2, I1; congruence.
  - rewrite E2, E1, firstErrorMessage_app.
    destruct (err st1); simpl; auto.
    destruct (firstErrorMessage t1); reflexivity.
Qed.

Lemma onTerminal_Done_inv c querySpec shards i st response t st' :
  onTerminal c querySpec shards i st response = (t, Done st') ->
  steps st t st'.
Proof.
  unfold onTerminal. intros H. bind_inv H as He []. inv_emit He.
  assert (Herr : forall e : option common.error,
            match protocol.ErrorMessage response with
            | Some msg =>
                match e with
                | Some e0 => Some e0
                | None => Some (common.QueryError common.InvalidArgument msg)
                end
            | None => e
            end = orElse e (invalidArgument (protocol.ErrorMessage response))).
  { intros [e|]; destruct (protocol.ErrorMessage response); reflexivity. }
  destruct (_ && _).
  - destruct (nextIndex st <? 0); [discriminate|].
    destruct (shards !! _); [|discriminate].
    rewrite bind_makeChan in H. cbv beta in H. destruct (cluster.QueryResponseBufferSize _ _ _ <? 0) eqn:Hsize; [discriminate|].
    bind_inv H as He []. inv_emit He. inv_ret H. split; simpl; auto.
    rewrite Herr. destruct (protocol.ErrorMessage response); reflexivity.
  - inv_ret H. split; simpl; auto.
    rewrite Herr. destruct (protocol.ErrorMessage response); reflexivity.
Qed.

Lemma readShard_Done_inv c querySpec shards i responseChan :
  forall st t st',
    readShard c querySpec shards i st responseChan = (t, Done st') ->
    steps st t st'.
Proof.
  induction responseChan as [|response rest IH]; intros st t st' H; simpl in H.
  - discriminate.
  - destruct (isTerminal response); [eapply onTerminal_Done_inv; eauto|].
    destruct (seriesWithPoints response) as [series|]; [|eauto].
    destruct (processor st) as [p|] eqn:Hp.
    + destruct (cluster.YieldSeries p series) as [[p' continue] out].
      bind_inv H as He []. inv_emit He. bind_inv H as Hf closed.
      pose proof (forward_closes _ _ _ _ _ Hf) as Hc.
      pose proof (forward_quiet querySpec out (seriesClosed st)) as Hq.
      unfold always, trace in Hq. rewrite Hf in Hq. simpl in Hq.
      apply IH in H.
      rewrite app_assoc. eapply steps_trans; [|exact H].
      split; simpl.
      * unfold hasProcessor. simpl. rewrite Hp. reflexivity.
      * exact Hc.
      * unfold hasProcessor. rewrite Hp. discriminate.
      * rewrite (quiet_firstErrorMessage _ Hq). destruct (err st); reflexivity.
    + bind_inv H as He []. apply IH in H.
      eapply steps_trans; [|exact H].
      destruct (negb _); [inv_emit He | inv_ret He]; split; simpl; auto;
        destruct (err st); reflexivity.
Qed.

Lemma readResponses_Done_inv c querySpec shards n :
  forall i st t st',
    readResponses c querySpec shards n i st = (t, Done st') ->
    steps st t st'.
Proof.
  induction n as [|n IH]; intros i st t st' H; simpl in H.
  - inv_ret H. apply steps_refl.
  - destruct (responses st !! i) as [[responseChan|]|].
    + bind_inv H as Hr st1. apply readShard_Done_inv in Hr. apply IH in H.
      eapply steps_trans; eauto.
    + inv_ret H. apply steps_refl.
    + inv_ret H. apply steps_refl.
Qed.

Lemma queryFirstShards_quiet_but_starts c querySpec limit rest :
  forall i responses0,
    always (fun e => isShardQuery e = true)
      (queryFirstShards c querySpec limit i rest responses0).
Proof.
  induction rest as [|shard rest IH]; intros i responses0; simpl.
  - always_step.
  - destruct (_ <? _); [|always_step].
    apply always_bind; [apply always_makeChan | intros _].
    apply always_bind; [apply always_emit; reflexivity | intros; apply IH].
Qed.

Lemma starts_only_facts t :
  Forall (fun e => isShardQuery e = true) t ->
  closes t = 0%nat /\ firstErrorMessage t = None.
Proof.
  induction 1 as [|[] t He _ [IH1 IH2]]; simpl in *; try discriminate; auto.
Qed.

(** A fan-out that returns has closed the sink once, and returns the
    first error message it read as an InvalidArgument error. *)
Lemma fanOut_Done_inv c querySpec shards processor0 t r :
  fanOut c querySpec shards processor0 = (t, Done r) ->
  closes t = 1%nat /\ r = invalidArgument (firstErrorMessage t).
Proof.
  unfold fanOut. intros H. bind_inv H as Hfirst responses0.
  pose proof (queryFirstShards_quiet_but_starts c querySpec
                (shardConcurrentLimit c shards querySpec) shards 0
                (replicate (length shards) None)) as Hs.
  unfold always, trace in Hs. rewrite Hfirst in Hs. simpl in Hs.
  apply starts_only_facts in Hs as [Hc0 He0].
  bind_inv H as Hread st. apply readResponses_Done_inv in Hread as [HP HC HI HE].
  simpl in *.
  rewrite !closes_app, !firstErrorMessage_app, Hc0, He0. simpl.
  destruct (processor st) as [p|] eqn:Hp.
  - bind_inv H as He []. inv_emit He. bind_inv H as Hf closed.
    destruct closed; [|discriminate]. inv_ret H.
    pose proof (forward_quiet querySpec (cluster.Close p) (seriesClosed st)) as Hq.
    unfold always, trace in Hq. rewrite Hf in Hq. simpl in Hq.
    apply forward_closes in Hf. rewrite app_nil_r. split.
    + simpl in *. lia.
    + rewrite HE. simpl. rewrite (quiet_firstErrorMessage _ Hq).
      destruct (firstErrorMessage _); reflexivity.
  - bind_inv H as He []. inv_emit He. inv_ret H. split.
    + assert (Hidle : hasProcessor st = false) by (unfold hasProcessor; rewrite Hp; auto).
      rewrite HI in HC by congruence. simpl in *. lia.
    + rewrite HE. destruct (firstErrorMessage _); reflexivity.
Qed.

(** ** When the fan-out returns *)









(** ** How many shard queries run at a time *)

Lemma bounded_nil k cur : cur <= k -> bounded k cur [].
Proof. intros H n. rewrite take_nil. simpl. lia. Qed.

Lemma bounded_app k cur t1 t2 :
  bounded k cur t1 -> bounded k (cur + running t1) t2 -> bounded k cur (t1 ++ t2).
Proof.
  intros H1 H2 n. rewrite take_app, running_app.
  destruct (le_lt_dec n (length t1)) as [Hle|Hgt].
  - replace (n - length t1)%nat with 0%nat by lia. rewrite take_0. simpl.
    specialize (H1 n). lia.
  - rewrite take_ge by lia. specialize (H2 (n - length t1)%nat). lia.
Qed.

Lemma bounded_quiet k cur t : cur <= k -> Forall quiet t -> bounded k cur t.
Proof.
  intros Hle Hq n. rewrite quiet_running; [lia|].
  apply Forall_take. exact Hq.
Qed.

Lemma bounded_cons k cur e t :
  cur <= k -> bounded k (cur + running [e]) t -> bounded k cur (e :: t).
Proof.
  intros Hle Ht. change (e :: t) with ([e] ++ t). apply bounded_app; auto.
  intros [|n]; simpl; [lia|]. rewrite take_nil. specialize (Ht 0%nat).
  rewrite take_0 in Ht. simpl in *. lia.
Qed.

Lemma onTerminal_bounded c querySpec shards i st response k cur :
  cur <= k ->
  bounded k cur (trace (onTerminal c querySpec shards i st response))
  /\ running (trace (onTerminal c querySpec shards i st response)) <= 0.
Proof.
  intros Hle. unfold onTerminal. rewrite bind_emit. simpl.
  destruct (_ && _).
  - destruct (nextIndex st <? 0).
    { simpl. split; [|lia]. apply bounded_cons; auto. apply bounded_nil. simpl. lia. }
    destruct (shards !! _).
    2:{ simpl. split; [|lia]. apply bounded_cons; auto. apply bounded_nil. simpl. lia. }
    rewrite bind_makeChan. cbv beta. destruct (cluster.QueryResponseBufferSize _ _ _ <? 0) eqn:Hsize.
    { simpl. split; [|lia]. apply bounded_cons; auto. apply bounded_nil. simpl. lia. }
    rewrite bind_emit. simpl. split; [|lia].
    apply bounded_cons; auto. apply bounded_cons; simpl; [lia|].
    apply bounded_nil. lia.
  - simpl. split; [|lia]. apply bounded_cons; auto. apply bounded_nil. simpl. lia.
Qed.

Lemma readShard_bounded c querySpec shards i k responseChan :
  forall st cur,
    cur <= k ->
    bounded k cur (trace (readShard c querySpec shards i st responseChan))
    /\ running (trace (readShard c querySpec shards i st responseChan)) <= 0.
Proof.
  induction responseChan as [|response rest IH]; intros st cur Hle; simpl.
  - split; [apply bounded_nil; auto | lia].
  - destruct (isTerminal response); [apply onTerminal_bounded; auto|].
    destruct (seriesWithPoints response) as [series|]; [|auto].
    destruct (processor st) as [p|].
    + destruct (cluster.YieldSeries p series) as [[p' continue] out].
      rewrite bind_emit. simpl. rewrite trace_bind.
      pose proof (forward_quiet querySpec out (seriesClosed st)) as Hq.
      unfold always in Hq.
      assert (Htail : forall t2, bounded k cur t2 /\ running t2 <= 0 ->
                bounded k cur
                  (EvYieldSeries series continue
                   :: trace (forward querySpec (seriesClosed st) out) ++ t2)
                /\ running (trace (forward querySpec (seriesClosed st) out) ++ t2) <= 0).
      { intros t2 [Hb Hr]. rewrite running_app, (quiet_running _ Hq). split; [|lia].
        apply bounded_cons; auto. simpl. apply bounded_app.
        - apply bounded_quiet; [lia | auto].
        - rewrite (quiet_running _ Hq).
          replace (cur + 0 + 0) with cur by lia. exact Hb. }
      destruct (result (forward querySpec (seriesClosed st) out)).
      * apply Htail. apply IH; auto.
      * apply Htail. split; [apply bounded_nil; auto | simpl; lia].
      * apply Htail. split; [apply bounded_nil; auto | simpl; lia].
    + destruct (negb _).
      * rewrite bind_emit. simpl. destruct (IH st cur Hle) as [Hb Hr]. split; [|lia].
        apply bounded_cons; auto. simpl. replace (cur + 0) with cur by lia. exact Hb.
      * rewrite bind_ret_l. auto.
Qed.

Lemma readResponses_bounded c querySpec shards k n :
  forall i st cur,
    cur <= k -> bounded k cur (trace (readResponses c querySpec shards n i st)).
Proof.
  induction n as [|n IH]; intros i st cur Hle; simpl.
  - apply bounded_nil; auto.
  - destruct (responses st !! i) as [[responseChan|]|]; try (apply bounded_nil; auto).
    rewrite trace_bind.
    destruct (readShard_bounded c querySpec shards i k responseChan st cur Hle) as [Hb Hr].
    apply bounded_app; auto.
    destruct (result _); [apply IH | apply bounded_nil | apply bounded_nil]; lia.
Qed.

Lemma queryFirstShards_bounded c querySpec limit k rest :
  limit <= k ->
  forall i responses0,
    Z.of_nat i <= k ->
    bounded k (Z.of_nat i) (trace (queryFirstShards c querySpec limit i rest responses0))
    /\ Z.of_nat i + running (trace (queryFirstShards c querySpec limit i rest responses0)) <= k.
Proof.
  intros Hlimit. induction rest as [|shard rest IH]; intros i responses0 Hi; simpl.
  - split; [apply bounded_nil; auto | lia].
  - destruct (Z.of_nat i <? limit) eqn:Hlt.
    + apply Z.ltb_lt in Hlt. rewrite bind_makeChan. cbv beta. destruct (cluster.QueryResponseBufferSize _ _ _ <? 0) eqn:Hsize.
      { split; [apply bounded_nil; auto | simpl; lia]. }
      rewrite bind_emit. simpl.
      destruct (IH (S i) (<[i:=Some (cluster.Query shard querySpec)]> responses0))
        as [Hb Hr]; [lia|].
      split; [|lia]. apply bounded_cons; auto. simpl.
      replace (Z.of_nat i + (0 + 1)) with (Z.of_nat (S i)) by lia. exact Hb.
    + split; [apply bounded_nil; auto | simpl; lia].
Qed.

(** At no time do more shard queries run than the concurrency limit allows. *)
Lemma fanOut_bounded c querySpec shards processor0 n :
  running (take n (trace (fanOut c querySpec shards processor0)))
  <= Z.max 0 (shardConcurrentLimit c shards querySpec).
Proof.
  set (k := Z.max 0 (shardConcurrentLimit c shards querySpec)).
  enough (H : bounded k 0 (trace (fanOut c querySpec shards processor0)))
    by (specialize (H n); lia).
  unfold fanOut. rewrite trace_bind.
  destruct (queryFirstShards_bounded c querySpec (shardConcurrentLimit c shards querySpec) k
              shards ltac:(lia) 0%nat (replicate (length shards) None)) as [Hb Hr]; [lia|].
  apply bounded_app; [exact Hb|]. simpl in Hr.
  destruct (result _) as [responses0| |]; try (apply bounded_nil; lia).
  rewrite trace_bind. apply bounded_app; [apply readResponses_bounded; lia|].
  set (cur := 0 + _ + _).
  assert (Hcur : cur <= k).
  { pose proof (readResponses_bounded c querySpec shards k (length responses0) 0
                  {| responses := responses0;
                     nextIndex := shardConcurrentLimit c shards querySpec;
                     shouldContinue := false; err := None; processor := processor0;
                     seriesClosed := false |}
                  (0 + running (trace (queryFirstShards c querySpec
                                         (shardConcurrentLimit c shards querySpec) 0 shards
                                         (replicate (length shards) None))))
                  ltac:(lia)) as Hall.
    specialize (Hall (length (trace (readResponses c querySpec shards (length responses0) 0
                  {| responses := responses0;
                     nextIndex := shardConcurrentLimit c shards querySpec;
                     shouldContinue := false; err := None; processor := processor0;
                     seriesClosed := false |})))).
    rewrite take_ge in Hall by lia. exact Hall. }
  destruct (result _) as [st| |]; try (apply bounded_nil; lia).
  destruct (processor st) as [p|].
  - rewrite bind_emit. simpl. apply bounded_cons; auto. simpl.
    rewrite trace_bind. apply bounded_app.
    + apply bounded_quiet; [lia | apply forward_quiet].
    + destruct (result _) as [[]| |]; apply bounded_nil;
        rewrite (quiet_running _ (forward_quiet querySpec _ _)); lia.
  - rewrite bind_emit. simpl. apply bounded_cons; auto. apply bounded_nil. simpl. lia.
Qed.

(** ** The fan-out panics only when a channel cannot be made *)











(** ** The claims on runQuerySpec and RunQuery *)









(** S5: shard B ends with "boom", shard C with "bam"; the call returns
    InvalidArgument("boom") and the sink is closed once. *)
Example runQuerySpec_S5 :
  runQuerySpec Scenario.S5 (Scenario.spec (Scenario.select 0))
  = ([ EvShardQuery 0 1;
       EvYieldSeries (Scenario.series "a" [1; 2]) true;
       EvSinkWrite (Scenario.series "a" [1; 2]);
       EvTerminal 0 None;
       EvShardQuery 1 2;
       EvYieldSeries (Scenario.series "b" [3; 4; 5]) true;
       EvSinkWrite (Scenario.series "b" [3; 4; 5]);
       EvTerminal 1 (Some "boom");
       EvShardQuery 2 3;
       EvYieldSeries (Scenario.series "c" [6]) true;
       EvSinkWrite (Scenario.series "c" [6]);
       EvTerminal 2 (Some "bam");
       EvProcessorClose;
       EvSinkClose ],
     Done (Some (common.QueryError common.InvalidArgument "boom"))).
Proof. vm_compute. reflexivity. Qed.

(** LIST SERIES: runListSeriesQuery closes the sink and so does the end of
    RunQuery. *)
Example RunQuery_list_series_closes_twice :
  result (RunQuery (Scenario.S1 2) Scenario.admin "db" "list series" Scenario.sink)
  = Done None
  /\ closes (trace (RunQuery (Scenario.S1 2) Scenario.admin "db" "list series" Scenario.sink))
     = 2%nat.
Proof. split; vm_compute; reflexivity. Qed.

(** ** Scheduling without a processor *)






(** ** Further properties of the fan-out *)

Lemma terminalsRead_app t1 t2 : terminalsRead (t1 ++ t2) = terminalsRead t1 ++ terminalsRead t2.
Proof. induction t1 as [|[] t1 IH]; simpl; rewrite ?IH; auto. Qed.

Lemma quiet_terminalsRead t : Forall quiet t -> terminalsRead t = [].
Proof. induction 1 as [|[] t He _ IH]; simpl in *; try tauto; auto. Qed.

Lemma starts_terminalsRead t :
  Forall (fun e => isShardQuery e = true) t -> terminalsRead t = [].
Proof. induction 1 as [|[] t He _ IH]; simpl in *; try discriminate; auto. Qed.

(** What reading one shard leaves in the trace: events that neither start
    nor end a shard query, then the terminal response of the shard and
    possibly the start of the next shard. *)
Lemma readShard_shape c querySpec shards i responseChan :
  forall st,
    exists q tail,
      trace (readShard c querySpec shards i st responseChan) = q ++ tail
      /\ Forall quiet q
      /\ (tail = []
          \/ (exists msg, tail = [EvTerminal (Z.of_nat i) msg])
          \/ (exists msg n id, tail = [EvTerminal (Z.of_nat i) msg; EvShardQuery n id]))
      /\ (forall st', result (readShard c querySpec shards i st responseChan) = Done st' ->
                      tail <> []).
Proof.
  induction responseChan as [|response rest IH]; intros st; simpl.
  - exists [], []. repeat split; auto; intros; discriminate.
  - destruct (isTerminal response).
    + exists []. unfold onTerminal. rewrite bind_emit. simpl.
      destruct (_ && _).
      * destruct (nextIndex st <? 0);
          [eexists; repeat split; eauto; intros; discriminate|].
        destruct (shards !! _);
          [|eexists; repeat split; eauto 8; intros; discriminate].
        rewrite bind_makeChan. cbv beta. destruct (cluster.QueryResponseBufferSize _ _ _ <? 0) eqn:Hsize;
          [|rewrite bind_emit; simpl]; eexists; repeat split; eauto 8; intros; discriminate.
      * eexists; repeat split; eauto; intros; discriminate.
    + destruct (seriesWithPoints response) as [series|]; [|auto].
      destruct (processor st) as [p|].
      * destruct (cluster.YieldSeries p series) as [[p' continue] out].
        rewrite bind_emit. simpl. rewrite trace_bind, result_bind.
        pose proof (forward_quiet querySpec out (seriesClosed st)) as Hq.
        unfold always in Hq.
        destruct (result (forward querySpec (seriesClosed st) out)) as [closed| |].
        -- destruct (IH {| responses := responses st; nextIndex := nextIndex st;
                           shouldContinue := continue; err := err st;
                           processor := Some p'; seriesClosed := closed |})
             as (q & tail & Heq & Hquiet & Htail & Hdone).
           exists (EvYieldSeries series continue
                   :: trace (forward querySpec (seriesClosed st) out) ++ q), tail.
           rewrite Heq. split; [simpl; rewrite app_assoc; reflexivity|].
           split; [constructor; [exact I | apply Forall_app; auto]|]. auto.
        -- exists (EvYieldSeries series continue
                   :: trace (forward querySpec (seriesClosed st) out)), [].
           rewrite !app_nil_r. repeat split; auto; try (intros; discriminate).
           constructor; [exact I | auto].
        -- exists (EvYieldSeries series continue
                   :: trace (forward querySpec (seriesClosed st) out)), [].
           rewrite !app_nil_r. repeat split; auto; try (intros; discriminate).
           constructor; [exact I | auto].
      * destruct (IH st) as (q & tail & Heq & Hquiet & Htail & Hdone).
        destruct (negb _).
        -- rewrite bind_emit. simpl. exists (EvSinkWrite series :: q), tail.
           rewrite Heq. repeat split; auto. constructor; [exact I | auto].
        -- rewrite bind_ret_l. eauto 8.
Qed.

Lemma readShard_terminalsRead c querySpec shards i st responseChan :
  (terminalsRead (trace (readShard c querySpec shards i st responseChan)) = []
   /\ forall st', result (readShard c querySpec shards i st responseChan) <> Done st')
  \/ terminalsRead (trace (readShard c querySpec shards i st responseChan)) = [Z.of_nat i].
Proof.
  destruct (readShard_shape c querySpec shards i responseChan st)
    as (q & tail & -> & Hq & Htail & Hdone).
  rewrite terminalsRead_app, (quiet_terminalsRead _ Hq). simpl.
  destruct Htail as [->|[[msg ->]|(msg & n & id & ->)]]; simpl; auto.
  left. split; auto. intros st' H. apply Hdone in H. congruence.
Qed.

Lemma readResponses_terminalsRead c querySpec shards n :
  forall i st,
    exists k, (k <= n)%nat
              /\ terminalsRead (trace (readResponses c querySpec shards n i st))
                 = map Z.of_nat (seq i k).
Proof.
  induction n as [|n IH]; intros i st; simpl.
  - exists 0%nat. auto.
  - destruct (responses st !! i) as [[responseChan|]|]; try (exists 0%nat; split; [lia | reflexivity]).
    rewrite trace_bind, terminalsRead_app.
    destruct (readShard_terminalsRead c querySpec shards i st responseChan) as [[-> Hnot]| ->].
    + destruct (result _) eqn:E; [exfalso; eapply Hnot; eauto | |];
        exists 0%nat; split; try lia; reflexivity.
    + destruct (result _) as [st'| |].
      * destruct (IH (S i) st') as (k & Hk & ->). exists (S k). split; [lia | reflexivity].
      * exists 1%nat. split; [lia | reflexivity].
      * exists 1%nat. split; [lia | reflexivity].
Qed.

Lemma queryFirstShards_returns_length c querySpec limit rest :
  forall i responses0 responses1,
    result (queryFirstShards c querySpec limit i rest responses0) = Done responses1 ->
    length responses1 = length responses0.
Proof.
  induction rest as [|shard rest IH]; intros i responses0 responses1; simpl.
  - intros [= <-]. reflexivity.
  - destruct (Z.of_nat i <? limit); [|intros [= <-]; reflexivity].
    rewrite bind_makeChan. cbv beta. destruct (cluster.QueryResponseBufferSize _ _ _ <? 0) eqn:Hsize; [discriminate|].
    rewrite result_bind. simpl. intros Hres. apply IH in Hres.
    rewrite length_insert in Hres. exact Hres.
Qed.

(** X1.  runQuerySpec reads the shards in the order of the catalog: the
    terminal responses it reads are those of shards 0, 1, ..., k-1, in that
    order, for some k up to the number of selected shards. *)
Theorem runQuerySpec_reads_in_catalog_order c querySpec :
  exists k, (k <= length (cluster.GetShards (clusterConfiguration c) querySpec))%nat
            /\ terminalsRead (trace (runQuerySpec c querySpec)) = map Z.of_nat (seq 0 k).
Proof.
  unfold runQuerySpec.
  destruct (getShardsAndProcessor c querySpec) as [e|[shards processor0]] eqn:Hplan.
  { exists 0%nat. split; [lia | reflexivity]. }
  apply getShardsAndProcessor_shards in Hplan as <-.
  unfold fanOut. rewrite trace_bind, terminalsRead_app.
  rewrite (starts_terminalsRead _ (queryFirstShards_quiet_but_starts _ _ _ _ _ _)).
  destruct (result (queryFirstShards _ _ _ _ _ _)) as [responses0| |] eqn:Hres;
    [|exists 0%nat; split; [lia | reflexivity]..].
  apply queryFirstShards_returns_length in Hres as Hlen.
  simpl. rewrite trace_bind, terminalsRead_app.
  destruct (readResponses_terminalsRead c querySpec shards (length responses0) 0
              {| responses := responses0;
                 nextIndex := shardConcurrentLimit c shards querySpec;
                 shouldContinue := false; err := None; processor := processor0;
                 seriesClosed := false |}) as (k & Hk & ->).
  exists k. split; [rewrite Hlen, length_replicate in Hk; exact Hk|]. clear Hres.
  destruct (result (readResponses _ _ _ _ _ _)) as [st| |]; simpl; rewrite ?app_nil_r; auto.
  destruct (processor st).
  - rewrite bind_emit. simpl. rewrite trace_bind, terminalsRead_app.
    rewrite (quiet_terminalsRead _ (forward_quiet querySpec _ _)).
    destruct (result _) as [[]| |]; simpl; rewrite ?app_nil_r; auto.
  - rewrite bind_emit. simpl. rewrite app_nil_r. reflexivity.
Qed.

(** X2.  At no point of a runQuerySpec call are more shard queries
    running (started and not yet read to their terminal response) than the
    shard concurrency limit in force, be it the configured one or the 1 of
    the sequential mode; with a limit of zero or less none ever runs. *)
Theorem runQuerySpec_bounded c querySpec n :
  running (take n (trace (runQuerySpec c querySpec)))
  <= Z.max 0 (shardConcurrentLimit c (cluster.GetShards (clusterConfiguration c) querySpec)
                querySpec).
Proof.
  unfold runQuerySpec.
  destruct (getShardsAndProcessor c querySpec) as [e|[shards processor0]] eqn:Hplan.
  - simpl. rewrite take_nil. simpl. lia.
  - apply getShardsAndProcessor_shards in Hplan as <-. apply fanOut_bounded.
Qed.



(** A shard that gives the buffer size -1: make panics before the query of
    the shard is started. *)
Example runQuerySpec_negative_buffer_size :
  runQuerySpec (Statements.serving [Scenario.select 0] [Statements.cramped])
    (Scenario.spec (Scenario.select 0))
  = ([], Panic).
Proof. vm_compute. reflexivity. Qed.




Lemma seriesWithPoints_Some response series :
  seriesWithPoints response = Some series -> protocol.Points series <> [].
Proof.
  unfold seriesWithPoints. destruct (protocol.RSeries response) as [s|]; [|discriminate].
  destruct (protocol.Points s) eqn:E; [discriminate|]. intros [= <-]. congruence.
Qed.

Lemma forward_carriesPoints querySpec out :
  forall closed, always carriesPoints (forward querySpec closed out).
Proof.
  induction out as [|response out IH]; intros closed; simpl.
  - always_step.
  - destruct closed; [constructor|].
    destruct (isTerminal response).
    + apply always_bind; [apply always_emit; exact I | intros; apply IH].
    + apply always_bind; [|intros; apply IH].
      destruct (negb _); [|always_step].
      destruct (seriesWithPoints response) eqn:E; [|always_step].
      apply always_emit. simpl. eapply seriesWithPoints_Some; eauto.
Qed.

Lemma readShard_carriesPoints c querySpec shards i responseChan :
  forall st, always carriesPoints (readShard c querySpec shards i st responseChan).
Proof.
  induction responseChan as [|response rest IH]; intros st; simpl.
  - constructor.
  - destruct (isTerminal response).
    + unfold onTerminal. apply always_bind; [apply always_emit; exact I | intros _].
      destruct (_ && _); [|always_step].
      destruct (nextIndex st <? 0); [always_step|].
      destruct (shards !! _); [|always_step].
      apply always_bind; [apply always_makeChan | intros _].
      apply always_bind; [apply always_emit; exact I | intros; always_step].
    + destruct (seriesWithPoints response) as [series|] eqn:E; [|auto].
      apply seriesWithPoints_Some in E.
      destruct (processor st) as [p|].
      * destruct (cluster.YieldSeries p series) as [[p' continue] out].
        apply always_bind; [apply always_emit; exact E | intros _].
        apply always_bind; [apply forward_carriesPoints | intros; apply IH].
      * apply always_bind; [|intros; apply IH].
        destruct (negb _); [apply always_emit; exact E | always_step].
Qed.

Lemma readResponses_carriesPoints c querySpec shards n :
  forall i st, always carriesPoints (readResponses c querySpec shards n i st).
Proof.
  induction n as [|n IH]; intros i st; simpl.
  - always_step.
  - destruct (responses st !! i) as [[responseChan|]|]; [|apply always_ret..].
    apply always_bind; [apply readShard_carriesPoints | intros; apply IH].
Qed.

(** X5.  runQuerySpec never hands a series without points on: every
    series it yields to the processor or writes to the sink, directly or
    through the processor's forwarding goroutine, has at least one point. *)
Theorem runQuerySpec_forwards_no_empty_series c querySpec :
  Forall carriesPoints (trace (runQuerySpec c querySpec)).
Proof.
  change (always carriesPoints (runQuerySpec c querySpec)).
  unfold runQuerySpec.
  destruct (getShardsAndProcessor c querySpec) as [e|[shards processor0]]; [always_step|].
  unfold fanOut. apply always_bind.
  { eapply always_impl; [|apply queryFirstShards_quiet_but_starts].
    intros []; simpl; auto; discriminate. }
  intros responses0. apply always_bind; [apply readResponses_carriesPoints|].
  intros st. destruct (processor st).
  - apply always_bind; [apply always_emit; exact I | intros _].
    apply always_bind; [apply forward_carriesPoints | intros []; constructor].
  - apply always_bind; [apply always_emit; exact I | intros; always_step].
Qed.

Lemma readResponses_nothing_started c querySpec shards n i st :
  Forall (fun chan => chan = None) (responses st) ->
  readResponses c querySpec shards n i st = ret st.
Proof.
  intros Hnone. destruct n as [|n]; simpl; [reflexivity|].
  destruct (responses st !! i) as [[responseChan|]|] eqn:Hi; try reflexivity.
  eapply Forall_lookup_1 in Hnone; eauto. discriminate.
Qed.

Lemma queryFirstShards_nonpositive c querySpec limit rest i responses0 :
  limit <= 0 -> queryFirstShards c querySpec limit i rest responses0 = ret responses0.
Proof.
  intros Hle. destruct rest as [|shard rest]; simpl; [reflexivity|].
  destruct (Z.of_nat i <? limit) eqn:Hlt; [apply Z.ltb_lt in Hlt; lia | reflexivity].
Qed.

(** X6.  With a ConcurrentShardQueryLimit of zero or less, a query for
    which no processor is installed queries no shard at all: runQuerySpec
    closes the sink at once and returns nil, however many shards hold data. *)
Theorem runQuerySpec_nonpositive_limit c querySpec shards :
  configuration.ConcurrentShardQueryLimit (config c) <= 0 ->
  getShardsAndProcessor c querySpec = inr (shards, None) ->
  runQuerySpec c querySpec = ([EvSinkClose], Done None).
Proof.
  intros Hlimit Hplan. unfold runQuerySpec. rewrite Hplan.
  assert (Hagg : shouldAggregateLocally shards querySpec = true).
  { pose proof (getShardsAndProcessor_shards _ _ _ _ Hplan) as ->.
    unfold getShardsAndProcessor in Hplan.
    destruct (shouldAggregateLocally _ _); [reflexivity|]. simpl in Hplan.
    destruct (parser.SelectQuery_of querySpec) as [q|]; [|discriminate].
    destruct (engine.NewQueryEngine _ _); discriminate. }
  unfold fanOut, shardConcurrentLimit, shouldQuerySequentially. rewrite Hagg. simpl.
  rewrite queryFirstShards_nonpositive, bind_ret_l by exact Hlimit.
  rewrite readResponses_nothing_started, bind_ret_l
    by (simpl; apply Forall_replicate; reflexivity).
  simpl. reflexivity.
Qed.

Lemma runQuerySpec_nonpositive_limit_witness :
  configuration.ConcurrentShardQueryLimit (config (Scenario.S1 0)) <= 0
  /\ getShardsAndProcessor (Scenario.S1 0) (Scenario.spec (Scenario.select 0))
     = inr (Scenario.localShards, None)
  /\ runQuerySpec (Scenario.S1 0) (Scenario.spec (Scenario.select 0))
     = ([EvSinkClose], Done None).
Proof.
  split; [simpl; lia|]. split; [reflexivity|].
  apply (runQuerySpec_nonpositive_limit (Scenario.S1 0) (Scenario.spec (Scenario.select 0))
           Scenario.localShards); [simpl; lia | reflexivity].
Defined.

(** ** Further properties of RunQuery *)

Lemma always_blocked {A} P : always P (@blocked A).
Proof. constructor. Qed.

(** Prove [always P m] along the structure of [m]. *)
Ltac always_crush :=
  repeat first
    [ assumption
    | apply always_ret | apply always_panic | apply always_blocked
    | apply always_makeChan
    | apply always_emit; simpl; tauto
    | match goal with
      | H : forall _, always _ _ |- _ => apply H
      | H : forall _ _, always _ _ |- _ => apply H
      | H : forall _ _ _, always _ _ |- _ => apply H
      | |- always _ (match ?x with _ => _ end) => destruct x
      end
    | apply always_bind; [| intros ?] ].

Lemma forward_isQueryEvent querySpec out :
  forall closed, always isQueryEvent (forward querySpec closed out).
Proof. induction out as [|response out IH]; intros closed; simpl; always_crush. Qed.

Lemma readShard_isQueryEvent c querySpec shards i responseChan :
  forall st, always isQueryEvent (readShard c querySpec shards i st responseChan).
Proof.
  induction responseChan as [|response rest IH]; intros st; simpl; [always_crush|].
  destruct (isTerminal response); [unfold onTerminal; always_crush|].
  destruct (seriesWithPoints response) as [series|]; [|always_crush].
  destruct (processor st) as [p|]; [|always_crush].
  destruct (cluster.YieldSeries p series) as [[p' continue] out].
  apply always_bind; [always_crush | intros _].
  apply always_bind; [apply forward_isQueryEvent | intros; apply IH].
Qed.

Lemma readResponses_isQueryEvent c querySpec shards n :
  forall i st, always isQueryEvent (readResponses c querySpec shards n i st).
Proof.
  induction n as [|n IH]; intros i st; simpl; [always_crush|].
  destruct (responses st !! i) as [[responseChan|]|]; [|always_crush..].
  apply always_bind; [apply readShard_isQueryEvent | intros; apply IH].
Qed.

Lemma runQuerySpec_isQueryEvent c querySpec : always isQueryEvent (runQuerySpec c querySpec).
Proof.
  unfold runQuerySpec.
  destruct (getShardsAndProcessor c querySpec) as [e|[shards processor0]]; [always_crush|].
  unfold fanOut. apply always_bind.
  { eapply always_impl; [|apply queryFirstShards_quiet_but_starts].
    intros []; simpl; auto; discriminate. }
  intros responses0. apply always_bind; [apply readResponses_isQueryEvent|].
  intros st. destruct (processor st).
  - apply always_bind; [always_crush | intros _].
    apply always_bind; [apply forward_isQueryEvent | intros []; always_crush].
  - always_crush.
Qed.

Lemma writeNewSeries_isQueryEvent multi :
  forall seriesYielded, always isQueryEvent (writeNewSeries seriesYielded multi).
Proof. induction multi as [|series multi IH]; intros seriesYielded; simpl; always_crush. Qed.

Lemma readListSeries_isQueryEvent i responseChan :
  forall seriesYielded err0,
    always isQueryEvent (readListSeries i seriesYielded err0 responseChan).
Proof.
  induction responseChan as [|response rest IH]; intros seriesYielded err0; simpl;
    [always_crush|].
  destruct (isTerminal response); [always_crush|].
  apply always_bind; [apply writeNewSeries_isQueryEvent | intros; apply IH].
Qed.

Lemma listSeriesFromShards_isQueryEvent c querySpec shards :
  forall i seriesYielded err0,
    always isQueryEvent (listSeriesFromShards c querySpec i shards seriesYielded err0).
Proof.
  induction shards as [|shard shards IH]; intros i seriesYielded err0; simpl;
    [always_crush|].
  apply always_bind; [apply always_makeChan | intros _].
  apply always_bind; [always_crush | intros _].
  apply always_bind; [apply readListSeries_isQueryEvent | intros [y e]; apply IH].
Qed.

Lemma runListSeriesQuery_isQueryEvent c querySpec :
  always isQueryEvent (runListSeriesQuery c querySpec).
Proof.
  unfold runListSeriesQuery.
  apply always_bind; [apply listSeriesFromShards_isQueryEvent | intros; always_crush].
Qed.

Lemma writeAll_isQueryEvent seriesWriter queries :
  always isQueryEvent (writeAll seriesWriter queries).
Proof.
  induction queries as [|q queries IH]; simpl; [always_crush|].
  apply always_bind; [always_crush | intros _].
  destruct (swWrite seriesWriter q); always_crush.
Qed.

Lemma uint32_range n : 0 <= uint32 n < 2 ^ 32.
Proof. unfold uint32. apply Z.mod_pos_bound. lia. Qed.

Lemma isQueryEvent_statementEvent statements user database queryString e :
  isQueryEvent e -> statementEvent statements user database queryString e.
Proof. destruct e; simpl; tauto. Qed.

Lemma statementEvent_mono statements statements' user database queryString e :
  (forall query, query ∈ statements -> query ∈ statements') ->
  statementEvent statements user database queryString e ->
  statementEvent statements' user database queryString e.
Proof.
  intros Hsub. destruct e; simpl; auto.
  intros (Hdb & (query & dropQuery & Hin & Hdrop & Hid) & Hauth).
  split; [exact Hdb|]. split; [|exact Hauth].
  exists query, dropQuery. auto.
Qed.

Lemma runStatement_statementEvent c user database queryString seriesWriter query :
  always (statementEvent [query] user database queryString)
    (runStatement c user database queryString seriesWriter query).
Proof.
  assert (Hq : forall A (m : M A), always isQueryEvent m ->
                 always (statementEvent [query] user database queryString) m).
  { intros A m. apply always_impl. apply isQueryEvent_statementEvent. }
  unfold runStatement.
  destruct (parser.DeleteQuery_ query).
  { apply always_bind; [|intros; always_crush]. unfold runDeleteQuery.
    destruct (negb _); [always_crush|]. apply Hq, runQuerySpec_isQueryEvent. }
  destruct (parser.DropQuery_ query) as [dropQuery|] eqn:Hdrop.
  { apply always_bind; [|intros; always_crush]. unfold DeleteContinuousQuery.
    destruct (negb (common.IsClusterAdmin user) && negb (common.IsDbAdmin user database))
      eqn:Hauth; [always_crush|].
    apply always_bind; [|intros; always_crush]. apply always_emit. simpl.
    split; [reflexivity|]. split.
    - exists query, dropQuery. split; [apply list_elem_of_here | auto].
    - destruct (common.IsClusterAdmin user), (common.IsDbAdmin user database);
        simpl in *; congruence. }
  destruct (parser.IsListQuery query).
  { destruct (parser.IsListSeriesQuery query).
    - apply always_bind; [|intros; always_crush]. apply Hq, runListSeriesQuery_isQueryEvent.
    - destruct (parser.IsListContinuousQueriesQuery query); [|always_crush].
      destruct (ListContinuousQueries c user database); [always_crush|].
      apply Hq, writeAll_isQueryEvent. }
  destruct (parser.DropSeriesQuery_ query) as [dropSeriesQuery|].
  { apply always_bind; [|intros; always_crush]. unfold runDropSeriesQuery.
    destruct (_ && _); [always_crush|]. apply Hq, runQuerySpec_isQueryEvent. }
  destruct (parser.SelectQuery_ query) as [selectQuery|]; [|always_crush].
  destruct (parser.IsContinuousQuery selectQuery).
  - apply always_bind; [|intros; always_crush]. unfold CreateContinuousQuery.
    destruct (negb (common.IsClusterAdmin user) && negb (common.IsDbAdmin user database))
      eqn:Hauth; [always_crush|].
    apply always_bind; [|intros; always_crush]. apply always_emit. simpl.
    repeat split.
    destruct (common.IsClusterAdmin user), (common.IsDbAdmin user database);
      simpl in *; congruence.
  - apply always_bind; [|intros; always_crush]. apply Hq, runQuerySpec_isQueryEvent.
Qed.

Lemma runStatements_statementEvent c user database queryString seriesWriter q :
  always (statementEvent q user database queryString)
    (runStatements c user database queryString seriesWriter q).
Proof.
  induction q as [|query q IH]; simpl; [always_crush|].
  apply always_bind.
  - eapply always_impl; [|apply runStatement_statementEvent].
    intros e. apply statementEvent_mono. intros query' Hin.
    apply list_elem_of_singleton in Hin as ->. apply list_elem_of_here.
  - intros [|e]; [|always_crush].
    eapply always_impl; [|exact IH].
    intros e. apply statementEvent_mono. intros query' Hin.
    apply list_elem_of_further. exact Hin.
Qed.

(** Before recoverFunc, RunQuery does what its statements do. *)
Lemma RunQuery_statementEvent c user database queryString seriesWriter :
  (result (RunQuery c user database queryString seriesWriter) = Done None
   /\ exists t, trace (RunQuery c user database queryString seriesWriter) = t ++ [EvRecovered]
                /\ Forall (statementEvent (parsed c queryString) user database queryString) t)
  \/ Forall (statementEvent (parsed c queryString) user database queryString)
       (trace (RunQuery c user database queryString seriesWriter)).
Proof.
  unfold RunQuery, parsed.
  assert (Hbody : always (statementEvent
                            match ParseQuery (world c) queryString with
                            | inr q => q
                            | inl _ => []
                            end user database queryString)
            match ParseQuery (world c) queryString with
            | inl e => ret (Some e)
            | inr q => runStatements c user database queryString seriesWriter q
            end).
  { destruct (ParseQuery (world c) queryString);
      [always_crush | apply runStatements_statementEvent]. }
  destruct (match ParseQuery (world c) queryString with
            | inl e => ret (Some e) | inr q => _ end) as [t [r| |]]; simpl; auto.
  left. split; [reflexivity|]. exists t. auto.
Qed.

(** X7.  When recoverFunc catches a panic, RunQuery returns nil: the
    InternalError that recoverFunc builds stays in its own variable and does
    not reach the caller. *)
Theorem RunQuery_recovered_panic_returns_nil c user database queryString seriesWriter :
  EvRecovered ∈ trace (RunQuery c user database queryString seriesWriter) ->
  result (RunQuery c user database queryString seriesWriter) = Done None.
Proof.
  intros Hin.
  destruct (RunQuery_statementEvent c user database queryString seriesWriter)
    as [[Hres _]|Hall]; [exact Hres|].
  rewrite Forall_forall in Hall. apply Hall in Hin. destruct Hin.
Qed.

Lemma RunQuery_recovered_panic_returns_nil_witness :
  EvRecovered ∈ trace (RunQuery Fixture.broken Scenario.admin "db" "select" Scenario.sink)
  /\ result (RunQuery Fixture.broken Scenario.admin "db" "select" Scenario.sink) = Done None.
Proof.
  assert (H : EvRecovered
              ∈ trace (RunQuery Fixture.broken Scenario.admin "db" "select" Scenario.sink))
    by (vm_compute; left).
  split; [exact H|].
  apply (RunQuery_recovered_panic_returns_nil Fixture.broken Scenario.admin "db" "select"
           Scenario.sink H).
Defined.

(** X8.  Every consensus call of RunQuery is for the database of the
    call.  A continuous query is deleted by the id of one of the DROP
    CONTINUOUS QUERY statements of the query string, converted to uint32 (the
    id modulo 2^32, so in the uint32 range), and one is created from the whole
    query string given to RunQuery, not from the one statement. *)
Theorem RunQuery_consensus_calls c user database queryString seriesWriter :
  Forall (fun e =>
            match e with
            | EvRaftCreateContinuousQuery db q => db = database /\ q = queryString
            | EvRaftDeleteContinuousQuery db id =>
                db = database
                /\ 0 <= id < 2 ^ 32
                /\ exists statements query dropQuery,
                     ParseQuery (world c) queryString = inr statements
                     /\ query ∈ statements
                     /\ parser.DropQuery_ query = Some dropQuery
                     /\ id = uint32 (parser.Id dropQuery)
            | _ => True
            end)
    (trace (RunQuery c user database queryString seriesWriter)).
Proof.
  assert (Himpl : forall t,
            Forall (statementEvent (parsed c queryString) user database queryString) t ->
            Forall (fun e =>
                      match e with
                      | EvRaftCreateContinuousQuery db q => db = database /\ q = queryString
                      | EvRaftDeleteContinuousQuery db id =>
                          db = database
                          /\ 0 <= id < 2 ^ 32
                          /\ exists statements query dropQuery,
                               ParseQuery (world c) queryString = inr statements
                               /\ query ∈ statements
                               /\ parser.DropQuery_ query = Some dropQuery
                               /\ id = uint32 (parser.Id dropQuery)
                      | _ => True
                      end) t).
  { intros t Ht. eapply Forall_impl; [exact Ht|]. intros []; simpl; try tauto.
    intros (Hdb & (query & dropQuery & Hin & Hdrop & Hid) & _).
    split; [exact Hdb|]. split; [rewrite Hid; apply uint32_range|].
    unfold parsed in Hin.
    destruct (ParseQuery (world c) queryString) as [e|statements]; [inversion Hin|].
    exists statements, query, dropQuery. auto. }
  destruct (RunQuery_statementEvent c user database queryString seriesWriter)
    as [[_ (t & -> & Hall)]|Hall]; [|auto].
  apply Forall_app. split; [auto | repeat constructor].
Qed.

(** X9.  For a user who is neither cluster admin nor admin of the
    database, RunQuery makes no consensus call, whatever the statements: it
    neither creates nor deletes a continuous query. *)
Theorem RunQuery_unprivileged_no_consensus c user database queryString seriesWriter :
  common.IsClusterAdmin user = false ->
  common.IsDbAdmin user database = false ->
  Forall (fun e => isConsensusCall e = false)
    (trace (RunQuery c user database queryString seriesWriter)).
Proof.
  intros Hca Hda.
  assert (Himpl : forall t,
            Forall (statementEvent (parsed c queryString) user database queryString) t ->
            Forall (fun e => isConsensusCall e = false) t).
  { intros t Ht. eapply Forall_impl; [exact Ht|].
    intros []; simpl; auto; rewrite Hca, Hda; simpl; intros (_ & _ & H); discriminate. }
  destruct (RunQuery_statementEvent c user database queryString seriesWriter)
    as [[_ (t & -> & Hall)]|Hall]; [|auto].
  apply Forall_app. split; [auto | repeat constructor].
Qed.

Lemma RunQuery_unprivileged_no_consensus_witness :
  common.IsClusterAdmin Fixture.guest = false
  /\ common.IsDbAdmin Fixture.guest "db" = false
  /\ Forall (fun e => isConsensusCall e = false)
       (trace (RunQuery Fixture.dropping Fixture.guest "db" "drop continuous query 4294967297"
                 Scenario.sink)).
Proof.
  split; [reflexivity|]. split; [reflexivity|].
  apply (RunQuery_unprivileged_no_consensus Fixture.dropping Fixture.guest "db"
           "drop continuous query 4294967297" Scenario.sink); reflexivity.
Defined.

(** DROP CONTINUOUS QUERY 4294967297 deletes the continuous query 1. *)
Example RunQuery_drop_wraps :
  RunQuery Fixture.dropping Scenario.admin "db" "drop continuous query 4294967297"
    Scenario.sink
  = ([EvRaftDeleteContinuousQuery "db" 1; EvSinkClose], Done None).
Proof. vm_compute. reflexivity. Qed.

(** X10.  The statement loop of RunQuery ends at the first SELECT: the
    statements that follow a SELECT (continuous or not) in the query string
    are never run, and the loop's own Close of the sink is not reached. *)
Theorem runStatements_stop_at_select
    c user database queryString seriesWriter query rest selectQuery :
  parser.DeleteQuery_ query = None ->
  parser.DropQuery_ query = None ->
  parser.ListQuery_ query = None ->
  parser.DropSeriesQuery_ query = None ->
  parser.SelectQuery_ query = Some selectQuery ->
  runStatements c user database queryString seriesWriter (query :: rest)
  = (if parser.IsContinuousQuery selectQuery
     then CreateContinuousQuery c user database queryString
     else runQuerySpec c (parser.NewQuerySpec user database query)).
Proof.
  intros Hdel Hdrop Hlist Hseries Hsel. simpl.
  unfold runStatement, parser.IsListQuery. rewrite Hdel, Hdrop, Hlist, Hseries, Hsel. simpl.
  destruct (parser.IsContinuousQuery selectQuery); unfold runQuery.
  - destruct (CreateContinuousQuery c user database queryString) as [t [r| |]];
      unfold bind, ret; simpl; rewrite ?app_nil_r; reflexivity.
  - destruct (runQuerySpec c (parser.NewQuerySpec user database query)) as [t [r| |]];
      unfold bind, ret; simpl; rewrite ?app_nil_r; reflexivity.
Qed.

Lemma runStatements_stop_at_select_witness :
  parser.DeleteQuery_ (Scenario.select 0) = None
  /\ parser.DropQuery_ (Scenario.select 0) = None
  /\ parser.ListQuery_ (Scenario.select 0) = None
  /\ parser.DropSeriesQuery_ (Scenario.select 0) = None
  /\ parser.SelectQuery_ (Scenario.select 0) = Some (Scenario.selectQuery 0)
  /\ runStatements (Scenario.S1 2) Scenario.admin "db" "select x from s; delete from s"
       Scenario.sink [Scenario.select 0; Scenario.delete]
     = (if parser.IsContinuousQuery (Scenario.selectQuery 0)
        then CreateContinuousQuery (Scenario.S1 2) Scenario.admin "db"
               "select x from s; delete from s"
        else runQuerySpec (Scenario.S1 2)
               (parser.NewQuerySpec Scenario.admin "db" (Scenario.select 0))).
Proof.
  repeat (split; [reflexivity|]).
  apply (runStatements_stop_at_select (Scenario.S1 2) Scenario.admin "db"
           "select x from s; delete from s" Scenario.sink (Scenario.select 0)
           [Scenario.delete] (Scenario.selectQuery 0)); reflexivity.
Defined.

(** ** Further properties of listing series *)

Lemma notSinkClose_closes t : Forall notSinkClose t -> closes t = 0%nat.
Proof. induction 1 as [|[] t He _ IH]; simpl in *; try tauto; auto. Qed.

Lemma writeNewSeries_notSinkClose multi :
  forall seriesYielded, always notSinkClose (writeNewSeries seriesYielded multi).
Proof. induction multi as [|series multi IH]; intros seriesYielded; simpl; always_crush. Qed.

Lemma readListSeries_notSinkClose i responseChan :
  forall seriesYielded err0,
    always notSinkClose (readListSeries i seriesYielded err0 responseChan).
Proof.
  induction responseChan as [|response rest IH]; intros seriesYielded err0; simpl;
    [always_crush|].
  destruct (isTerminal response); [always_crush|].
  apply always_bind; [apply writeNewSeries_notSinkClose | intros; apply IH].
Qed.

Lemma listSeriesFromShards_notSinkClose c querySpec shards :
  forall i seriesYielded err0,
    always notSinkClose (listSeriesFromShards c querySpec i shards seriesYielded err0).
Proof.
  induction shards as [|shard shards IH]; intros i seriesYielded err0; simpl;
    [always_crush|].
  apply always_bind; [apply always_makeChan | intros _].
  apply always_bind; [always_crush | intros _].
  apply always_bind; [apply readListSeries_notSinkClose | intros [y e]; apply IH].
Qed.

Lemma runListSeriesQuery_Done_inv c querySpec t r :
  runListSeriesQuery c querySpec = (t, Done r) -> closes t = 1%nat.
Proof.
  unfold runListSeriesQuery. intros H. bind_inv H as Hl e.
  pose proof (listSeriesFromShards_notSinkClose c querySpec
                (firstShardsForListSeries (cluster.GetShortTermShards (clusterConfiguration c))
                 ++ firstShardsForListSeries (cluster.GetLongTermShards (clusterConfiguration c)))
                0 ∅ None) as Hn.
  unfold always, trace in Hn. rewrite Hl in Hn. simpl in Hn.
  bind_inv H as He []. inv_emit He. inv_ret H.
  rewrite closes_app, (notSinkClose_closes _ Hn). reflexivity.
Qed.

(** X11.  A query string that is the one statement LIST SERIES makes a
    RunQuery call that returns without a recovered panic close the sink
    twice, once at the end of runListSeriesQuery and once after the statement
    loop, and return nil whatever the shards reported. *)
Theorem RunQuery_list_series_closes_sink_twice
    c user database queryString seriesWriter query t r :
  ParseQuery (world c) queryString = inr [query] ->
  parser.DeleteQuery_ query = None ->
  parser.DropQuery_ query = None ->
  parser.ListQuery_ query = Some parser.Series ->
  RunQuery c user database queryString seriesWriter = (t, Done r) ->
  EvRecovered ∉ t ->
  r = None /\ closes t = 2%nat.
Proof.
  intros Hparse Hdel Hdrop Hlist. unfold RunQuery. rewrite Hparse. simpl.
  unfold runStatement, parser.IsListQuery, parser.IsListSeriesQuery.
  rewrite Hdel, Hdrop, Hlist. simpl.
  destruct (runListSeriesQuery c (parser.NewQuerySpec user database query))
    as [t1 [r1| |]] eqn:Hrun.
  - apply runListSeriesQuery_Done_inv in Hrun.
    unfold bind, ret, emit. simpl. intros [= <- <-] _. split; [reflexivity|].
    rewrite !closes_app. simpl. lia.
  - unfold bind. simpl. intros [= <- _] Hnot. exfalso. apply Hnot.
    apply elem_of_app. right. apply list_elem_of_here.
  - unfold bind. simpl. discriminate.
Qed.

Lemma RunQuery_list_series_closes_sink_twice_witness :
  ParseQuery (world Scenario.S5) "list series" = inr [Scenario.listSeries]
  /\ RunQuery Scenario.S5 Scenario.admin "db" "list series" Scenario.sink
     = (trace (RunQuery Scenario.S5 Scenario.admin "db" "list series" Scenario.sink),
        Done None)
  /\ (EvRecovered ∉ trace (RunQuery Scenario.S5 Scenario.admin "db" "list series"
                              Scenario.sink))
  /\ (@None common.error = None
      /\ closes (trace (RunQuery Scenario.S5 Scenario.admin "db" "list series" Scenario.sink))
         = 2%nat).
Proof.
  assert (H : RunQuery Scenario.S5 Scenario.admin "db" "list series" Scenario.sink
              = (trace (RunQuery Scenario.S5 Scenario.admin "db" "list series"
                          Scenario.sink), Done None))
    by (vm_compute; reflexivity).
  assert (Hnot : EvRecovered ∉ trace (RunQuery Scenario.S5 Scenario.admin "db" "list series"
                                         Scenario.sink)).
  { rewrite list_elem_of_In. vm_compute. intuition discriminate. }
  split; [reflexivity|]. split; [exact H|]. split; [exact Hnot|].
  apply (RunQuery_list_series_closes_sink_twice Scenario.S5 Scenario.admin "db"
           "list series" Scenario.sink Scenario.listSeries _ _
           eq_refl eq_refl eq_refl eq_refl H Hnot).
Defined.

(** The one shard gives the buffer size -1: make panics in
    runListSeriesQuery, recoverFunc catches the panic, and RunQuery returns
    nil without any Close. *)
Example RunQuery_list_series_recovered :
  RunQuery (Statements.serving [Scenario.listSeries] [Statements.cramped])
    Scenario.admin "db" "list series" Scenario.sink
  = ([EvRecovered], Done None).
Proof. vm_compute. reflexivity. Qed.

(** ** How often RunQuery closes the sink *)

Lemma runQuerySpec_closes c querySpec t r :
  runQuerySpec c querySpec = (t, Done r) -> closes t = b2n (planned c querySpec).
Proof.
  unfold runQuerySpec, planned.
  destruct (getShardsAndProcessor c querySpec) as [e|[shards processor0]]; intros H.
  - inv_ret H. reflexivity.
  - apply fanOut_Done_inv in H as [Hc _]. exact Hc.
Qed.

Lemma writeAll_notSinkClose seriesWriter queries :
  always notSinkClose (writeAll seriesWriter queries).
Proof.
  induction queries as [|q queries IH]; simpl; [always_crush|].
  apply always_bind; [always_crush | intros _].
  destruct (swWrite seriesWriter q); always_crush.
Qed.

(** A statement that completes has closed the sink once if it is one of
    those that reach a Close, and not at all otherwise. *)
Lemma runStatement_closes c user database queryString seriesWriter query t turn :
  runStatement c user database queryString seriesWriter query = (t, Done turn) ->
  closes t = b2n (closesSink c user database query).
Proof.
  unfold runStatement, closesSink. intros H.
  destruct (parser.DeleteQuery_ query).
  { bind_inv H as Hrun e. inv_ret H. rewrite app_nil_r. unfold runDeleteQuery in Hrun.
    simpl in Hrun.
    destruct (common.IsDbAdmin user database); simpl in *.
    - apply runQuerySpec_closes in Hrun. exact Hrun.
    - inv_ret Hrun. reflexivity. }
  destruct (parser.DropQuery_ query) as [dropQuery|].
  { bind_inv H as Hrun e. inv_ret H. rewrite app_nil_r.
    unfold DeleteContinuousQuery in Hrun.
    destruct (_ && _); [inv_ret Hrun; reflexivity|].
    bind_inv Hrun as He []. inv_emit He. inv_ret Hrun. reflexivity. }
  destruct (parser.IsListQuery query).
  { destruct (parser.IsListSeriesQuery query).
    - bind_inv H as Hrun e. inv_ret H. rewrite app_nil_r.
      apply runListSeriesQuery_Done_inv in Hrun. exact Hrun.
    - destruct (parser.IsListContinuousQueriesQuery query); [|inv_ret H; reflexivity].
      destruct (ListContinuousQueries c user database); [inv_ret H; reflexivity|].
      pose proof (writeAll_notSinkClose seriesWriter l) as Hn.
      unfold always, trace in Hn. rewrite H in Hn. simpl in Hn.
      apply notSinkClose_closes. exact Hn. }
  destruct (parser.DropSeriesQuery_ query) as [dropSeriesQuery|].
  { bind_inv H as Hrun e. inv_ret H. rewrite app_nil_r. unfold runDropSeriesQuery in Hrun.
    simpl in Hrun.
    destruct (common.IsClusterAdmin user), (common.IsDbAdmin user database),
             (common.HasWriteAccess user (parser.GetTableName dropSeriesQuery));
      simpl in *;
      try (apply runQuerySpec_closes in Hrun; exact Hrun).
    inv_ret Hrun. reflexivity. }
  destruct (parser.SelectQuery_ query) as [selectQuery|]; [|discriminate].
  destruct (parser.IsContinuousQuery selectQuery); simpl.
  - bind_inv H as Hrun e. inv_ret H. rewrite app_nil_r.
    unfold CreateContinuousQuery in Hrun.
    destruct (_ && _); [inv_ret Hrun; reflexivity|].
    bind_inv Hrun as He []. inv_emit He. inv_ret Hrun. reflexivity.
  - bind_inv H as Hrun e. inv_ret H. rewrite app_nil_r. unfold runQuery in Hrun.
    apply runQuerySpec_closes in Hrun. exact Hrun.
Qed.

Lemma runStatements_closes c user database queryString seriesWriter q :
  forall t r,
    runStatements c user database queryString seriesWriter q = (t, Done r) ->
    closes t
    = (length (filter (fun query => closesSink c user database query = true)
                 (statementsRun c user database queryString seriesWriter q).1)
       + b2n (statementsRun c user database queryString seriesWriter q).2)%nat.
Proof.
  induction q as [|query q IH]; intros t r H; simpl in H.
  - bind_inv H as He []. inv_emit He. inv_ret H. reflexivity.
  - bind_inv H as Hrun turn. simpl. rewrite Hrun. simpl result.
    rewrite closes_app, (runStatement_closes _ _ _ _ _ _ _ _ Hrun).
    destruct turn as [|e].
    + rewrite (IH _ _ H).
      destruct (statementsRun c user database queryString seriesWriter q) as [ran past].
      simpl. rewrite filter_cons.
      destruct (decide (closesSink c user database query = true)) as [->|Hne]; simpl.
      * lia.
      * destruct (closesSink c user database query); [congruence | simpl; lia].
    + inv_ret H. simpl. rewrite filter_cons.
      destruct (decide (closesSink c user database query = true)) as [->|Hne]; simpl.
      * reflexivity.
      * destruct (closesSink c user database query); [congruence | reflexivity].
Qed.

(** C1, as stated, fails.  A query string that does not parse makes
    RunQuery return the parser's error; the call completes and the sink's
    Close() has not run. *)
Lemma RunQuery_parse_error_counterexample :
  RunQuery (Scenario.S1 2) Scenario.admin "db" "select from" Scenario.sink
  = ([], Done (Some (common.QueryError common.InvalidArgument "syntax error")))
  /\ closes (trace (RunQuery (Scenario.S1 2) Scenario.admin "db" "select from" Scenario.sink))
     = 0%nat.
Proof. split; reflexivity. Qed.

(** C1, amended.  A call to RunQuery that returns without recoverFunc
    having caught a panic has invoked the sink's Close() not at all when the
    query string does not parse, and otherwise once for every statement it ran
    that reaches a Close of its own (LIST SERIES, and a DELETE or DROP SERIES
    the user may run or a SELECT that is not a continuous query, when
    getShardsAndProcessor succeeds for it), and once more when the loop ran
    past the last statement; the statements it ran are those up to the first
    that made it return.  So Close() is invoked exactly once exactly when one
    of these occurred: for instance when the statements are none, or only DROP
    CONTINUOUS QUERY and LIST CONTINUOUS QUERIES statements that succeed, or
    such statements followed by a plain SELECT whose processor could be set
    up. *)
Theorem RunQuery_closes c user database queryString seriesWriter t r :
  RunQuery c user database queryString seriesWriter = (t, Done r) ->
  EvRecovered ∉ t ->
  closes t
  = match ParseQuery (world c) queryString with
    | inl _ => 0%nat
    | inr q =>
        (length (filter (fun query => closesSink c user database query = true)
                   (statementsRun c user database queryString seriesWriter q).1)
         + b2n (statementsRun c user database queryString seriesWriter q).2)%nat
    end.
Proof.
  unfold RunQuery. destruct (ParseQuery (world c) queryString) as [e|q].
  - intros H _. simpl in H. inv_ret H. reflexivity.
  - destruct (runStatements c user database queryString seriesWriter q)
      as [t0 [r0| |]] eqn:Hrun; simpl.
    + intros [= <- <-] _. eapply runStatements_closes. exact Hrun.
    + intros [= <- _] Hnot. exfalso. apply Hnot.
      apply elem_of_app. right. apply list_elem_of_here.
    + discriminate.
Qed.

Lemma RunQuery_closes_witness :
  RunQuery Scenario.S5 Scenario.admin "db" "select x from s" Scenario.sink
  = (trace (RunQuery Scenario.S5 Scenario.admin "db" "select x from s" Scenario.sink),
     Done (Some (common.QueryError common.InvalidArgument "boom")))
  /\ (EvRecovered ∉ trace (RunQuery Scenario.S5 Scenario.admin "db" "select x from s"
                              Scenario.sink))
  /\ closes (trace (RunQuery Scenario.S5 Scenario.admin "db" "select x from s" Scenario.sink))
     = 1%nat.
Proof.
  assert (H : RunQuery Scenario.S5 Scenario.admin "db" "select x from s" Scenario.sink
              = (trace (RunQuery Scenario.S5 Scenario.admin "db" "select x from s"
                          Scenario.sink),
                 Done (Some (common.QueryError common.InvalidArgument "boom"))))
    by (vm_compute; reflexivity).
  assert (Hnot : EvRecovered ∉ trace (RunQuery Scenario.S5 Scenario.admin "db"
                                         "select x from s" Scenario.sink)).
  { rewrite list_elem_of_In. vm_compute. intuition discriminate. }
  split; [exact H|]. split; [exact Hnot|].
  exact (RunQuery_closes Scenario.S5 Scenario.admin "db" "select x from s" Scenario.sink
           _ _ H Hnot).
Defined.

(** No statement at all: the Close after the loop is the only one. *)
Example RunQuery_no_statement :
  RunQuery (Statements.serving [] Scenario.localShards) Scenario.admin "db" "" Scenario.sink
  = ([EvSinkClose], Done None).
Proof. vm_compute. reflexivity. Qed.

(** LIST CONTINUOUS QUERIES writes its one series and leaves the Close to
    the end of the loop. *)
Example RunQuery_list_continuous_queries :
  RunQuery (Statements.serving [Statements.listContinuousQueries] Scenario.localShards)
    Scenario.admin "db" "list continuous queries" Scenario.sink
  = ([ EvSinkWrite {| protocol.Name := "continuous queries";
                      protocol.Fields := ["id"; "query"];
                      protocol.Points := [] |};
       EvSinkClose ],
     Done None).
Proof. vm_compute. reflexivity. Qed.

(** A successful DELETE closes the sink at the end of runQuerySpec, and the
    end of the loop closes it again. *)
Example RunQuery_delete_closes_twice :
  result (RunQuery (Scenario.S1 2) Scenario.admin "db" "delete from s" Scenario.sink)
  = Done None
  /\ closes (trace (RunQuery (Scenario.S1 2) Scenario.admin "db" "delete from s"
                      Scenario.sink))
     = 2%nat.
Proof. split; vm_compute; reflexivity. Qed.

(** A continuous query is handed to consensus and RunQuery returns: no
    Close. *)
Example RunQuery_continuous_query_closes_nothing :
  RunQuery (Statements.serving [Statements.selectInto] Scenario.localShards)
    Scenario.admin "db" "select x from cpu into copy.:series_name" Scenario.sink
  = ([EvRaftCreateContinuousQuery "db" "select x from cpu into copy.:series_name"],
     Done None).
Proof. vm_compute. reflexivity. Qed.

(** A statement that is refused makes RunQuery return its error: no Close. *)
Example RunQuery_refused_closes_nothing :
  RunQuery Fixture.dropping Fixture.guest "db" "drop continuous query 4294967297"
    Scenario.sink
  = ([], Done (Some (common.AuthorizationError
                       "Insufficient permissions to delete continuous query"))).
Proof. vm_compute. reflexivity. Qed.

(** The engine of the SELECT cannot be built: runQuerySpec returns the
    error before its Close. *)
Example RunQuery_engine_error_closes_nothing :
  RunQuery Scenario.noEngine Scenario.admin "db" "select x from s" Scenario.sink
  = ([], Done (Some (common.QueryError common.WrongNumberOfArguments "bad aggregate"))).
Proof. vm_compute. reflexivity. Qed.

(** The one shard gives the buffer size -1: make panics in runQuerySpec,
    recoverFunc catches the panic, and RunQuery returns nil without any
    Close. *)
Example RunQuery_recovered_panic_closes_nothing :
  RunQuery (Statements.serving [Scenario.select 0] [Statements.cramped])
    Scenario.admin "db" "select x from s" Scenario.sink
  = ([EvRecovered], Done None).
Proof. vm_compute. reflexivity. Qed.

Lemma sinkNames_app t1 t2 : sinkNames (t1 ++ t2) = sinkNames t1 ++ sinkNames t2.
Proof. induction t1 as [|[] t1 IH]; simpl; rewrite ?IH; auto. Qed.

(** The series written while reading a response are new, and are then
    remembered as yielded. *)
Lemma writeNewSeries_names multi :
  forall seriesYielded,
    exists t seriesYielded',
      writeNewSeries seriesYielded multi = (t, Done seriesYielded')
      /\ NoDup (sinkNames t)
      /\ (forall name, name ∈ sinkNames t -> name ∉ seriesYielded)
      /\ (forall name, name ∈ seriesYielded' <-> name ∈ seriesYielded \/ name ∈ sinkNames t).
Proof.
  induction multi as [|series multi IH]; intros seriesYielded; simpl.
  - exists [], seriesYielded. split; [reflexivity|]. split; [constructor|].
    split; [intros ? H; inversion H | intros name; split; [auto | intros [|H]; [auto | inversion H]]].
  - destruct (bool_decide (protocol.Name series ∈ seriesYielded)) eqn:Hin; [apply IH|].
    apply bool_decide_eq_false in Hin.
    destruct (IH ({[protocol.Name series]} ∪ seriesYielded))
      as (t & y' & Heq & Hnd & Hnew & Hy').
    exists (EvSinkWrite series :: t), y'. rewrite bind_emit, Heq. simpl.
    split; [reflexivity|]. split; [|split].
    + apply NoDup_cons. split; [|exact Hnd]. intros Hn. apply Hnew in Hn.
      apply Hn, elem_of_union. left. apply elem_of_singleton. reflexivity.
    + intros name Hn. apply elem_of_cons in Hn as [->|Hn]; [exact Hin|].
      apply Hnew in Hn. intros Hy. apply Hn, elem_of_union. right. exact Hy.
    + intros name. rewrite Hy', elem_of_cons, elem_of_union, elem_of_singleton. tauto.
Qed.

Lemma readListSeries_names i responseChan :
  forall seriesYielded err0,
    NoDup (sinkNames (trace (readListSeries i seriesYielded err0 responseChan)))
    /\ (forall name,
          name ∈ sinkNames (trace (readListSeries i seriesYielded err0 responseChan)) ->
          name ∉ seriesYielded)
    /\ (forall seriesYielded' err',
          result (readListSeries i seriesYielded err0 responseChan)
          = Done (seriesYielded', err') ->
          forall name,
            name ∈ seriesYielded'
            <-> name ∈ seriesYielded
                \/ name ∈ sinkNames (trace (readListSeries i seriesYielded err0 responseChan))).
Proof.
  induction responseChan as [|response rest IH]; intros seriesYielded err0; simpl.
  - split; [constructor|]. split; [intros ? H; inversion H | discriminate].
  - destruct (isTerminal response).
    + rewrite bind_emit. simpl. split; [constructor|].
      split; [intros ? H; inversion H|]. intros y' e' [= <- _] name.
      split; [auto | intros [|H]; [auto | inversion H]].
    + destruct (writeNewSeries_names (protocol.MultiSeries response) seriesYielded)
        as (t & y1 & Heq & Hnd & Hnew & Hy1).
      rewrite trace_bind, result_bind, Heq. simpl.
      destruct (IH y1 err0) as (Hnd2 & Hnew2 & Hy2).
      rewrite sinkNames_app. split; [|split].
      * apply NoDup_app. split; [exact Hnd|]. split; [|exact Hnd2].
        intros name H1 H2. apply Hnew2 in H2. apply H2, Hy1. auto.
      * intros name Hn. apply elem_of_app in Hn as [Hn|Hn]; [auto|].
        apply Hnew2 in Hn. intros Hy. apply Hn, Hy1. auto.
      * intros y' e' Hres name. rewrite (Hy2 y' e' Hres), Hy1, elem_of_app. tauto.
Qed.

Lemma listSeriesFromShards_names c querySpec shards :
  forall i seriesYielded err0,
    NoDup (sinkNames (trace (listSeriesFromShards c querySpec i shards seriesYielded err0)))
    /\ (forall name,
          name ∈ sinkNames (trace (listSeriesFromShards c querySpec i shards seriesYielded err0)) ->
          name ∉ seriesYielded).
Proof.
  induction shards as [|shard shards IH]; intros i seriesYielded err0; simpl.
  - split; [constructor | intros ? H; inversion H].
  - rewrite bind_makeChan. cbv beta. destruct (cluster.QueryResponseBufferSize _ _ _ <? 0) eqn:Hsize.
    { split; [constructor | intros ? H; inversion H]. }
    rewrite bind_emit. simpl. rewrite trace_bind, sinkNames_app.
    destruct (readListSeries_names i (cluster.Query shard querySpec) seriesYielded err0)
      as (Hnd & Hnew & Hy).
    destruct (result (readListSeries i seriesYielded err0 (cluster.Query shard querySpec)))
      as [[y1 e1]| |] eqn:Hres; simpl; rewrite ?app_nil_r; auto.
    destruct (IH (S i) y1 e1) as (Hnd2 & Hnew2). split.
    + apply NoDup_app. split; [exact Hnd|]. split; [|exact Hnd2].
      intros name H1 H2. apply Hnew2 in H2. apply H2. apply (Hy y1 e1 eq_refl). auto.
    + intros name Hn. apply elem_of_app in Hn as [Hn|Hn]; [auto|].
      apply Hnew2 in Hn. intros Hyield. apply Hn. apply (Hy y1 e1 eq_refl). auto.
Qed.

(** X12.  runListSeriesQuery writes each series name to the sink at most
    once, however many shards and responses report the series. *)
Theorem runListSeriesQuery_writes_each_name_once c querySpec :
  NoDup (sinkNames (trace (runListSeriesQuery c querySpec))).
Proof.
  unfold runListSeriesQuery. rewrite trace_bind, sinkNames_app.
  destruct (listSeriesFromShards_names c querySpec
              (firstShardsForListSeries (cluster.GetShortTermShards (clusterConfiguration c))
               ++ firstShardsForListSeries (cluster.GetLongTermShards (clusterConfiguration c)))
              0 ∅ None) as [Hnd _].
  destruct (result _); simpl; rewrite ?app_nil_r; auto.
Qed.

Lemma queriedShards_app t1 t2 : queriedShards (t1 ++ t2) = queriedShards t1 ++ queriedShards t2.
Proof. induction t1 as [|[] t1 IH]; simpl; rewrite ?IH; auto. Qed.

Lemma firstShardsForListSeries_take shards :
  firstShardsForListSeries shards = take 10 shards.
Proof.
  unfold firstShardsForListSeries, SHARDS_TO_QUERY_FOR_LIST_SERIES.
  destruct (10 <? length shards)%nat eqn:E; [reflexivity|].
  apply Nat.ltb_ge in E. rewrite take_ge by exact E. reflexivity.
Qed.

Lemma writeNewSeries_queriedShards multi :
  forall seriesYielded, queriedShards (trace (writeNewSeries seriesYielded multi)) = [].
Proof.
  induction multi as [|series multi IH]; intros seriesYielded; simpl; [reflexivity|].
  destruct (bool_decide _); [apply IH|]. rewrite bind_emit. simpl. apply IH.
Qed.

Lemma readListSeries_queriedShards i responseChan :
  forall seriesYielded err0,
    queriedShards (trace (readListSeries i seriesYielded err0 responseChan)) = [].
Proof.
  induction responseChan as [|response rest IH]; intros seriesYielded err0; simpl;
    [reflexivity|].
  destruct (isTerminal response); [rewrite bind_emit; reflexivity|].
  rewrite trace_bind, queriedShards_app, writeNewSeries_queriedShards. simpl.
  destruct (result _); simpl; auto.
Qed.

Lemma listSeriesFromShards_queriedShards c querySpec shards :
  forall i seriesYielded err0,
    queriedShards (trace (listSeriesFromShards c querySpec i shards seriesYielded err0))
    `prefix_of` map cluster.Id shards
    /\ (forall r,
          result (listSeriesFromShards c querySpec i shards seriesYielded err0) = Done r ->
          queriedShards (trace (listSeriesFromShards c querySpec i shards seriesYielded err0))
          = map cluster.Id shards).
Proof.
  induction shards as [|shard shards IH]; intros i seriesYielded err0; simpl.
  - split; [reflexivity | auto].
  - rewrite bind_makeChan. cbv beta. destruct (cluster.QueryResponseBufferSize _ _ _ <? 0) eqn:Hsize.
    { split; [apply prefix_nil | discriminate]. }
    rewrite bind_emit. simpl. rewrite trace_bind, result_bind, queriedShards_app.
    rewrite readListSeries_queriedShards. simpl.
    destruct (result (readListSeries i seriesYielded err0 (cluster.Query shard querySpec)))
      as [[y1 e1]| |]; simpl.
    + destruct (IH (S i) y1 e1) as [Hp Hd]. split.
      * apply (prefix_app [cluster.Id shard]). exact Hp.
      * intros r Hr. f_equal. eauto.
    + split; [apply (prefix_app [cluster.Id shard]), prefix_nil | discriminate].
    + split; [apply (prefix_app [cluster.Id shard]), prefix_nil | discriminate].
Qed.

(** X13.  runListSeriesQuery queries at most twenty shards: the first ten
    short-term shards and then the first ten long-term shards of the catalog,
    in that order, one after the other, and all of them when it returns. *)
Theorem runListSeriesQuery_queries_first_ten_shards c querySpec :
  queriedShards (trace (runListSeriesQuery c querySpec))
  `prefix_of` map cluster.Id
                (take 10 (cluster.GetShortTermShards (clusterConfiguration c))
                 ++ take 10 (cluster.GetLongTermShards (clusterConfiguration c)))
  /\ (length (queriedShards (trace (runListSeriesQuery c querySpec))) <= 20)%nat
  /\ (forall r,
        result (runListSeriesQuery c querySpec) = Done r ->
        queriedShards (trace (runListSeriesQuery c querySpec))
        = map cluster.Id
            (take 10 (cluster.GetShortTermShards (clusterConfiguration c))
             ++ take 10 (cluster.GetLongTermShards (clusterConfiguration c)))).
Proof.
  unfold runListSeriesQuery. rewrite !firstShardsForListSeries_take.
  set (shards := take 10 _ ++ take 10 _).
  destruct (listSeriesFromShards_queriedShards c querySpec shards 0 ∅ None) as [Hp Hd].
  rewrite trace_bind, result_bind, queriedShards_app.
  assert (Hlen : (length (map cluster.Id shards) <= 20)%nat).
  { unfold shards. rewrite length_map, length_app, !length_take. lia. }
  destruct (result (listSeriesFromShards c querySpec 0 shards ∅ None)) as [e| |]; simpl.
  - rewrite app_nil_r.
    split; [exact Hp|]. split; [|intros _ _; eauto].
    apply prefix_length in Hp. lia.
  - rewrite app_nil_r. split; [exact Hp|]. split; [|discriminate].
    apply prefix_length in Hp. lia.
  - rewrite app_nil_r. split; [exact Hp|]. split; [|discriminate].
    apply prefix_length in Hp. lia.
Qed.

(** ** Further properties of routing a write *)

Lemma requests_app t1 t2 : requests (t1 ++ t2) = requests t1 ++ requests t2.
Proof. induction t1 as [|[] t1 IH]; simpl; rewrite ?IH; auto. Qed.

Lemma writtenPoints_requests t : writtenPoints t = concat (map snd (requests t)).
Proof. induction t as [|[] t IH]; simpl; rewrite ?IH; auto. Qed.

Lemma drop_cons_inv {A} (l : list A) i x rest :
  drop i l = x :: rest -> l !! i = Some x /\ drop (S i) l = rest /\ (i < length l)%nat.
Proof.
  intros H. assert (Hx : l !! i = Some x).
  { pose proof (lookup_drop l i 0) as E. rewrite H, Nat.add_0_r in E. simpl in E. auto. }
  split; [exact Hx|]. split; [|eapply lookup_lt_Some; eauto].
  rewrite (drop_S l x i Hx) in H. congruence.
Qed.

Lemma slice_snoc {A} (l : list A) a i x :
  (a <= i)%nat -> l !! i = Some x -> slice l a (S i) = slice l a i ++ [x].
Proof.
  intros Hle Hx. rewrite <- (slice_app l a i (S i)) by lia. f_equal.
  unfold slice. rewrite (drop_S l x i Hx). replace (S i - i)%nat with 1%nat by lia.
  reflexivity.
Qed.

Lemma elem_of_slice {A} (l : list A) a b x :
  x ∈ slice l a b -> exists k, (a <= k < b)%nat /\ l !! k = Some x.
Proof.
  unfold slice. intros H. apply elem_of_take in H as (k & Hk & Hlt).
  rewrite lookup_drop in Hk. exists (a + k)%nat. split; [lia | exact Hk].
Qed.

Lemma elem_of_drop_lookup {A} (l : list A) a x :
  x ∈ drop a l -> exists k, (a <= k)%nat /\ l !! k = Some x.
Proof.
  intros H. apply list_elem_of_lookup in H as [k Hk]. rewrite lookup_drop in Hk.
  exists (a + k)%nat. split; [lia | exact Hk].
Qed.

Lemma slice_nonempty {A} (l : list A) a b :
  (a < b)%nat -> (a < length l)%nat -> slice l a b <> [].
Proof.
  intros Hab Hlen H. apply (f_equal length) in H. unfold slice in H.
  rewrite length_take, length_drop in H. simpl in H. lia.
Qed.

Lemma slice_to_end {A} (l : list A) a : slice l a (length l) = drop a l.
Proof. unfold slice. apply take_ge. rewrite length_drop. lia. Qed.

Lemma descendingTime_lookup points :
  descendingTime points ->
  forall i j p q,
    (i <= j)%nat -> points !! i = Some p -> points !! j = Some q ->
    GetTimestamp q <= GetTimestamp p.
Proof.
  induction points as [|x points IH]; intros Hsorted i j p q Hij Hp Hq.
  - discriminate.
  - destruct Hsorted as [Hall Hrest]. destruct i as [|i], j as [|j]; simpl in *.
    + simplify_eq. lia.
    + simplify_eq. eapply Forall_lookup_1 in Hall; eauto.
    + lia.
    + apply (IH Hrest i j p q); [lia | exact Hp | exact Hq].
Qed.

Lemma insertTimeDescending_descending p sorted :
  descendingTime sorted -> descendingTime (insertTimeDescending p sorted).
Proof.
  induction sorted as [|q sorted IH]; simpl; intros Hsorted.
  - split; [constructor | exact I].
  - destruct Hsorted as [Hall Hrest].
    destruct (GetTimestamp p <? GetTimestamp q) eqn:Hlt.
    + apply Z.ltb_lt in Hlt. simpl. split; [|auto].
      rewrite insertTimeDescending_Permutation. constructor; [lia | exact Hall].
    + apply Z.ltb_ge in Hlt. simpl. split; [|split; auto].
      constructor; [exact Hlt|]. eapply Forall_impl; [exact Hall|]. simpl. intros; lia.
Qed.

Lemma SortPointsTimeDescending_descending points :
  descendingTime (SortPointsTimeDescending points).
Proof.
  induction points as [|p points IH]; simpl; [exact I|].
  apply insertTimeDescending_descending, IH.
Qed.

(** The sweep returns: it neither panics nor waits. *)
Lemma sweep_returns c db series points rest :
  forall i st, exists r, result (sweep c db series points i rest st) = Done r.
Proof.
  induction rest as [|point rest IH]; intros i st; simpl; [eauto|].
  destruct (negb _); [|apply IH].
  destruct (cluster.GetShardToWriteToBySeriesAndTime _ _ _ _); [eauto|].
  destruct (shardToWrite st); [|apply IH].
  destruct (negb _); [|apply IH].
  rewrite result_bind. unfold write. rewrite result_bind. simpl.
  destruct (cluster.Write _ _); [eauto | apply IH].
Qed.

(** Whatever way the sweep ends, what it has flushed is a run of
    consecutive points from the run start it was entered with. *)
Lemma sweep_flushed c db series points rest :
  forall i st t r,
    sweep c db series points i rest st = (t, Done r) ->
    (lastPointIndex st <= i)%nat ->
    exists k, (lastPointIndex st <= k)%nat
              /\ writtenPoints t = slice points (lastPointIndex st) k
              /\ (forall st', r = inr st' -> k = lastPointIndex st').
Proof.
  induction rest as [|point rest IH]; intros i st t r H Hle; simpl in H.
  - inv_ret H. exists (lastPointIndex st). rewrite slice_same. simpl.
    repeat split; auto. intros st' [= <-]. reflexivity.
  - destruct (negb _); [|eapply IH; eauto].
    destruct (cluster.GetShardToWriteToBySeriesAndTime _ _ _ _) as [e|shard].
    { inv_ret H. exists (lastPointIndex st). rewrite slice_same. simpl.
      repeat split; auto. discriminate. }
    destruct (shardToWrite st) as [current|].
    2:{ apply IH in H; simpl in *; [exact H | lia]. }
    destruct (negb _).
    2:{ apply IH in H; simpl in *; [exact H | lia]. }
    bind_inv H as Hw e. apply write_Done_inv in Hw as ->. destruct e as [e|].
    + inv_ret H. exists i. simpl. rewrite app_nil_r. repeat split; auto. discriminate.
    + apply IH in H; simpl in *; [|lia]. destruct H as (k & Hk & Hw & Hst).
      exists k. rewrite Hw, slice_app by lia. repeat split; auto. lia.
Qed.

Lemma separated_last runs :
  separated (runs ++ [[]]) -> separated runs.
Proof.
  induction runs as [|run runs IH]; simpl; [auto|].
  intros [Hrun Hrest]. split; [|auto].
  intros p q Hp Hq. apply (Hrun p q Hp). rewrite concat_app. apply elem_of_app. auto.
Qed.

(** The strict fall of time at a flush: the points from [i] on are
    strictly older than those before [i]. *)
Lemma flush_separates points i point t0 :
  descendingTime points ->
  (0 < i)%nat ->
  points !! i = Some point ->
  (forall p, points !! (i - 1)%nat = Some p -> t0 = GetTimestamp p) ->
  GetTimestamp point <> t0 ->
  forall a p q,
    p ∈ slice points a i -> q ∈ drop i points -> GetTimestamp q < GetTimestamp p.
Proof.
  intros Hsorted Hi Hpoint Hprev Hne a p q Hp Hq.
  apply elem_of_slice in Hp as (kp & Hkp & Hp).
  apply elem_of_drop_lookup in Hq as (kq & Hkq & Hq).
  destruct (lookup_lt_is_Some_2 points (i - 1)%nat) as [prev Hprevious].
  { apply lookup_lt_Some in Hpoint. lia. }
  pose proof (Hprev prev Hprevious) as ->.
  pose proof (descendingTime_lookup points Hsorted kp (i - 1)%nat p prev ltac:(lia) Hp Hprevious).
  pose proof (descendingTime_lookup points Hsorted (i - 1)%nat i prev point ltac:(lia)
                Hprevious Hpoint).
  pose proof (descendingTime_lookup points Hsorted i kq point q ltac:(lia) Hpoint Hq).
  lia.
Qed.

Lemma wellRouted_snoc c db name id run point :
  wellRouted c db name (id, run) ->
  (GetTimestamp point <> 0 -> catalogShard c db name id (GetTimestamp point)) ->
  wellRouted c db name (id, run ++ [point]).
Proof.
  unfold wellRouted. simpl. intros Hrun Hpoint. apply Forall_app. split; [exact Hrun|].
  constructor; [exact Hpoint | constructor].
Qed.

(** The sweep goes on to the next point without a flush. *)
Lemma sweeping_next c db name points i st st1 point :
  sweeping c db name points i st ->
  points !! i = Some point ->
  lastPointIndex st1 = lastPointIndex st ->
  lastTime st1 = GetTimestamp point ->
  match shardToWrite st1 with
  | Some current =>
      (GetTimestamp point <> 0 ->
       catalogShard c db name (cluster.Id current) (GetTimestamp point))
      /\ catalogShard c db name (cluster.Id current) (lastTime st1)
      /\ match shardToWrite st with
         | Some current0 => cluster.Id current0 = cluster.Id current
         | None => True
         end
  | None => shardToWrite st = None /\ GetTimestamp point = 0
  end ->
  sweeping c db name points (S i) st1.
Proof.
  intros [Hstart Htime Hshard] Hpoint Hlast Hlt Hnew. split.
  - lia.
  - intros p _. rewrite Nat.sub_succ, Nat.sub_0_r, Hpoint. intros [= <-]. exact Hlt.
  - destruct (shardToWrite st1) as [current|].
    + destruct Hnew as (Hrouted & Hcat & Hsame). rewrite Hlast.
      destruct (shardToWrite st) as [current0|].
      * destruct Hshard as (Hlti & _ & Hrun). split; [lia|]. split; [exact Hcat|].
        rewrite (slice_snoc points _ i point) by (auto; lia).
        apply wellRouted_snoc; [|exact Hrouted]. rewrite <- Hsame. exact Hrun.
      * destruct Hshard as (Hzero & _ & Hzeros). split; [lia|]. split; [exact Hcat|].
        rewrite (slice_snoc points _ i point) by (auto; lia).
        apply wellRouted_snoc; [|exact Hrouted].
        unfold wellRouted, slice. simpl. rewrite Hzero, Nat.sub_0_r, drop_0.
        eapply Forall_impl; [exact Hzeros|]. simpl. intros p Hp Hne. contradiction.
    + destruct Hnew as [Hnone Hz]. rewrite Hnone in Hshard.
      destruct Hshard as (Hzero & _ & Hzeros). split; [lia|]. split; [lia|].
      rewrite (take_S_r points i point Hpoint). apply Forall_app. split; [exact Hzeros|].
      constructor; [exact Hz | constructor].
Qed.

(** The requests of the sweep, and the state it leaves. *)
Lemma sweep_requests c db series points :
  descendingTime points ->
  forall rest i st t r,
    drop i points = rest ->
    (i <= length points)%nat ->
    sweeping c db (protocol.Name series) points i st ->
    sweep c db series points i rest st = (t, Done r) ->
    Forall (wellRouted c db (protocol.Name series)) (requests t)
    /\ Forall (fun request => request.2 <> []) (requests t)
    /\ match r with
       | inl _ => separated (map snd (requests t))
       | inr st' =>
           sweeping c db (protocol.Name series) points (length points) st'
           /\ separated (map snd (requests t) ++ [drop (lastPointIndex st') points])
       end.
Proof.
  intros Hsorted.
  induction rest as [|point rest IH]; intros i st t r Hdrop Hi Hinv H; simpl in H.
  { inv_ret H. simpl. split; [constructor|]. split; [constructor|]. split.
    - assert (i = length points) as <-; [|exact Hinv].
      apply (f_equal length) in Hdrop. rewrite length_drop in Hdrop. simpl in Hdrop. lia.
    - split; [|exact I]. intros p q _ Hq. inversion Hq. }
  apply drop_cons_inv in Hdrop as (Hpoint & Hdrop & Hlt).
  destruct (negb (GetTimestamp point =? lastTime st)) eqn:Hne.
  2:{ apply negb_false_iff, Z.eqb_eq in Hne.
      eapply (IH (S i) st); eauto.
      eapply sweeping_next; eauto.
      destruct Hinv as [Hstart Htime Hshard].
      destruct (shardToWrite st) as [current|].
      - destruct Hshard as (_ & Hcat & _). rewrite Hne. auto.
      - destruct Hshard as (_ & Hz & _). split; [reflexivity | lia]. }
  apply negb_true_iff, Z.eqb_neq in Hne.
  destruct (cluster.GetShardToWriteToBySeriesAndTime (clusterConfiguration c) db
              (protocol.Name series) (GetTimestamp point)) as [e|shard] eqn:Hlookup.
  { inv_ret H. simpl. auto. }
  assert (Hcat : catalogShard c db (protocol.Name series) (cluster.Id shard)
                   (GetTimestamp point)) by (exists shard; auto).
  destruct (shardToWrite st) as [current|] eqn:Hcurrent.
  2:{ eapply (IH (S i)); eauto.
      eapply sweeping_next; eauto; simpl; auto.
      rewrite Hcurrent. auto. }
  destruct (negb (cluster.Id current =? cluster.Id shard)) eqn:Hid.
  2:{ apply negb_false_iff, Z.eqb_eq in Hid.
      eapply (IH (S i)); eauto.
      eapply sweeping_next; eauto; simpl; auto.
      rewrite Hcurrent, Hid. auto. }
  destruct Hinv as [Hstart Htime Hshard]. rewrite Hcurrent in Hshard.
  destruct Hshard as (Hlti & _ & Hrun).
  assert (Hsep : forall p q,
            p ∈ slice points (lastPointIndex st) i -> q ∈ drop i points ->
            GetTimestamp q < GetTimestamp p).
  { eapply flush_separates; eauto; [lia|]. intros p Hp. apply Htime; [lia | exact Hp]. }
  bind_inv H as Hw e. apply write_Done_inv in Hw as ->. simpl.
  destruct e as [e|].
  { inv_ret H. simpl. split; [repeat constructor; exact Hrun|].
    split; [repeat constructor; simpl; apply slice_nonempty; lia|].
    split; [|exact I]. intros p q _ Hq. inversion Hq. }
  pose proof (sweep_flushed _ _ _ _ _ _ _ _ _ H ltac:(simpl; lia)) as (k & Hk & Hflushed & Hk').
  simpl in Hk, Hflushed.
  eapply (IH (S i)) in H; eauto.
  2:{ split; simpl.
      - lia.
      - intros p _ Hp. replace (_ - _)%nat with i in Hp by lia. congruence.
      - split; [lia|]. split; [exact Hcat|].
        rewrite (slice_snoc points i i point) by auto. rewrite slice_same. simpl.
        unfold wellRouted. simpl. repeat constructor. auto. }
  destruct H as (Hrouted & Hfull & Hrest).
  split; [constructor; [exact Hrun | exact Hrouted]|].
  split; [constructor; [simpl; apply slice_nonempty; lia | exact Hfull]|].
  assert (Hlater : forall q, q ∈ writtenPoints t1 -> q ∈ drop i points).
  { intros q Hq. rewrite Hflushed in Hq. apply elem_of_slice in Hq as (kq & Hkq & Hq).
    apply list_elem_of_lookup. exists (kq - i)%nat. rewrite lookup_drop.
    replace (i + (kq - i))%nat with kq by lia. exact Hq. }
  destruct r as [e|st'].
  - simpl. split; [|exact Hrest]. intros p q Hp Hq.
    apply Hsep; [exact Hp|]. apply Hlater. rewrite writtenPoints_requests. exact Hq.
  - destruct Hrest as [Hinv' Hseparated]. split; [exact Hinv'|].
    simpl. split; [|exact Hseparated]. intros p q Hp Hq.
    apply Hsep; [exact Hp|]. rewrite concat_app in Hq. apply elem_of_app in Hq as [Hq|Hq].
    + apply Hlater. rewrite writtenPoints_requests. exact Hq.
    + simpl in Hq. rewrite app_nil_r in Hq. specialize (Hk' st' eq_refl). subst k.
      apply elem_of_drop_lookup in Hq as (kq & Hkq & Hq).
      apply list_elem_of_lookup. exists (kq - i)%nat. rewrite lookup_drop.
      replace (i + (kq - i))%nat with kq by lia. exact Hq.
Qed.

Lemma separated_app_l runs more : separated (runs ++ more) -> separated runs.
Proof.
  induction runs as [|run runs IH]; simpl; [auto|].
  intros [Hrun Hrest]. split; [|auto].
  intros p q Hp Hq. apply (Hrun p q Hp). rewrite concat_app. apply elem_of_app. auto.
Qed.

Lemma elem_of_concat_2 {A} (x : A) (run : list A) (runs : list (list A)) :
  run ∈ runs -> x ∈ run -> x ∈ concat runs.
Proof.
  intros Hrun Hx. apply list_elem_of_In, in_concat. exists run.
  split; apply list_elem_of_In; assumption.
Qed.

Lemma separated_lookup runs :
  separated runs ->
  forall i j ri rj p q,
    (i < j)%nat -> runs !! i = Some ri -> runs !! j = Some rj ->
    p ∈ ri -> q ∈ rj -> GetTimestamp q < GetTimestamp p.
Proof.
  induction runs as [|run runs IH]; intros Hsep i j ri rj p q Hij Hi Hj Hp Hq.
  - discriminate.
  - destruct Hsep as [Hrun Hrest]. destruct j as [|j]; [lia|]. simpl in Hj.
    destruct i as [|i]; simpl in Hi.
    + simplify_eq. apply (Hrun p q Hp). apply (elem_of_concat_2 q rj); [|exact Hq].
      apply list_elem_of_lookup. eauto.
    + apply (IH Hrest i j ri rj p q); auto. lia.
Qed.

(** What CommitSeriesData hands to shards, however it ends. *)
Lemma CommitSeriesData_requests c db series :
  Forall (wellRouted c db (protocol.Name series))
    (requests (trace (CommitSeriesData c db series)))
  /\ Forall (fun request => request.2 <> [])
       (requests (trace (CommitSeriesData c db series)))
  /\ separated (map snd (requests (trace (CommitSeriesData c db series)))).
Proof.
  unfold CommitSeriesData.
  set (points := SortPointsTimeDescending _).
  set (st0 := {| lastTime := 0; lastPointIndex := 0; shardToWrite := None |}).
  destruct (sweep_returns c db series points points 0 st0) as [r Hr].
  destruct (sweep c db series points 0 points st0) as [t0 res] eqn:Hsweep.
  simpl in Hr. subst res.
  assert (Hinit : sweeping c db (protocol.Name series) points 0 st0).
  { split; simpl; [lia | intros; lia | repeat split; constructor]. }
  destruct (sweep_requests c db series points (SortPointsTimeDescending_descending _)
              points 0 st0 t0 r (drop_0 _) ltac:(lia) Hinit Hsweep)
    as (Hrouted & Hfull & Hrest).
  rewrite trace_bind. simpl trace. simpl result.
  destruct r as [e|st'].
  { simpl. rewrite app_nil_r. auto. }
  destruct Hrest as [Hinv Hsep]. simpl.
  destruct (drop (lastPointIndex st') points) as [|first tail] eqn:Htail.
  { simpl. rewrite app_nil_r. split; [auto|]. split; [auto|].
    eapply separated_app_l; eauto. }
  destruct (match shardToWrite st' with Some _ => _ | None => _ end) as [shard|] eqn:Hshard.
  2:{ simpl. rewrite app_nil_r. split; [auto|]. split; [auto|].
      eapply separated_app_l; eauto. }
  unfold write. rewrite bind_emit. simpl. rewrite requests_app. simpl.
  rewrite map_app. simpl. split; [|split].
  - apply Forall_app. split; [exact Hrouted|]. constructor; [|constructor].
    destruct Hinv as [_ _ Hsh]. destruct (shardToWrite st') as [current|].
    + injection Hshard as <-. destruct Hsh as (_ & _ & Hrun).
      rewrite slice_to_end, Htail in Hrun. exact Hrun.
    + destruct Hsh as (_ & _ & Hzeros). rewrite take_ge in Hzeros by lia.
      unfold wellRouted. simpl.
      assert (Hsub : Forall (fun p => GetTimestamp p = 0) (first :: tail)).
      { rewrite <- Htail. apply Forall_drop. exact Hzeros. }
      eapply Forall_impl; [exact Hsub|]. simpl. intros p Hp Hne. contradiction.
  - apply Forall_app. split; [exact Hfull|]. constructor; [simpl; discriminate | constructor].
  - exact Hsep.
Qed.

(** X14.  Every point that CommitSeriesData hands to a shard and whose
    timestamp is not 0 is handed to the shard the catalog gives for the
    series and the point's timestamp (a shard with the same id), however the
    call ends. *)
Theorem CommitSeriesData_routes_by_catalog c db series id run p :
  (id, run) ∈ requests (trace (CommitSeriesData c db series)) ->
  p ∈ run ->
  GetTimestamp p <> 0 ->
  exists shard,
    cluster.GetShardToWriteToBySeriesAndTime (clusterConfiguration c) db
      (protocol.Name series) (GetTimestamp p) = inr shard
    /\ cluster.Id shard = id.
Proof.
  intros Hreq Hp Hne.
  destruct (CommitSeriesData_requests c db series) as [Hrouted _].
  rewrite Forall_forall in Hrouted. specialize (Hrouted _ Hreq).
  unfold wellRouted in Hrouted. simpl in Hrouted.
  rewrite Forall_forall in Hrouted. apply (Hrouted p Hp Hne).
Qed.

Lemma CommitSeriesData_routes_by_catalog_witness :
  (2, [Scenario.point 300])
    ∈ requests (trace (CommitSeriesData (Scenario.S1 2) "db" Scenario.S3series))
  /\ Scenario.point 300 ∈ [Scenario.point 300]
  /\ GetTimestamp (Scenario.point 300) <> 0
  /\ exists shard,
       cluster.GetShardToWriteToBySeriesAndTime (clusterConfiguration (Scenario.S1 2)) "db"
         (protocol.Name Scenario.S3series) (GetTimestamp (Scenario.point 300)) = inr shard
       /\ cluster.Id shard = 2.
Proof.
  assert (H1 : (2, [Scenario.point 300])
               ∈ requests (trace (CommitSeriesData (Scenario.S1 2) "db" Scenario.S3series)))
    by (vm_compute; left).
  assert (H2 : Scenario.point 300 ∈ [Scenario.point 300]) by left.
  assert (H3 : GetTimestamp (Scenario.point 300) <> 0) by (vm_compute; discriminate).
  split; [exact H1|]. split; [exact H2|]. split; [exact H3|].
  apply (CommitSeriesData_routes_by_catalog (Scenario.S1 2) "db" Scenario.S3series 2
           [Scenario.point 300] (Scenario.point 300) H1 H2 H3).
Defined.

(** X15.  The write requests of one CommitSeriesData call fall in time:
    every point of a later request is strictly older than every point of an
    earlier one.  So points with the same timestamp are always in the same
    request, to the same shard. *)
Theorem CommitSeriesData_requests_fall_in_time c db series i j ri rj p q :
  (i < j)%nat ->
  requests (trace (CommitSeriesData c db series)) !! i = Some ri ->
  requests (trace (CommitSeriesData c db series)) !! j = Some rj ->
  p ∈ ri.2 -> q ∈ rj.2 ->
  GetTimestamp q < GetTimestamp p.
Proof.
  intros Hij Hi Hj Hp Hq.
  destruct (CommitSeriesData_requests c db series) as (_ & _ & Hsep).
  apply (separated_lookup _ Hsep i j ri.2 rj.2 p q Hij); auto.
  - rewrite list_lookup_fmap, Hi. reflexivity.
  - rewrite list_lookup_fmap, Hj. reflexivity.
Qed.

Lemma CommitSeriesData_requests_fall_in_time_witness :
  (0 < 1)%nat
  /\ requests (trace (CommitSeriesData (Scenario.S1 2) "db" Scenario.S3series)) !! 0%nat
     = Some (2, [Scenario.point 300])
  /\ requests (trace (CommitSeriesData (Scenario.S1 2) "db" Scenario.S3series)) !! 1%nat
     = Some (1, [Scenario.point 2; Scenario.point 1])
  /\ Scenario.point 300 ∈ [Scenario.point 300]
  /\ Scenario.point 2 ∈ [Scenario.point 2; Scenario.point 1]
  /\ GetTimestamp (Scenario.point 2) < GetTimestamp (Scenario.point 300).
Proof.
  assert (H0 : requests (trace (CommitSeriesData (Scenario.S1 2) "db" Scenario.S3series))
               !! 0%nat = Some (2, [Scenario.point 300])) by (vm_compute; reflexivity).
  assert (H1 : requests (trace (CommitSeriesData (Scenario.S1 2) "db" Scenario.S3series))
               !! 1%nat = Some (1, [Scenario.point 2; Scenario.point 1]))
    by (vm_compute; reflexivity).
  assert (H2 : Scenario.point 300 ∈ [Scenario.point 300]) by left.
  assert (H3 : Scenario.point 2 ∈ [Scenario.point 2; Scenario.point 1]) by left.
  split; [lia|]. split; [exact H0|]. split; [exact H1|]. split; [exact H2|].
  split; [exact H3|].
  apply (CommitSeriesData_requests_fall_in_time (Scenario.S1 2) "db" Scenario.S3series
           0 1 (2, [Scenario.point 300]) (1, [Scenario.point 2; Scenario.point 1])
           (Scenario.point 300) (Scenario.point 2) ltac:(lia) H0 H1 H2 H3).
Defined.

(** X16.  CommitSeriesData never hands a shard a write request without
    points. *)
Theorem CommitSeriesData_sends_no_empty_request c db series :
  Forall (fun request => request.2 <> [])
    (requests (trace (CommitSeriesData c db series))).
Proof. apply CommitSeriesData_requests. Qed.

Lemma fillTimestamp_is_Some now p : is_Some (protocol.Timestamp (fillTimestamp now p)).
Proof. unfold fillTimestamp. destruct (protocol.Timestamp p) eqn:E; simpl; rewrite ?E; eauto. Qed.

(** The points handed to shards, however CommitSeriesData ends. *)
Lemma CommitSeriesData_written c db series :
  writtenPoints (trace (CommitSeriesData c db series))
  `prefix_of` SortPointsTimeDescending
                (map (fillTimestamp (CurrentTime (world c))) (protocol.Points series))
  /\ Forall (fun p => is_Some (protocol.Timestamp p))
       (writtenPoints (trace (CommitSeriesData c db series))).
Proof.
  assert (Hprefix : writtenPoints (trace (CommitSeriesData c db series))
            `prefix_of` SortPointsTimeDescending
                          (map (fillTimestamp (CurrentTime (world c)))
                             (protocol.Points series))).
  { unfold CommitSeriesData.
    set (points := SortPointsTimeDescending _).
    set (st0 := {| lastTime := 0; lastPointIndex := 0; shardToWrite := None |}).
    destruct (sweep_returns c db series points points 0 st0) as [r Hr].
    destruct (sweep c db series points 0 points st0) as [t0 res] eqn:Hsweep.
    simpl in Hr. subst res.
    destruct (sweep_flushed c db series points points 0 st0 t0 r Hsweep ltac:(simpl; lia))
      as (k & _ & Hflushed & Hk).
    simpl in Hflushed. unfold slice in Hflushed. rewrite Nat.sub_0_r, drop_0 in Hflushed.
    rewrite trace_bind. simpl trace. simpl result. destruct r as [e|st'].
    { simpl. rewrite app_nil_r, Hflushed. apply prefix_take. }
    specialize (Hk st' eq_refl). subst k. simpl.
    destruct (drop (lastPointIndex st') points) as [|first tail] eqn:Htail.
    { simpl. rewrite app_nil_r, Hflushed. apply prefix_take. }
    destruct (match shardToWrite st' with Some _ => _ | None => _ end) as [shard|].
    2:{ simpl. rewrite app_nil_r, Hflushed. apply prefix_take. }
    unfold write. rewrite bind_emit. simpl. rewrite writtenPoints_app, Hflushed. simpl.
    rewrite app_nil_r, <- Htail, take_drop. reflexivity. }
  split; [exact Hprefix|].
  destruct Hprefix as [more Hmore].
  assert (Hall : Forall (fun p => is_Some (protocol.Timestamp p))
                   (SortPointsTimeDescending
                      (map (fillTimestamp (CurrentTime (world c))) (protocol.Points series)))).
  { rewrite SortPointsTimeDescending_Permutation. apply Forall_fmap, Forall_true.
    intros p. apply fillTimestamp_is_Some. }
  rewrite Hmore in Hall. apply Forall_app in Hall as [Hall _]. exact Hall.
Qed.

(** X17.  However CommitSeriesData ends -- without error, with the error
    of the catalog or of a shard, or in a panic -- the points it has handed to
    shards are, in order, a prefix of the points of the series sorted by
    descending time, and each of them carries a timestamp: nothing is handed
    over twice or out of order, and what was handed over before a failure
    stays written. *)
Theorem CommitSeriesData_writes_a_prefix c db series :
  writtenPoints (trace (CommitSeriesData c db series))
  `prefix_of` SortPointsTimeDescending
                (map (fillTimestamp (CurrentTime (world c))) (protocol.Points series))
  /\ Forall (fun p => is_Some (protocol.Timestamp p))
       (writtenPoints (trace (CommitSeriesData c db series))).
Proof. apply CommitSeriesData_written. Qed.

(** ** Further properties of writes and continuous queries *)

(** X18.  When a write is committed without error, the continuous queries
    are run on the series as CommitSeriesData leaves it, and that is the
    series of the last write request: of a write that spans several shards,
    the continuous queries see only the points of the last (oldest) run. *)
Theorem WriteSeriesData_continuous_queries_see_last_run c user db series t series' :
  common.HasWriteAccess user db = true ->
  protocol.Points series <> [] ->
  CommitSeriesData c db series = (t, Done (None, series')) ->
  trace (WriteSeriesData c user db series)
  = t ++ trace (ProcessContinuousQueries c db series')
  /\ exists t0 id,
       t = t0 ++ [EvShardWrite id {| protocol.RType := protocol.Request_WRITE;
                                     protocol.Database := db;
                                     protocol.ReqSeries := series' |}].
Proof.
  intros Hacc Hpoints Hcommit. split.
  - unfold WriteSeriesData. rewrite Hacc. simpl.
    destruct (protocol.Points series); [congruence|].
    rewrite trace_bind, Hcommit. simpl. rewrite trace_bind.
    destruct (result _); simpl; rewrite ?app_nil_r; reflexivity.
  - unfold CommitSeriesData in Hcommit.
    set (points := SortPointsTimeDescending _) in *.
    set (st0 := {| lastTime := 0; lastPointIndex := 0; shardToWrite := None |}) in *.
    bind_inv Hcommit as Hsweep swept. destruct swept as [e|st']; [inv_ret Hcommit|].
    assert (Hinit : sweeping c db (protocol.Name series) points 0 st0).
    { split; simpl; [lia | intros; lia | repeat split; constructor]. }
    destruct (sweep_requests c db series points (SortPointsTimeDescending_descending _)
                points 0 st0 _ _ (drop_0 _) ltac:(lia) Hinit Hsweep)
      as (_ & _ & [Hstart _ Hshard] & _).
    assert (Hlen : (0 < length points)%nat).
    { unfold points. rewrite SortPointsTimeDescending_Permutation, length_map.
      destruct (protocol.Points series); [congruence | simpl; lia]. }
    simpl in Hcommit.
    destruct (drop (lastPointIndex st') points) as [|first tail] eqn:Htail.
    { apply (f_equal length) in Htail. rewrite length_drop in Htail. simpl in Htail.
      destruct (shardToWrite st'); [destruct Hshard; lia | destruct Hshard; lia]. }
    destruct (match shardToWrite st' with Some _ => _ | None => _ end) as [shard|];
      [|discriminate].
    bind_inv Hcommit as Hw e. apply write_Done_inv in Hw as ->. inv_ret Hcommit.
    rewrite app_nil_r. eauto.
Qed.

Lemma WriteSeriesData_continuous_queries_see_last_run_witness :
  common.HasWriteAccess Scenario.admin "db" = true
  /\ protocol.Points Scenario.S3series <> []
  /\ CommitSeriesData Scenario.S4 "db" Scenario.S3series
     = (trace (CommitSeriesData Scenario.S4 "db" Scenario.S3series),
        Done (None, Scenario.series "cpu" [2; 1]))
  /\ trace (WriteSeriesData Scenario.S4 Scenario.admin "db" Scenario.S3series)
     = trace (CommitSeriesData Scenario.S4 "db" Scenario.S3series)
       ++ trace (ProcessContinuousQueries Scenario.S4 "db" (Scenario.series "cpu" [2; 1])).
Proof.
  assert (H : CommitSeriesData Scenario.S4 "db" Scenario.S3series
              = (trace (CommitSeriesData Scenario.S4 "db" Scenario.S3series),
                 Done (None, Scenario.series "cpu" [2; 1])))
    by (vm_compute; reflexivity).
  split; [reflexivity|]. split; [discriminate|]. split; [exact H|].
  apply (WriteSeriesData_continuous_queries_see_last_run Scenario.S4 Scenario.admin "db"
           Scenario.S3series _ _ eq_refl ltac:(discriminate) H).
Defined.

(** S3 with the continuous queries of S4: the point at time 300 is written
    to shard 2, and only the points at 2 and 1 are copied to "copy.cpu". *)
Example WriteSeriesData_S3 :
  requests (trace (WriteSeriesData Scenario.S4 Scenario.admin "db" Scenario.S3series))
  = [ (2, [Scenario.point 300]);
      (1, [Scenario.point 2; Scenario.point 1]);
      (1, [Scenario.point 2; Scenario.point 1]) ].
Proof. vm_compute. reflexivity. Qed.

Lemma nextSequenceNumber_Some sequenceMap targetName point sequenceMap' point' :
  nextSequenceNumber sequenceMap targetName point = Some (sequenceMap', point') ->
  exists t,
    protocol.Timestamp point = Some t
    /\ sequenceMap' = <[(targetName, t) := default 0 (sequenceMap !! (targetName, t)) + 1]>
                        sequenceMap
    /\ point' = withSequenceNumber point (default 0 (sequenceMap !! (targetName, t)) + 1).
Proof.
  unfold nextSequenceNumber. destruct (protocol.Timestamp point) as [t|]; [|discriminate].
  intros [= <- <-]. eauto.
Qed.

Lemma fillTimestamp_timed now p t :
  protocol.Timestamp p = Some t -> fillTimestamp now p = p.
Proof. unfold fillTimestamp. intros ->. reflexivity. Qed.

Lemma assignAll_numbered targetName points :
  forall (sequenceMap : gmap (string * Z) Z) out,
    assignAll sequenceMap targetName points = Some out ->
    forall q, q ∈ out ->
    exists k p t,
      points !! k = Some p
      /\ protocol.Timestamp p = Some t
      /\ q = withSequenceNumber p
               (default 0 (sequenceMap !! (targetName, t)) + 1
                + Z.of_nat (length (filter (fun p' => protocol.Timestamp p' = Some t)
                                      (take k points)))).
Proof.
  induction points as [|p0 points IH]; intros sequenceMap out Hassign q Hin.
  - injection Hassign as <-. inversion Hin.
  - simpl in Hassign.
    destruct (nextSequenceNumber sequenceMap targetName p0) as [[sequenceMap' p0']|] eqn:Hnext;
      [|discriminate].
    destruct (assignAll sequenceMap' targetName points) as [done|] eqn:Hrest; [|discriminate].
    injection Hassign as <-.
    apply nextSequenceNumber_Some in Hnext as (t0 & Ht0 & -> & ->).
    apply elem_of_cons in Hin as [->|Hin].
    + exists 0%nat, p0, t0. split; [reflexivity|]. split; [exact Ht0|].
      simpl. f_equal. lia.
    + destruct (IH _ _ Hrest q Hin) as (k & p & t & Hp & Ht & ->).
      exists (S k), p, t. split; [exact Hp|]. split; [exact Ht|]. f_equal. simpl.
      rewrite filter_cons. destruct (decide (protocol.Timestamp p0 = Some t)) as [Heq|Hne].
      * assert (t0 = t) as -> by congruence. rewrite lookup_insert_eq. simpl. lia.
      * rewrite lookup_insert_ne by congruence. lia.
Qed.

Lemma commitEachPoint_numbered c db series targetName points :
  forall (sequenceMap : gmap (string * Z) Z) q,
    q ∈ writtenPoints (trace (commitEachPoint c db series targetName true sequenceMap points)) ->
    exists k p t,
      points !! k = Some p
      /\ protocol.Timestamp p = Some t
      /\ q = withSequenceNumber p
               (default 0 (sequenceMap !! (targetName, t)) + 1
                + Z.of_nat (length (filter (fun p' => protocol.Timestamp p' = Some t)
                                      (take k points)))).
Proof.
  induction points as [|p0 points IH]; intros sequenceMap q Hin; simpl in Hin.
  - inversion Hin.
  - destruct (nextSequenceNumber sequenceMap targetName p0) as [[sequenceMap' p0']|] eqn:Hnext;
      [|inversion Hin].
    rewrite bind_ret_l in Hin.
    apply nextSequenceNumber_Some in Hnext as (t0 & Ht0 & -> & ->).
    rewrite trace_bind, writtenPoints_app in Hin. apply elem_of_app in Hin as [Hin|Hin].
    + destruct (CommitSeriesData_written c db
                  {| protocol.Name :=
                       Map replaceInvalidCharacters
                         (ReplaceAllStringFunc targetName
                            (fun fieldName =>
                               GetFieldValueAsString (world c) p0
                                 (GetFieldIndex (world c) series fieldName)));
                     protocol.Fields := protocol.Fields series;
                     protocol.Points :=
                       [withSequenceNumber p0
                          (default 0 (sequenceMap !! (targetName, t0)) + 1)] |})
        as [[more Hmore] _].
      simpl in Hmore.
      assert (Hq : q ∈ [fillTimestamp (CurrentTime (world c))
                          (withSequenceNumber p0
                             (default 0 (sequenceMap !! (targetName, t0)) + 1))]).
      { rewrite Hmore. apply elem_of_app. left. exact Hin. }
      apply list_elem_of_singleton in Hq.
      rewrite (fillTimestamp_timed _ _ t0) in Hq by exact Ht0. subst q.
      exists 0%nat, p0, t0. split; [reflexivity|]. split; [exact Ht0|].
      simpl. f_equal. lia.
    + destruct (result (CommitSeriesData c db _)) as [r| |]; [|inversion Hin..].
      rewrite trace_bind, writtenPoints_app in Hin. apply elem_of_app in Hin as [Hin|Hin].
      2:{ destruct (result _); inversion Hin. }
      destruct (IH _ q Hin) as (k & p & t & Hp & Ht & ->).
      exists (S k), p, t. split; [exact Hp|]. split; [exact Ht|]. f_equal. simpl.
      rewrite filter_cons. destruct (decide (protocol.Timestamp p0 = Some t)) as [Heq|Hne].
      * assert (t0 = t) as -> by congruence. rewrite lookup_insert_eq. simpl. lia.
      * rewrite lookup_insert_ne by congruence. lia.
Qed.

(** X19.  The sequence numbers that InterpolateValuesAndCommit assigns on
    request count the points of one timestamp from 1 in the order of the
    series, with and without a placeholder in the target name: every point it
    hands to a shard is a point of the series with, as its sequence number, 1
    plus the number of points before it in the series that have the same
    timestamp, and is otherwise unchanged. *)
Theorem InterpolateValuesAndCommit_sequence_numbers c db series targetName q :
  q ∈ writtenPoints (trace (InterpolateValuesAndCommit c db series targetName true)) ->
  exists k p t,
    protocol.Points series !! k = Some p
    /\ protocol.Timestamp p = Some t
    /\ q = withSequenceNumber p
             (1 + Z.of_nat (length (filter (fun p' => protocol.Timestamp p' = Some t)
                                      (take k (protocol.Points series))))).
Proof.
  unfold InterpolateValuesAndCommit. intros Hin.
  set (target := Replace targetName ":series_name" (protocol.Name series)) in *.
  destruct (MatchString target).
  - rewrite trace_bind, writtenPoints_app in Hin. apply elem_of_app in Hin as [Hin|Hin].
    2:{ destruct (result _); inversion Hin. }
    destruct (commitEachPoint_numbered _ _ _ _ _ _ _ Hin) as (k & p & t & Hp & Ht & ->).
    exists k, p, t. rewrite lookup_empty. auto.
  - destruct (assignAll ∅ target (protocol.Points series)) as [out|] eqn:Hassign;
      [|inversion Hin].
    rewrite bind_ret_l, trace_bind, writtenPoints_app in Hin.
    apply elem_of_app in Hin as [Hin|Hin].
    2:{ destruct (result _); inversion Hin. }
    destruct (CommitSeriesData_written c db
                {| protocol.Name := target; protocol.Fields := protocol.Fields series;
                   protocol.Points := out |}) as [[more Hmore] _].
    simpl in Hmore.
    assert (Hq : q ∈ SortPointsTimeDescending (map (fillTimestamp (CurrentTime (world c))) out)).
    { rewrite Hmore. apply elem_of_app. left. exact Hin. }
    rewrite SortPointsTimeDescending_Permutation in Hq.
    apply list_elem_of_fmap in Hq as (o & -> & Ho).
    destruct (assignAll_numbered _ _ _ _ Hassign o Ho) as (k & p & t & Hp & Ht & ->).
    rewrite (fillTimestamp_timed _ _ t) by exact Ht.
    exists k, p, t. rewrite lookup_empty. auto.
Qed.

Lemma InterpolateValuesAndCommit_sequence_numbers_witness :
  withSequenceNumber (Scenario.point 7) 2
  ∈ writtenPoints (trace (InterpolateValuesAndCommit Scenario.S4 "db"
                            (Scenario.series "cpu" [7; 5; 7]) "copy.:series_name" true))
  /\ exists k p t,
       protocol.Points (Scenario.series "cpu" [7; 5; 7]) !! k = Some p
       /\ protocol.Timestamp p = Some t
       /\ withSequenceNumber (Scenario.point 7) 2
          = withSequenceNumber p
              (1 + Z.of_nat (length (filter (fun p' => protocol.Timestamp p' = Some t)
                                       (take k (protocol.Points
                                                  (Scenario.series "cpu" [7; 5; 7])))))).
Proof.
  assert (H : withSequenceNumber (Scenario.point 7) 2
              ∈ writtenPoints (trace (InterpolateValuesAndCommit Scenario.S4 "db"
                                        (Scenario.series "cpu" [7; 5; 7])
                                        "copy.:series_name" true))).
  { rewrite list_elem_of_In. vm_compute. auto. }
  split; [exact H|].
  apply (InterpolateValuesAndCommit_sequence_numbers Scenario.S4 "db"
           (Scenario.series "cpu" [7; 5; 7]) "copy.:series_name"
           (withSequenceNumber (Scenario.point 7) 2) H).
Defined.

(** Two points of the timestamp 7 and one of 5, numbered and then sorted
    by CommitSeriesData; with a placeholder in the target name the same
    numbers are given, one commit per point. *)
Example InterpolateValuesAndCommit_numbers :
  writtenPoints (trace (InterpolateValuesAndCommit Scenario.S4 "db"
                          (Scenario.series "cpu" [7; 5; 7]) "copy.:series_name" true))
  = [ withSequenceNumber (Scenario.point 7) 1;
      withSequenceNumber (Scenario.point 7) 2;
      withSequenceNumber (Scenario.point 5) 1 ]
  /\ writtenPoints (trace (InterpolateValuesAndCommit Scenario.S4 "db"
                             (Scenario.series "cpu" [7; 5; 7]) "events.[host]" true))
     = [ withSequenceNumber (Scenario.point 7) 1;
         withSequenceNumber (Scenario.point 5) 1;
         withSequenceNumber (Scenario.point 7) 2 ].
Proof. split; vm_compute; reflexivity. Qed.

Lemma length_le_concat {A} (run : list A) runs :
  run ∈ runs -> (length run <= length (concat runs))%nat.
Proof.
  induction runs as [|r runs IH]; intros Hin; [inversion Hin|].
  simpl. rewrite length_app. apply elem_of_cons in Hin as [->|Hin]; [lia|].
  specialize (IH Hin). lia.
Qed.

Lemma CommitSeriesData_one_point c db series p :
  protocol.Points series = [p] ->
  Forall (fun request => length request.2 = 1%nat)
    (requests (trace (CommitSeriesData c db series))).
Proof.
  intros Hp.
  destruct (CommitSeriesData_written c db series) as [Hprefix _].
  destruct (CommitSeriesData_requests c db series) as (_ & Hfull & _).
  apply prefix_length in Hprefix.
  rewrite SortPointsTimeDescending_Permutation, length_map, Hp in Hprefix. simpl in Hprefix.
  rewrite writtenPoints_requests in Hprefix.
  rewrite Forall_forall in Hfull. apply Forall_forall. intros request Hin.
  specialize (Hfull request Hin). simpl in Hfull.
  assert (Hle : (length request.2
                 <= length (concat (map snd (requests (trace (CommitSeriesData c db series))))))%nat).
  { apply length_le_concat. apply list_elem_of_fmap. exists request. auto. }
  destruct request.2; [congruence | simpl in *; lia].
Qed.

Lemma commitEachPoint_one_point c db series targetName assign points :
  forall sequenceMap,
    always (fun e => match e with
                     | EvShardWrite _ req =>
                         length (protocol.Points (protocol.ReqSeries req)) = 1%nat
                     | _ => True
                     end)
      (commitEachPoint c db series targetName assign sequenceMap points).
Proof.
  induction points as [|point points IH]; intros sequenceMap; simpl; [always_crush|].
  apply always_bind.
  { destruct assign; [|always_crush]. destruct (nextSequenceNumber _ _ _); always_crush. }
  intros [sequenceMap' point']. apply always_bind; [|intros; always_crush].
  unfold always.
  pose proof (CommitSeriesData_one_point c db
                {| protocol.Name :=
                     Map replaceInvalidCharacters
                       (ReplaceAllStringFunc targetName
                          (fun fieldName =>
                             GetFieldValueAsString (world c) point
                               (GetFieldIndex (world c) series fieldName)));
                   protocol.Fields := protocol.Fields series;
                   protocol.Points := [point'] |} point' eq_refl) as Hone.
  pose proof (CommitSeriesData_always c db
                {| protocol.Name :=
                     Map replaceInvalidCharacters
                       (ReplaceAllStringFunc targetName
                          (fun fieldName =>
                             GetFieldValueAsString (world c) point
                               (GetFieldIndex (world c) series fieldName)));
                   protocol.Fields := protocol.Fields series;
                   protocol.Points := [point'] |}) as Hwrites.
  unfold always in Hwrites.
  induction (trace (CommitSeriesData c db _)) as [|e t IHt]; [constructor|].
  inversion Hwrites; subst. destruct e; simpl in *; try contradiction.
  inversion Hone; subst. constructor; auto.
Qed.

(** X20.  When the target of a continuous query has a [[field]]
    placeholder (after :series_name is filled in), InterpolateValuesAndCommit
    commits point by point: every write request it hands to a shard carries
    exactly one point. *)
Theorem InterpolateValuesAndCommit_placeholder_writes_single_points
    c db series targetName assign :
  MatchString (Replace targetName ":series_name" (protocol.Name series)) = true ->
  Forall (fun request => length request.2 = 1%nat)
    (requests (trace (InterpolateValuesAndCommit c db series targetName assign))).
Proof.
  intros Hmatch. unfold InterpolateValuesAndCommit. rewrite Hmatch.
  rewrite trace_bind.
  pose proof (commitEachPoint_one_point c db series
                (Replace targetName ":series_name" (protocol.Name series)) assign
                (protocol.Points series) ∅) as Hall.
  unfold always in Hall.
  assert (Hreq : forall t,
            Forall (fun e => match e with
                             | EvShardWrite _ req =>
                                 length (protocol.Points (protocol.ReqSeries req)) = 1%nat
                             | _ => True
                             end) t ->
            Forall (fun request => length request.2 = 1%nat) (requests t)).
  { induction 1 as [|[] t He _ IHt]; simpl; auto. }
  rewrite requests_app. apply Forall_app. split; [apply Hreq, Hall|].
  destruct (result _); simpl; constructor.
Qed.

Lemma InterpolateValuesAndCommit_placeholder_writes_single_points_witness :
  MatchString (Replace "events.[host]" ":series_name"
                 (protocol.Name (Scenario.series "cpu" [2; 1]))) = true
  /\ Forall (fun request => length request.2 = 1%nat)
       (requests (trace (InterpolateValuesAndCommit Scenario.S4 "db"
                           (Scenario.series "cpu" [2; 1]) "events.[host]" false))).
Proof.
  split; [reflexivity|].
  apply (InterpolateValuesAndCommit_placeholder_writes_single_points Scenario.S4 "db"
           (Scenario.series "cpu" [2; 1]) "events.[host]" false).
  reflexivity.
Defined.

(** S4 of the specification, with the field values of the scenario world:
    one commit per point, into the series named by the point. *)
Example InterpolateValuesAndCommit_S4 :
  trace (InterpolateValuesAndCommit Scenario.S4 "db" (Scenario.series "cpu" [2; 1])
           "events.[host]" false)
  = [ EvShardWrite 1
        {| protocol.RType := protocol.Request_WRITE; protocol.Database := "db";
           protocol.ReqSeries := Scenario.series "events.v" [2] |};
      EvShardWrite 1
        {| protocol.RType := protocol.Request_WRITE; protocol.Database := "db";
           protocol.ReqSeries := Scenario.series "events.v" [1] |} ].
Proof. vm_compute. reflexivity. Qed.

(** ** Names and the cleaning of target names *)

(** What replaceInvalidCharacters lets through is a name character that it
    maps to itself, and it maps every name character to itself. *)
Lemma replaceInvalidCharacters_chars r :
  match replaceInvalidCharacters r with
  | Some r' =>
      isNameChar r'
      && match replaceInvalidCharacters r' with
         | Some r'' => Ascii.eqb r'' r'
         | None => false
         end
  | None => negb (isNameChar r)
  end = true
  /\ (isNameChar r = true -> replaceInvalidCharacters r = Some r).
Proof.
  destruct r as [[] [] [] [] [] [] [] []]; vm_compute; split; auto; discriminate.
Qed.

Lemma isNameStart_isNameChar r : isNameStart r = true -> isNameChar r = true.
Proof. destruct r as [[] [] [] [] [] [] [] []]; vm_compute; auto. Qed.

(** X21.  The cleaning of a continuous query's target name (strings.Map
    with replaceInvalidCharacters) leaves only letters, digits, '_', '-' and
    '.', and cleaning a cleaned name changes nothing. *)
Theorem cleaned_target_name s :
  allChars isNameChar (Map replaceInvalidCharacters s) = true
  /\ Map replaceInvalidCharacters (Map replaceInvalidCharacters s)
     = Map replaceInvalidCharacters s.
Proof.
  induction s as [|r s [IH1 IH2]]; simpl; [auto|].
  destruct (replaceInvalidCharacters_chars r) as [Hr _].
  destruct (replaceInvalidCharacters r) as [r'|]; [|auto].
  apply andb_prop in Hr as [Hname Hfix]. simpl. rewrite Hname, IH1.
  destruct (replaceInvalidCharacters r') as [r''|]; [|discriminate].
  apply Ascii.eqb_eq in Hfix as ->. rewrite IH2. auto.
Qed.

Lemma Map_name_chars s :
  allChars isNameChar s = true -> Map replaceInvalidCharacters s = s.
Proof.
  induction s as [|r s IH]; simpl; [auto|].
  intros H. apply andb_prop in H as [Hr Hs].
  destruct (replaceInvalidCharacters_chars r) as [_ Hfix].
  rewrite (Hfix Hr), (IH Hs). reflexivity.
Qed.

(** X22.  A name that isValidName accepts (a database or user name) is
    not empty, and as the target name of a continuous query it passes the
    cleaning unchanged. *)
Theorem valid_name_is_clean name :
  isValidName name = true ->
  name <> EmptyString /\ Map replaceInvalidCharacters name = name.
Proof.
  destruct name as [|r rest]; simpl; [discriminate|].
  intros H. apply andb_prop in H as [Hr Hrest]. split; [discriminate|].
  apply (Map_name_chars (String r rest)). simpl.
  rewrite (isNameStart_isNameChar r Hr), Hrest. reflexivity.
Qed.

Lemma valid_name_is_clean_witness :
  isValidName "metrics_2014.prod-eu" = true
  /\ "metrics_2014.prod-eu" <> EmptyString
  /\ Map replaceInvalidCharacters "metrics_2014.prod-eu" = "metrics_2014.prod-eu".
Proof.
  split; [reflexivity|].
  apply (valid_name_is_clean "metrics_2014.prod-eu"). reflexivity.
Defined.

(** Names that isValidName refuses. *)
Example isValidName_refuses :
  isValidName "" = false /\ isValidName ".hidden" = false /\ isValidName "-x" = false
  /\ isValidName "my db" = false /\ isValidName "a/b" = false
  /\ isValidName (String "a" (String newline "")) = false.
Proof. repeat split. Qed.

(** ** The time of a GROUP BY *)

Lemma groupByTime_no_function_call vm elems :
  Forall (fun v => IsFunctionCall vm v = false) elems ->
  groupByTime vm elems = inr None.
Proof.
  induction 1 as [|v elems Hv _ IH]; simpl; [reflexivity|]. rewrite Hv. exact IH.
Qed.

(** X23.  GetGroupByTime is decided by the first element of the GROUP BY
    that is a function call: it returns what it returns for that element
    alone, whatever comes before and after it, even when a later element is
    the well-formed time(...). *)
Theorem GetGroupByTime_first_function_call vm self before call after :
  parser.Elems self = Some (before ++ call :: after) ->
  Forall (fun v => IsFunctionCall vm v = false) before ->
  IsFunctionCall vm call = true ->
  GetGroupByTime vm self = groupByTime vm [call].
Proof.
  intros Helems Hbefore Hcall. unfold GetGroupByTime. rewrite Helems. simpl. clear Helems.
  induction Hbefore as [|v before Hv _ IH]; simpl.
  - rewrite Hcall. reflexivity.
  - rewrite Hv. exact IH.
Qed.

Lemma GetGroupByTime_first_function_call_witness :
  parser.Elems {| parser.FillWithZero := false; parser.FillValue := None;
                  parser.Elems := Some ([Fixture2.call "host"]
                                        ++ Fixture2.call "count" :: [Fixture2.call "time"]) |}
  = Some ([Fixture2.call "host"] ++ Fixture2.call "count" :: [Fixture2.call "time"])
  /\ Forall (fun v => IsFunctionCall Fixture2.values v = false) [Fixture2.call "host"]
  /\ IsFunctionCall Fixture2.values (Fixture2.call "count") = true
  /\ GetGroupByTime Fixture2.values
       {| parser.FillWithZero := false; parser.FillValue := None;
          parser.Elems := Some ([Fixture2.call "host"]
                                ++ Fixture2.call "count" :: [Fixture2.call "time"]) |}
     = groupByTime Fixture2.values [Fixture2.call "count"].
Proof.
  split; [reflexivity|]. split; [repeat constructor|]. split; [reflexivity|].
  apply (GetGroupByTime_first_function_call Fixture2.values _ [Fixture2.call "host"]
           (Fixture2.call "count") [Fixture2.call "time"]);
    [reflexivity | repeat constructor | reflexivity].
Defined.

(** GROUP BY host, count(), time(1h): the count() decides, with an error. *)
Example GetGroupByTime_count_before_time :
  GetGroupByTime Fixture2.values
    {| parser.FillWithZero := false; parser.FillValue := None;
       parser.Elems := Some [Fixture2.call "host"; Fixture2.call "count";
                             Fixture2.call "time"] |}
  = inl (common.QueryError common.WrongNumberOfArguments
           "time function only accepts one argument")
  /\ GetGroupByTime Fixture2.values
       {| parser.FillWithZero := false; parser.FillValue := None;
          parser.Elems := Some [Fixture2.call "host"; Fixture2.call "time"] |}
     = inr (Some 3600000000000).
Proof. split; reflexivity. Qed.

(** ** Administration *)

Lemma CreateDatabase_calls a user db replicationFactor c :
  c ∈ (CreateDatabase a user db replicationFactor).1 ->
  c = admin.RaftCreateDatabase db replicationFactor
  /\ common.IsClusterAdmin user = true /\ isValidName db = true.
Proof.
  unfold CreateDatabase.
  destruct (common.IsClusterAdmin user); simpl; [|intros H; inversion H].
  destruct (isValidName db); simpl; [|intros H; inversion H].
  intros H. apply list_elem_of_singleton in H. auto.
Qed.

(** X24.  Whatever CreateDbUser hands to consensus is the user that passed
    every check: the requester is a cluster admin or an admin of the
    database, the name is valid, the password was hashed, no user of that
    name was known in the database, and the saved user is the plain one
    (not an admin, not deleted, cache key db%username, read and write
    matchers ".*"); the operation then returns the answer of consensus. *)
Theorem CreateDbUser_saves_checked_user a requester db username password user :
  admin.RaftSaveDbUser user ∈ (CreateDbUser a requester db username password).1 ->
  (common.IsClusterAdmin requester || common.IsDbAdmin requester db) = true
  /\ isValidName username = true
  /\ admin.GetDbUser (admin.catalog a) db username = None
  /\ admin.HashPassword a password = inr (admin.Hash (admin.User user))
  /\ user = {| admin.User :=
                 {| admin.Name := username;
                    admin.Hash := admin.Hash (admin.User user);
                    admin.IsUserDeleted := false;
                    admin.CacheKey := db +:+ "%" +:+ username |};
               admin.Db := db;
               admin.WriteTo := [ {| admin.IsRegex := true; admin.Pattern := ".*" |} ];
               admin.ReadFrom := [ {| admin.IsRegex := true; admin.Pattern := ".*" |} ];
               admin.IsAdmin := false |}
  /\ (CreateDbUser a requester db username password).2
     = Done (admin.SaveDbUser (admin.consensus a) user).
Proof.
  unfold CreateDbUser.
  destruct (common.IsClusterAdmin requester) eqn:Hc,
           (common.IsDbAdmin requester db) eqn:Hd; simpl;
    try (intros H; inversion H; fail).
  all: destruct (String.eqb username ""); simpl; try (intros H; inversion H; fail).
  all: destruct (isValidName username); simpl; try (intros H; inversion H; fail).
  all: destruct (admin.HashPassword a password) as [e|hash]; simpl;
    try (intros H; inversion H; fail).
  all: destruct (admin.GetDbUser (admin.catalog a) db username); simpl.
  all: try (intros H; apply CreateDatabase_calls in H; destruct H as [H _];
            discriminate).
  all: destruct (admin.IsRaftServer (admin.consensus a)); simpl.
  all: try (intros H; apply CreateDatabase_calls in H; destruct H as [H _];
            discriminate).
  all: intros H; apply elem_of_app in H; destruct H as [H|H];
    [apply CreateDatabase_calls in H; destruct H as [H _]; discriminate|].
  all: apply list_elem_of_singleton in H; injection H as ->; simpl; auto 10.
Qed.

Lemma CreateDbUser_saves_checked_user_witness :
  admin.IsAdmin
    {| admin.User := {| admin.Name := "john"; admin.Hash := "h(pw)";
                        admin.IsUserDeleted := false; admin.CacheKey := "db%john" |};
       admin.Db := "db";
       admin.WriteTo := [ {| admin.IsRegex := true; admin.Pattern := ".*" |} ];
       admin.ReadFrom := [ {| admin.IsRegex := true; admin.Pattern := ".*" |} ];
       admin.IsAdmin := false |} = false
  /\ (CreateDbUser (Office.coordinator Office.failing) Office.dbAdmin "db" "john" "pw").2
     = Done (Some (common.Errorf "no leader")).
Proof.
  pose proof (CreateDbUser_saves_checked_user (Office.coordinator Office.failing)
                Office.dbAdmin "db" "john" "pw"
                {| admin.User := {| admin.Name := "john"; admin.Hash := "h(pw)";
                                    admin.IsUserDeleted := false;
                                    admin.CacheKey := "db%john" |};
                   admin.Db := "db";
                   admin.WriteTo := [ {| admin.IsRegex := true; admin.Pattern := ".*" |} ];
                   admin.ReadFrom := [ {| admin.IsRegex := true; admin.Pattern := ".*" |} ];
                   admin.IsAdmin := false |}) as H.
  destruct H as (_ & _ & _ & _ & _ & H).
  - vm_compute. apply list_elem_of_here.
  - split; [reflexivity | exact H].
Defined.

(** X25.  CreateDbUser creates the database on the way only for a cluster
    admin and only under a valid database name, with replication factor 1:
    an admin of the database alone never has it created, and the user is
    saved all the same. *)
Theorem CreateDbUser_creates_database_as_cluster_admin
    a requester db username password d replicationFactor :
  admin.RaftCreateDatabase d replicationFactor
    ∈ (CreateDbUser a requester db username password).1 ->
  d = db /\ replicationFactor = 1
  /\ common.IsClusterAdmin requester = true /\ isValidName db = true.
Proof.
  assert (Hcreated : admin.RaftCreateDatabase d replicationFactor
                       ∈ (CreateDatabase a requester db 1).1 ->
          d = db /\ replicationFactor = 1
          /\ common.IsClusterAdmin requester = true /\ isValidName db = true).
  { intros H. apply CreateDatabase_calls in H. destruct H as (H & ? & ?).
    injection H as -> ->. auto. }
  unfold CreateDbUser.
  destruct (negb (common.IsClusterAdmin requester)
            && negb (common.IsDbAdmin requester db)); simpl;
    [intros H; inversion H|].
  destruct (String.eqb username ""); simpl; [intros H; inversion H|].
  destruct (isValidName username); simpl; [|intros H; inversion H].
  destruct (admin.HashPassword a password) as [e|hash]; simpl;
    [intros H; inversion H|].
  destruct (admin.GetDbUser (admin.catalog a) db username); simpl; [exact Hcreated|].
  destruct (admin.IsRaftServer (admin.consensus a)); simpl; [|exact Hcreated].
  intros H. apply elem_of_app in H. destruct H as [H|H]; [auto|].
  apply list_elem_of_singleton in H. discriminate.
Qed.

Lemma CreateDbUser_creates_database_as_cluster_admin_witness :
  "stats" = "stats" /\ 1 = 1
  /\ common.IsClusterAdmin Scenario.admin = true /\ isValidName "stats" = true.
Proof.
  apply (CreateDbUser_creates_database_as_cluster_admin
           (Office.coordinator Office.working) Scenario.admin "stats" "john" "pw").
  vm_compute. apply list_elem_of_here.
Defined.

(** A database admin creates a user without the database being created. *)
Example CreateDbUser_by_database_admin :
  exists user,
    CreateDbUser (Office.coordinator Office.working) Office.dbAdmin "db" "john" "pw"
    = ([admin.RaftSaveDbUser user], Done None).
Proof. eexists. vm_compute. reflexivity. Qed.

(** A cluster admin creates a user in a database whose name is not valid:
    the database is not created, the user is saved. *)
Example CreateDbUser_invalid_database :
  exists user,
    isValidName "my db" = false
    /\ CreateDbUser (Office.coordinator Office.working) Scenario.admin "my db" "john" "pw"
       = ([admin.RaftSaveDbUser user], Done None)
    /\ admin.Db user = "my db".
Proof. eexists. vm_compute. repeat split. Qed.

(** X26.  Without the permission no administrative operation calls consensus
    or a shard, and each returns an authorization error: a requester who
    is no cluster admin cannot create or drop a database nor create or
    delete a cluster admin, and one who is not an admin of the database
    either cannot create or delete its users nor change their admin flag. *)
Theorem administration_needs_permission
    a requester db username password replicationFactor isAdmin :
  common.IsClusterAdmin requester = false ->
  refused (CreateDatabase a requester db replicationFactor)
  /\ refused (DropDatabase a requester db)
  /\ refused (CreateClusterAdminUser a requester username password)
  /\ refused (DeleteClusterAdminUser a requester username)
  /\ (common.IsDbAdmin requester db = false ->
      CreateDbUser a requester db username password
      = ([], Done (Some (common.AuthorizationError "Insufficient permissions")))
      /\ refused (DeleteDbUser a requester db username)
      /\ refused (SetDbAdmin a requester db username isAdmin)).
Proof.
  intros Hc.
  unfold refused, CreateDatabase, DropDatabase, CreateClusterAdminUser,
    DeleteClusterAdminUser, CreateDbUser, DeleteDbUser, SetDbAdmin.
  rewrite Hc. simpl.
  repeat split; eauto.
  all: rewrite H; simpl; eauto.
Qed.

Lemma administration_needs_permission_witness :
  refused (DropDatabase (Office.coordinator Office.working) Office.dbAdmin "db")
  /\ refused (SetDbAdmin (Office.coordinator Office.working) Office.dbAdmin
                "other" "paul" true).
Proof.
  destruct (administration_needs_permission (Office.coordinator Office.working)
              Office.dbAdmin "other" "paul" "pw" 1 true) as (_ & _ & _ & _ & H);
    [reflexivity|].
  destruct H as (_ & _ & H); [reflexivity|].
  split; [|exact H].
  split; [reflexivity | eexists; reflexivity].
Defined.

(** X27.  DropDatabase touches the shards all or not at all: when it returns
    nil every shard of the catalog was told to drop the database, with
    force; when it returns an error (no permission, the checkpoint or
    consensus failed) no shard was told anything. *)
Theorem DropDatabase_all_or_nothing a user db :
  ((DropDatabase a user db).2 = None
   /\ forall shard, shard ∈ admin.GetAllShards (admin.catalog a) ->
        admin.ShardDropDatabase (cluster.Id shard) db true ∈ (DropDatabase a user db).1)
  \/ ((DropDatabase a user db).2 <> None
      /\ Forall (fun c => isShardDrop c = false) (DropDatabase a user db).1).
Proof.
  unfold DropDatabase.
  destruct (common.IsClusterAdmin user); simpl;
    [|right; split; [discriminate | constructor]].
  destruct (admin.CreateCheckpoint (admin.catalog a)); simpl;
    [right; split; [discriminate | repeat constructor]|].
  destruct (admin.DropDatabase (admin.consensus a) db); simpl;
    [right; split; [discriminate | repeat constructor]|].
  left. split; [reflexivity|].
  intros shard Hin. do 2 apply list_elem_of_further.
  apply (list_elem_of_fmap_2
           (fun shard => admin.ShardDropDatabase (cluster.Id shard) db true)).
  exact Hin.
Qed.

(** X28.  SetDbAdmin returns nil whenever it reached consensus, whatever
    consensus answered: what it saves is the known user of that name with
    only the admin flag set as asked. *)
Theorem SetDbAdmin_ignores_consensus a requester db username isAdmin user :
  admin.RaftSaveDbUser user ∈ (SetDbAdmin a requester db username isAdmin).1 ->
  (SetDbAdmin a requester db username isAdmin).2 = None
  /\ exists stored,
       admin.GetDbUser (admin.catalog a) db username = Some stored
       /\ user = {| admin.User := admin.User stored;
                    admin.Db := admin.Db stored;
                    admin.WriteTo := admin.WriteTo stored;
                    admin.ReadFrom := admin.ReadFrom stored;
                    admin.IsAdmin := isAdmin |}.
Proof.
  unfold SetDbAdmin.
  destruct (negb (common.IsClusterAdmin requester)
            && negb (common.IsDbAdmin requester db)); simpl;
    [intros H; inversion H|].
  destruct (admin.GetDbUser (admin.catalog a) db username) as [stored|]; simpl;
    [|intros H; inversion H].
  intros H. apply list_elem_of_singleton in H. injection H as ->.
  split; [reflexivity|]. exists stored. auto.
Qed.

Lemma SetDbAdmin_ignores_consensus_witness :
  admin.SaveDbUser Office.failing
    {| admin.User := admin.User Office.paul; admin.Db := "db";
       admin.WriteTo := admin.WriteTo Office.paul;
       admin.ReadFrom := admin.ReadFrom Office.paul;
       admin.IsAdmin := true |} = Some (common.Errorf "no leader")
  /\ (SetDbAdmin (Office.coordinator Office.failing) Office.dbAdmin "db" "paul" true).2
     = None.
Proof.
  split; [reflexivity|].
  apply (SetDbAdmin_ignores_consensus (Office.coordinator Office.failing)
           Office.dbAdmin "db" "paul" true
           {| admin.User := admin.User Office.paul; admin.Db := "db";
              admin.WriteTo := admin.WriteTo Office.paul;
              admin.ReadFrom := admin.ReadFrom Office.paul;
              admin.IsAdmin := true |}).
  vm_compute. apply list_elem_of_here.
Defined.

(** DeleteDbUser, unlike SetDbAdmin, passes the answer of consensus on. *)
Example DeleteDbUser_reports_consensus :
  (DeleteDbUser (Office.coordinator Office.failing) Office.dbAdmin "db" "paul").2
  = Some (common.Errorf "no leader").
Proof. reflexivity. Qed.
